(** * St. Paul crime map: the view-model logic of [src/App.vue]

    A shallow embedding of the script part of the single-page application:
    crime categorisation, the code and neighborhood loaders, the incident
    query builder, the per-neighborhood aggregator, the coordinate clamp,
    the block-address geocoder with its cache, and the new-incident form.

    Conventions of the embedding.
    - A JavaScript string is a [string] of 8-bit characters; the case
      mapping, the white-space class and the digit class are those of the
      ASCII range.
    - A JavaScript number is a [number]: NaN, the two infinities, or a
      finite value kept as a rational.  Only comparisons are made on numbers
      here ([Math.min], [Math.max], [>]), and those are exact on doubles.
    - Identifiers and crime codes are integers ([Z]).
    - An insertion-ordered [Map] or [Set] is a list that keeps first
      insertion order.  The plain object used as geocode cache is a [gmap]
      of its own entries; a read of it also finds the members every object
      inherits, and [reactive] is taken to pass reads and writes through.
    - Leaflet is known by what its coordinate constructor accepts.
    - An [async] function is a function of the state and of the replies the
      remote services give; it returns the new state and the list of
      requests it issued, oldest first. *)

From Stdlib Require Import ZArith QArith Ascii String List Bool Lia
  Sorting.Sorted Permutation Numbers.DecimalString.
From stdpp Require Import base option list strings gmap.

Local Open Scope Z_scope.

(* ================================================================== *)
(** * Part I: the program *)
(* ================================================================== *)

(** ** JavaScript strings *)
Module Js.

(** [String.prototype.toLowerCase], one character. *)
Definition toLowerChar (c : ascii) : ascii :=
let n := N_of_ascii c in
if ((65 <=? n) && (n <=? 90))%N then ascii_of_N (n + 32) else c.

(** [String.prototype.toLowerCase]. *)
Fixpoint toLowerCase (s : string) : string :=
match s with
| EmptyString => EmptyString
| String c s' => String (toLowerChar c) (toLowerCase s')
end.

(** [k] is a prefix of [s]. *)
Fixpoint startsWith (k s : string) : bool :=
match k, s with
| EmptyString, _ => true
| String a k', String b s' => if ascii_dec a b then startsWith k' s' else false
| String _ _, EmptyString => false
end.

(** [s.includes(k)]: [k] occurs in [s] at some position. *)
Fixpoint includes (s k : string) : bool :=
startsWith k s ||
match s with
| EmptyString => false
| String _ s' => includes s' k
end.

(** [\s] of a regular expression, and the characters [trim] strips. *)
Definition isWhiteSpace (c : ascii) : bool :=
match c with
| "009" | "010" | "011" | "012" | "013" | " " => true
| _ => false
end%char.

(** The characters the regular-expression dot refuses. *)
Definition isLineTerminator (c : ascii) : bool :=
match c with
| "010" | "013" => true
| _ => false
end%char.

(** [\d] of a regular expression. *)
Definition isDigit (c : ascii) : bool :=
let n := N_of_ascii c in ((48 <=? n) && (n <=? 57))%N.

Fixpoint all (p : ascii -> bool) (s : string) : bool :=
match s with
| EmptyString => true
| String c s' => p c && all p s'
end.

Fixpoint trimStart (s : string) : string :=
match s with
| EmptyString => EmptyString
| String c s' => if isWhiteSpace c then trimStart s' else s
end.

Fixpoint trimEnd (s : string) : string :=
match s with
| EmptyString => EmptyString
| String c s' =>
    match trimEnd s' with
    | EmptyString => if isWhiteSpace c then EmptyString else String c EmptyString
    | t => String c t
    end
end.

(** [String.prototype.trim]. *)
Definition trim (s : string) : string := trimEnd (trimStart s).

(** The longest prefix of [s] whose characters satisfy [p], and the rest:
  what a greedy [p+] consumes when nothing after it can match a [p]. *)
Fixpoint span (p : ascii -> bool) (s : string) : string * string :=
match s with
| EmptyString => (EmptyString, EmptyString)
| String c s' =>
    if p c then let '(a, b) := span p s' in (String c a, b)
    else (EmptyString, s)
end.

(** [s.replace(a, b)] for one-character strings [a] and [b]: only the first
  occurrence is replaced. *)
Fixpoint replaceFirst (a b : ascii) (s : string) : string :=
match s with
| EmptyString => EmptyString
| String c s' => if ascii_dec c a then String b s' else String c (replaceFirst a b s')
end.

(** [String(z)] for an integer. *)
Definition String_of_Z (z : Z) : string := NilEmpty.string_of_int (Z.to_int z).

(** [Array.prototype.join]. *)
Fixpoint join (sep : string) (l : list string) : string :=
match l with
| [] => EmptyString
| [x] => x
| x :: l' => x +:+ sep +:+ join sep l'
end.

(** [Array.prototype.sort(cmp)]: the sort is stable, so for a consistent
  comparator its result is the one of insertion from the right, where an
  element goes before the first one it does not compare greater than. *)
Section Sort.
Context {A : Type} (cmp : A -> A -> Z).

Fixpoint insert_sorted (x : A) (l : list A) : list A :=
  match l with
  | [] => [x]
  | y :: l' => if cmp x y <=? 0 then x :: l else y :: insert_sorted x l'
  end.

Definition sort (l : list A) : list A := foldr insert_sorted [] l.
End Sort.

End Js.

(** ** JavaScript numbers *)
Inductive number : Type :=
  | NaN
  | NegInfinity
  | Fin (q : Q)
  | PosInfinity.

Module Num.

(** [a < b]; false as soon as one side is NaN. *)
Definition lt (a b : number) : bool :=
match a, b with
| NaN, _ | _, NaN => false
| NegInfinity, NegInfinity => false
| NegInfinity, _ => true
| _, NegInfinity => false
| PosInfinity, _ => false
| _, PosInfinity => true
| Fin x, Fin y => negb (Qle_bool y x)
end.

(** [a > b]. *)
Definition gt (a b : number) : bool := lt b a.

(** [Math.max(a, b)]. *)
Definition max (a b : number) : number :=
match a, b with
| NaN, _ | _, NaN => NaN
| _, _ => if lt a b then b else a
end.

(** [Math.min(a, b)]. *)
Definition min (a b : number) : number :=
match a, b with
| NaN, _ | _, NaN => NaN
| _, _ => if lt b a then b else a
end.

Definition of_Z (z : Z) : number := Fin (inject_Z z).

(** [a <= b] as a proposition, for statements; NaN is below and above
  nothing. *)
Definition le (a b : number) : Prop :=
match a, b with
| NaN, _ | _, NaN => False
| NegInfinity, _ => True
| _, PosInfinity => True
| Fin x, Fin y => Qle x y
| _, _ => False
end.

Definition isNaN (a : number) : bool :=
match a with NaN => true | _ => false end.

End Num.

(** ** Crime categories *)
Inductive category : Type := violent | property | other.

Definition violentKeywords : list string :=
  [ "murder"; "manslaughter"; "rape"; "robbery"; "assault"; "kidnap";
    "homicide"; "weapon"; "threat"; "domestic" ].

Definition propertyKeywords : list string :=
  [ "burglary"; "theft"; "robbery"; "arson"; "vandalism";
    "damage to property"; "property"; "motor vehicle theft"; "shoplifting";
    "stolen"; "fraud"; "forgery" ].

(** The text the keywords are searched in: the type, a space, and the
    description ([None] is a missing or null description). *)
Definition crimeText (incidentType : string) (incidentText : option string) : string :=
  Js.toLowerCase (incidentType +:+ " " +:+ default "" incidentText).

Definition categorizeCrime (incidentType : string) (incidentText : option string)
  : category :=
  let text := crimeText incidentType incidentText in
  if existsb (fun k => Js.includes text k) violentKeywords then violent
  else if existsb (fun k => Js.includes text k) propertyKeywords then property
  else other.

(** ** Insertion-ordered [Map] and [Set] *)
Module JsMap.
Section Defs.
Context {K V : Type} `{EqDecision K}.

Definition t := list (K * V).

Definition empty : t := [].

Fixpoint get (m : t) (k : K) : option V :=
  match m with
  | [] => None
  | (k', v) :: m' => if decide (k' = k) then Some v else get m' k
  end.

Definition has (m : t) (k : K) : bool :=
  match get m k with Some _ => true | None => false end.

(** [m.set(k, v)]: an existing key keeps its place. *)
Fixpoint set (m : t) (k : K) (v : V) : t :=
  match m with
  | [] => [(k, v)]
  | (k', v') :: m' =>
      if decide (k' = k) then (k, v) :: m' else (k', v') :: set m' k v
  end.

(** A mutation [f] of the object stored under [k]. *)
Fixpoint update (f : V -> V) (m : t) (k : K) : t :=
  match m with
  | [] => []
  | (k', v) :: m' =>
      if decide (k' = k) then (k', f v) :: m' else (k', v) :: update f m' k
  end.

Definition values (m : t) : list V := map snd m.
Definition keys (m : t) : list K := map fst m.
End Defs.
Arguments t : clear implicits.
End JsMap.

Module JsSet.
Section Defs.
Context {K : Type} `{EqDecision K}.

(** [s.add(k)]. *)
Definition add (s : list K) (k : K) : list K :=
  if decide (k ∈ s) then s else s ++ [k].
End Defs.
End JsSet.

(** [Array.prototype.includes] on integers. *)
Definition includesZ (l : list Z) (z : Z) : bool := bool_decide (z ∈ l).

(** [x || d] for a string that may be missing: the empty string is falsy. *)
Definition orElse (x : option string) (d : string) : string :=
  match x with
  | Some EmptyString | None => d
  | Some s => s
  end.

(** ** Data model *)
Module Code.
Record t := mk { code : Z; type : string }.
End Code.

Module Group.
(** An entry of [incidentTypeGroups]. *)
Record t := mk { type : string; codes : list Z; selected : bool }.
Definition push (c : Z) (g : t) : t := mk (type g) (codes g ++ [c]) (selected g).
End Group.

Module Neighborhood.
(** [marker] is the text of the popup bound to the circle marker, [None]
    when the neighborhood has no marker. *)
Record t := mk {
  id : Z; name : string; lat : number; lng : number;
  marker : option string; crimes : nat; selected : bool }.
End Neighborhood.

Module Row.
(** An incident as the backend returns it. *)
Record t := mk {
  case_number : string; date : string; time : string; code : Z;
  incident : option string; police_grid : Z; neighborhood_number : Z;
  block : string }.
End Row.

Module Incident.
(** [{...row, incident_type, neighborhood_name, category}]. *)
Record t := mk {
  row : Row.t; incident_type : string; neighborhood_name : string;
  category : category }.
Definition neighborhood_number (i : t) : Z := Row.neighborhood_number (row i).
End Incident.

Module LatLng.
Record t := mk { lat : number; lng : number }.
End LatLng.

(** A value that is a number or a string, as [v-model] leaves it in a
    field bound to a numeric input or to a select. *)
Inductive value : Type :=
  | VNum (n : number)
  | VStr (s : string).

Module Filters.
Record t := mk { dateStart : string; dateEnd : string; maxIncidents : number }.
End Filters.

Module Form.
(** The [newIncident] form. *)
Record t := mk {
  case_number : string; date : string; time : string; code : value;
  incident : string; police_grid : value; neighborhood_number : value;
  block : string }.
End Form.

Module Payload.
(** The JSON body of [PUT /new-incident]. *)
Record t := mk {
  case_number : string; date : string; time : string; code : number;
  incident : string; police_grid : number; neighborhood_number : number;
  block : string }.
End Payload.

(** The reactive state of the component. *)
Record App := mkApp {
  baseApiUrl : string;
  codes : list Code.t;
  incidentTypeGroups : list Group.t;
  neighborhoods : list Neighborhood.t;
  incidents : list Incident.t;
  visibleNeighborhoodIds : list Z;
  isLoadingCrimes : bool;
  loadError : string;
  filters : Filters.t;
  newIncident : Form.t;
  newIncidentError : string;
  newIncidentSuccess : string }.

Definition set_codes (x : list Code.t) (a : App) : App :=
  mkApp (baseApiUrl a) x (incidentTypeGroups a) (neighborhoods a) (incidents a)
    (visibleNeighborhoodIds a) (isLoadingCrimes a) (loadError a) (filters a)
    (newIncident a) (newIncidentError a) (newIncidentSuccess a).
Definition set_incidentTypeGroups (x : list Group.t) (a : App) : App :=
  mkApp (baseApiUrl a) (codes a) x (neighborhoods a) (incidents a)
    (visibleNeighborhoodIds a) (isLoadingCrimes a) (loadError a) (filters a)
    (newIncident a) (newIncidentError a) (newIncidentSuccess a).
Definition set_neighborhoods (x : list Neighborhood.t) (a : App) : App :=
  mkApp (baseApiUrl a) (codes a) (incidentTypeGroups a) x (incidents a)
    (visibleNeighborhoodIds a) (isLoadingCrimes a) (loadError a) (filters a)
    (newIncident a) (newIncidentError a) (newIncidentSuccess a).
Definition set_incidents (x : list Incident.t) (a : App) : App :=
  mkApp (baseApiUrl a) (codes a) (incidentTypeGroups a) (neighborhoods a) x
    (visibleNeighborhoodIds a) (isLoadingCrimes a) (loadError a) (filters a)
    (newIncident a) (newIncidentError a) (newIncidentSuccess a).
Definition set_isLoadingCrimes (x : bool) (a : App) : App :=
  mkApp (baseApiUrl a) (codes a) (incidentTypeGroups a) (neighborhoods a)
    (incidents a) (visibleNeighborhoodIds a) x (loadError a) (filters a)
    (newIncident a) (newIncidentError a) (newIncidentSuccess a).
Definition set_loadError (x : string) (a : App) : App :=
  mkApp (baseApiUrl a) (codes a) (incidentTypeGroups a) (neighborhoods a)
    (incidents a) (visibleNeighborhoodIds a) (isLoadingCrimes a) x (filters a)
    (newIncident a) (newIncidentError a) (newIncidentSuccess a).
Definition set_newIncidentError (x : string) (a : App) : App :=
  mkApp (baseApiUrl a) (codes a) (incidentTypeGroups a) (neighborhoods a)
    (incidents a) (visibleNeighborhoodIds a) (isLoadingCrimes a) (loadError a)
    (filters a) (newIncident a) x (newIncidentSuccess a).
Definition set_newIncidentSuccess (x : string) (a : App) : App :=
  mkApp (baseApiUrl a) (codes a) (incidentTypeGroups a) (neighborhoods a)
    (incidents a) (visibleNeighborhoodIds a) (isLoadingCrimes a) (loadError a)
    (filters a) (newIncident a) (newIncidentError a) x.

(** ** The remote services *)

(** What a [fetch] gives: a successful response with its parsed body, a
    response whose [ok] is false with its text, or a rejection (network
    failure, unparsable body) with the message of the error. *)
Inductive reply (A : Type) : Type :=
  | Ok (body : A)
  | NotOk (text : string)
  | Failed (message : string).
Arguments Ok {A} body.
Arguments NotOk {A} text.
Arguments Failed {A} message.

(** A value handed to [URLSearchParams.set]: a number on its way through
    [String], or a string. *)
Inductive pvalue : Type :=
  | PNum (n : number)
  | PStr (s : string).

Definition params := list (string * pvalue).

(** [params.set(k, v)] on a list that holds each key once. *)
Definition params_set (ps : params) (k : string) (v : pvalue) : params :=
  JsMap.set ps k v.
Definition params_get (ps : params) (k : string) : option pvalue :=
  JsMap.get ps k.

Inductive request : Type :=
  | GetCodes (base : string)
  | GetIncidents (base : string) (query : params)
  | PutNewIncident (base : string) (body : Payload.t)
  | GetGeocode (q : string).

(** The replies of the REST backend and of the geocoding service.  A hit of
    the geocoder carries [parseFloat] of its [lat] and [lon]. *)
Record services := mkServices {
  codesService : string -> reply (list Code.t);
  incidentsService : string -> params -> reply (list Row.t);
  newIncidentService : string -> Payload.t -> reply unit;
  geocodeService : string -> reply (list LatLng.t) }.

(** What a function that may throw gives back. *)
Inductive outcome (A : Type) : Type :=
  | Returned (a : A)
  | Thrown (message : string).
Arguments Returned {A} a.
Arguments Thrown {A} message.

(** ** Viewport: [clampLatLng] *)
Module Bounds.
(** [map.bounds], the bounding box of St. Paul. *)
Definition nw : LatLng.t :=
  LatLng.mk (Fin (45008206 # 1000000)) (Fin (-93217977 # 1000000)).
Definition se : LatLng.t :=
  LatLng.mk (Fin (44883658 # 1000000)) (Fin (-92993787 # 1000000)).
End Bounds.

Definition clampLatLng (lat lng : number) : LatLng.t :=
  let minLat := LatLng.lat Bounds.se in
  let maxLat := LatLng.lat Bounds.nw in
  let minLng := LatLng.lng Bounds.nw in
  let maxLng := LatLng.lng Bounds.se in
  let clampedLat := Num.min (Num.max lat minLat) maxLat in
  let clampedLng := Num.min (Num.max lng minLng) maxLng in
  LatLng.mk clampedLat clampedLng.

(** ** Dataset loader: [loadCodes] *)
Section LoadCodes.
(** [String.prototype.localeCompare]: the collation of the host locale. *)
Variable localeCompare : string -> string -> Z.

(** The body of the [for] loop that fills [groupsMap]. *)
Definition addCode (groupsMap : JsMap.t string Group.t) (c : Code.t)
  : JsMap.t string Group.t :=
  let groupsMap :=
    if JsMap.has groupsMap (Code.type c) then groupsMap
    else JsMap.set groupsMap (Code.type c) (Group.mk (Code.type c) [] true) in
  JsMap.update (Group.push (Code.code c)) groupsMap (Code.type c).

Definition buildGroups (data : list Code.t) : list Group.t :=
  let groupsMap := foldl addCode JsMap.empty data in
  Js.sort (fun a b => localeCompare (Group.type a) (Group.type b))
    (JsMap.values groupsMap).

Definition loadCodes (net : services) (st : App) : outcome App * list request :=
  let req := GetCodes (baseApiUrl st) in
  match codesService net (baseApiUrl st) with
  | Ok data =>
      (Returned (set_incidentTypeGroups (buildGroups data) (set_codes data st)),
       [req])
  | NotOk _ => (Thrown "Failed to load crime codes", [req])
  | Failed message => (Thrown message, [req])
  end.
End LoadCodes.

(** ** Neighborhood aggregator *)
Definition String_of_nat (n : nat) : string := NilEmpty.string_of_uint (Nat.to_uint n).

(** The popup text of a neighborhood. *)
Definition popupText (name : string) (crimes : nat) : string :=
  name +:+ ": " +:+ String_of_nat crimes +:+ " crime" +:+
  (if Nat.eqb crimes 1 then "" else "s").

(** The first loop: every neighborhood id starts at zero. *)
Definition zeroCounts (nbs : list Neighborhood.t) : JsMap.t Z nat :=
  foldl (fun counts n => JsMap.set counts (Neighborhood.id n) 0%nat) JsMap.empty nbs.

(** The body of the second loop. *)
Definition countCrime (counts : JsMap.t Z nat) (crime : Incident.t) : JsMap.t Z nat :=
  let k := Incident.neighborhood_number crime in
  if JsMap.has counts k
  then JsMap.set counts k (default 0%nat (JsMap.get counts k) + 1)%nat
  else counts.

Definition crimeCounts (nbs : list Neighborhood.t) (incs : list Incident.t)
  : JsMap.t Z nat :=
  foldl countCrime (zeroCounts nbs) incs.

(** The body of the final [forEach]. *)
Definition recount (counts : JsMap.t Z nat) (n : Neighborhood.t) : Neighborhood.t :=
  let crimes := default 0%nat (JsMap.get counts (Neighborhood.id n)) in
  Neighborhood.mk (Neighborhood.id n) (Neighborhood.name n)
    (Neighborhood.lat n) (Neighborhood.lng n)
    (match Neighborhood.marker n with
     | Some _ => Some (popupText (Neighborhood.name n) crimes)
     | None => None
     end)
    crimes (Neighborhood.selected n).

Definition updateNeighborhoodCountsFromIncidents (st : App) : App :=
  let counts := crimeCounts (neighborhoods st) (incidents st) in
  set_neighborhoods (map (recount counts) (neighborhoods st)) st.

(** ** Incident query engine: [fetchIncidents] *)

(** The code filter: the types of the selected groups, then the codes of
    every group of such a type, collected in a [Set] and sorted with
    [(a, b) => a - b]. *)
Definition selectedTypes (groups : list Group.t) : list string :=
  map Group.type (filter (fun g => Group.selected g = true) groups).

Definition collectCodes (types : list string) (groups : list Group.t) : list Z :=
  foldl (fun codeSet g =>
           if bool_decide (Group.type g ∈ types)
           then foldl JsSet.add codeSet (Group.codes g)
           else codeSet)
        [] groups.

Definition selectedCodes (groups : list Group.t) : list Z :=
  let types := selectedTypes groups in
  match types with
  | [] => []
  | _ => Js.sort (fun a b => a - b) (collectCodes types groups)
  end.

(** The neighborhood filter. *)
Definition selectedNeighborhoodIds (nbs : list Neighborhood.t) : list Z :=
  map Neighborhood.id (filter (fun n => Neighborhood.selected n = true) nbs).

Definition baseNeighborhoodIds (nbs : list Neighborhood.t) : list Z :=
  match selectedNeighborhoodIds nbs with
  | [] => map Neighborhood.id nbs
  | ids => ids
  end.

Definition inViewIds (nbs : list Neighborhood.t) (visible : list Z) : list Z :=
  match visible with
  | [] => baseNeighborhoodIds nbs
  | _ => filter (fun id => includesZ visible id = true) (baseNeighborhoodIds nbs)
  end.

(** The [limit] parameter, before [String]. *)
Definition limitOf (maxIncidents : number) : number :=
  if Num.gt maxIncidents (Num.of_Z 0) then maxIncidents else Num.of_Z 1000.

Definition joinZ (l : list Z) : string := Js.join "," (map Js.String_of_Z l).

(** The query parameters of [GET /incidents]. *)
Definition incidentParams (f : Filters.t) (codes ids : list Z) : params :=
  let ps : params := [] in
  let ps := params_set ps "limit" (PNum (limitOf (Filters.maxIncidents f))) in
  let ps :=
    match Filters.dateStart f with
    | EmptyString => ps
    | d => params_set ps "start_date" (PStr d)
    end in
  let ps :=
    match Filters.dateEnd f with
    | EmptyString => ps
    | d => params_set ps "end_date" (PStr d)
    end in
  let ps :=
    match codes with
    | [] => ps
    | _ => params_set ps "code" (PStr (joinZ codes))
    end in
  match ids with
  | [] => ps
  | _ => params_set ps "neighborhood" (PStr (joinZ ids))
  end.

(** The two helper maps and the enrichment of a returned row. *)
Definition codeToType (cs : list Code.t) : JsMap.t Z string :=
  foldl (fun m c => JsMap.set m (Code.code c) (Code.type c)) JsMap.empty cs.

Definition neighborhoodMap (nbs : list Neighborhood.t) : JsMap.t Z string :=
  foldl (fun m n => JsMap.set m (Neighborhood.id n) (Neighborhood.name n))
    JsMap.empty nbs.

Definition enrich (st : App) (row : Row.t) : Incident.t :=
  let incident_type := orElse (JsMap.get (codeToType (codes st)) (Row.code row)) "Unknown" in
  let neighborhood_name :=
    orElse (JsMap.get (neighborhoodMap (neighborhoods st)) (Row.neighborhood_number row))
      "Unknown" in
  Incident.mk row incident_type neighborhood_name
    (categorizeCrime incident_type (Row.incident row)).

Definition fetchIncidents (net : services) (st : App) : App * list request :=
  match baseApiUrl st with
  | EmptyString => (st, [])
  | base =>
      let st := set_loadError "" (set_isLoadingCrimes true st) in
      let codes := selectedCodes (incidentTypeGroups st) in
      let ids := inViewIds (neighborhoods st) (visibleNeighborhoodIds st) in
      match ids with
      | [] =>
          let st := updateNeighborhoodCountsFromIncidents (set_incidents [] st) in
          (set_isLoadingCrimes false st, [])
      | _ =>
          let query := incidentParams (filters st) codes ids in
          let req := GetIncidents base query in
          match incidentsService net base query with
          | Ok data =>
              let st := set_incidents (map (enrich st) data) st in
              let st := updateNeighborhoodCountsFromIncidents st in
              (set_isLoadingCrimes false st, [req])
          | NotOk text =>
              let message := orElse (Some text) "Failed to fetch incidents" in
              (set_isLoadingCrimes false (set_loadError message st), [req])
          | Failed message =>
              let message := orElse (Some message) "Failed to fetch incidents" in
              (set_isLoadingCrimes false (set_loadError message st), [req])
          end
      end
  end.

(** ** Geocode cache: [normalizeBlockAddress] and [geocodeBlock] *)

(** The match of the case-insensitive pattern of [normalizeBlockAddress]
    (from the start: digits and an X as first group, white space, then as
    second group any characters but line terminators up to the end), as the
    pair of its groups.  The digits are all the leading ones, since the
    character after them must be an X; the white space is the whole run,
    since the dot refuses a line terminator at any position, so giving back
    white space cannot turn a failure into a match. *)
Definition matchHouseNumber (addr : string) : option (string * string) :=
  let '(digits, rest) := Js.span Js.isDigit addr in
  match digits, rest with
  | String _ _, String c rest =>
      if bool_decide (c = "X"%char ∨ c = "x"%char) then
        let '(ws, tail) := Js.span Js.isWhiteSpace rest in
        match ws with
        | EmptyString => None
        | _ =>
            if Js.all (fun c => negb (Js.isLineTerminator c)) tail
            then Some (digits +:+ String c EmptyString, tail)
            else None
        end
      else None
  | _, _ => None
  end.

Definition localitySuffix : string := ", Saint Paul, MN".

Definition normalizeBlockAddress (block : string) : string :=
  let addr := Js.trim block in
  let addr :=
    match matchHouseNumber addr with
    | Some (m1, m2) =>
        let number := Js.replaceFirst "X" "0" m1 in
        number +:+ " " +:+ m2
    | None => addr
    end in
  addr +:+ localitySuffix.

(** What [geocodeBlock] resolves a block to: a coordinate, or the member
    of that name the cache object inherits (a function such as
    [constructor] or [toString], which is no coordinate). *)
Inductive resolved : Type :=
  | Coordinate (c : LatLng.t)
  | Member (name : string).

Section Geocode.
(** Whether a plain object gives a value, and then a truthy one, for a name
    it holds no entry under: the names of the members of [Object.prototype],
    which the host fixes. *)
Variable inherited : string -> bool.

(** [geocodeCache[block]]: the entry of the cache, which goes before an
    inherited member of the same name, or [None] for [undefined]. *)
Definition cacheRead (geocodeCache : gmap string LatLng.t) (block : string)
  : option resolved :=
  match geocodeCache !! block with
  | Some hit => Some (Coordinate hit)
  | None => if inherited block then Some (Member block) else None
  end.

(** [geocodeBlock], on the cache it reads and writes. *)
Definition geocodeBlock (net : services) (geocodeCache : gmap string LatLng.t)
  (block : string) : option resolved * gmap string LatLng.t * list request :=
  match block with
  | EmptyString => (None, geocodeCache, [])
  | _ =>
      match cacheRead geocodeCache block with
      | Some found => (Some found, geocodeCache, [])
      | None =>
          let query := normalizeBlockAddress block in
          let req := GetGeocode query in
          match geocodeService net query with
          | Ok (first :: _) =>
              let clamped := clampLatLng (LatLng.lat first) (LatLng.lng first) in
              (Some (Coordinate clamped), <[block := clamped]> geocodeCache, [req])
          | _ => (None, geocodeCache, [req])
          end
      end
  end.
End Geocode.

(** ** Form controller: [submitNewIncident] *)
Section Submit.
(** [Number] applied to a string: the numeric-literal grammar of the
    language. *)
Variable StringToNumber : string -> number.

(** [Number(v)]. *)
Definition Number (v : value) : number :=
  match v with
  | VNum n => n
  | VStr s => StringToNumber s
  end.

(** [!String(v).trim()]: the text of a number is never blank. *)
Definition isBlank (v : value) : bool :=
  match v with
  | VNum _ => false
  | VStr s => bool_decide (Js.trim s = "")
  end.

(** [requiredFields], read off the form in order. *)
Definition requiredFields (f : Form.t) : list value :=
  [ VStr (Form.case_number f); VStr (Form.date f); VStr (Form.time f);
    Form.code f; VStr (Form.incident f); Form.police_grid f;
    Form.neighborhood_number f; VStr (Form.block f) ].

Definition payloadOf (f : Form.t) : Payload.t :=
  Payload.mk (Js.trim (Form.case_number f)) (Form.date f) (Form.time f)
    (Number (Form.code f)) (Js.trim (Form.incident f))
    (Number (Form.police_grid f)) (Number (Form.neighborhood_number f))
    (Js.trim (Form.block f)).

Definition submitNewIncident (net : services) (st : App) : App * list request :=
  let st := set_newIncidentSuccess "" (set_newIncidentError "" st) in
  match baseApiUrl st with
  | EmptyString => (set_newIncidentError "Enter REST API URL first." st, [])
  | base =>
      if existsb isBlank (requiredFields (newIncident st))
      then (set_newIncidentError "All fields are required." st, [])
      else
        let payload := payloadOf (newIncident st) in
        let req := PutNewIncident base payload in
        match newIncidentService net base payload with
        | Ok _ =>
            let st := set_newIncidentSuccess "Incident successfully added." st in
            let '(st, reqs) := fetchIncidents net st in
            (st, req :: reqs)
        | NotOk text =>
            let message := orElse (Some text) "Failed to add incident" in
            (set_newIncidentError (orElse (Some message) "Failed to add incident.") st,
             [req])
        | Failed message =>
            (set_newIncidentError (orElse (Some message) "Failed to add incident.") st,
             [req])
        end
  end.
End Submit.

(** ** The rest of the component *)

Definition set_baseApiUrl (x : string) (a : App) : App :=
  mkApp x (codes a) (incidentTypeGroups a) (neighborhoods a) (incidents a)
    (visibleNeighborhoodIds a) (isLoadingCrimes a) (loadError a) (filters a)
    (newIncident a) (newIncidentError a) (newIncidentSuccess a).
Definition set_visibleNeighborhoodIds (x : list Z) (a : App) : App :=
  mkApp (baseApiUrl a) (codes a) (incidentTypeGroups a) (neighborhoods a)
    (incidents a) x (isLoadingCrimes a) (loadError a) (filters a)
    (newIncident a) (newIncidentError a) (newIncidentSuccess a).

Module NeighborhoodRow.
(** A neighborhood as the backend returns it. *)
Record t := mk { id : Z; name : string }.
End NeighborhoodRow.

Module Viewport.
(** What [getBounds] of the Leaflet map gives: the edges of the view. *)
Record t := mk { north : number; south : number; west : number; east : number }.
End Viewport.

Module MapState.
(** The [map] object: the Leaflet map, known by the bounds of its view and
    absent before the component is mounted, and the center. *)
Record t := mk { leaflet : option Viewport.t; center : LatLng.t }.
End MapState.

(** The REST endpoints [services] does not hold. *)
Record backend := mkBackend {
  rest : services;
  neighborhoodsService : string -> reply (list NeighborhoodRow.t);
  removeIncidentService : string -> string -> reply unit }.

(** A request of the whole component. *)
Inductive call : Type :=
  | Rest (r : request)
  | GetNeighborhoods (base : string)
  | DeleteIncident (base : string) (case_number : string).

(** [a <= b] of the language; false as soon as one side is NaN. *)
Definition leq (a b : number) : bool :=
  match a, b with
  | NaN, _ | _, NaN => false
  | _, _ => negb (Num.lt b a)
  end.

(** [neighborhoodMarkerCoords]. *)
Definition neighborhoodMarkerCoords : list (number * number) :=
  [ (Fin (44942068 # 1000000), Fin (-93020521 # 1000000));
    (Fin (44977413 # 1000000), Fin (-93025156 # 1000000));
    (Fin (44931244 # 1000000), Fin (-93079578 # 1000000));
    (Fin (44956192 # 1000000), Fin (-93060189 # 1000000));
    (Fin (44978883 # 1000000), Fin (-93068163 # 1000000));
    (Fin (44975766 # 1000000), Fin (-93113887 # 1000000));
    (Fin (44959639 # 1000000), Fin (-93121271 # 1000000));
    (Fin (44947700 # 1000000), Fin (-93128505 # 1000000));
    (Fin (44930276 # 1000000), Fin (-93119911 # 1000000));
    (Fin (44982752 # 1000000), Fin (-93147910 # 1000000));
    (Fin (44963631 # 1000000), Fin (-93167548 # 1000000));
    (Fin (44973971 # 1000000), Fin (-93197965 # 1000000));
    (Fin (44949043 # 1000000), Fin (-93178261 # 1000000));
    (Fin (44934848 # 1000000), Fin (-93176736 # 1000000));
    (Fin (44913106 # 1000000), Fin (-93170779 # 1000000));
    (Fin (44937705 # 1000000), Fin (-93136997 # 1000000));
    (Fin (44949203 # 1000000), Fin (-93093739 # 1000000)) ].

(** The callback of [data.map] in [loadNeighborhoods]. *)
Definition placeNeighborhood (m : MapState.t) (idx : nat) (n : NeighborhoodRow.t)
  : Neighborhood.t :=
  let coords :=
    default (LatLng.lat (MapState.center m), LatLng.lng (MapState.center m))
      (neighborhoodMarkerCoords !! idx) in
  let marker :=
    match MapState.leaflet m with
    | Some _ => Some (NeighborhoodRow.name n +:+ ": 0 crimes")
    | None => None
    end in
  Neighborhood.mk (NeighborhoodRow.id n) (NeighborhoodRow.name n)
    coords.1 coords.2 marker 0 true.

Definition loadNeighborhoods (env : backend) (m : MapState.t) (st : App)
  : outcome App * list call :=
  let req := GetNeighborhoods (baseApiUrl st) in
  match neighborhoodsService env (baseApiUrl st) with
  | Ok data => (Returned (set_neighborhoods (imap (placeNeighborhood m) data) st), [req])
  | NotOk _ => (Thrown "Failed to load neighborhoods", [req])
  | Failed message => (Thrown message, [req])
  end.

(** The test of the filter in [updateVisibleNeighborhoods]. *)
Definition inView (b : Viewport.t) (n : Neighborhood.t) : bool :=
  leq (Neighborhood.lat n) (Viewport.north b) &&
  leq (Viewport.south b) (Neighborhood.lat n) &&
  leq (Viewport.west b) (Neighborhood.lng n) &&
  leq (Neighborhood.lng n) (Viewport.east b).

Definition updateVisibleNeighborhoods (m : MapState.t) (st : App) : App :=
  match MapState.leaflet m, neighborhoods st with
  | None, _ | _, [] => st
  | Some bounds, nbs =>
      set_visibleNeighborhoodIds
        (map Neighborhood.id (filter (fun n => inView bounds n = true) nbs)) st
  end.

(** What replacing the match of a final run of slashes by nothing leaves. *)
Fixpoint stripTrailingSlashes (s : string) : string :=
  match s with
  | EmptyString => EmptyString
  | String c s' =>
      match stripTrailingSlashes s' with
      | EmptyString => if ascii_dec c "/" then EmptyString else String c EmptyString
      | t => String c t
      end
  end.

Definition initError : string :=
  "Failed to load codes/neighborhoods/incidents. Check REST API URL and server.".

Section Initialize.
Variable localeCompare : string -> string -> Z.

(** [initializeCrimes], given the text of the URL field. *)
Definition initializeCrimes (env : backend) (m : MapState.t) (crime_url : string)
  (st : App) : App * list call :=
  let st := set_isLoadingCrimes false (set_loadError "" st) in
  match Js.trim crime_url with
  | EmptyString => (set_loadError "You must enter a valid REST API URL." st, [])
  | trimmed =>
      let st := set_baseApiUrl (stripTrailingSlashes trimmed) st in
      match loadCodes localeCompare (rest env) st with
      | (Thrown _, reqs1) => (set_loadError initError st, map Rest reqs1)
      | (Returned st, reqs1) =>
          match loadNeighborhoods env m st with
          | (Thrown _, reqs2) => (set_loadError initError st, map Rest reqs1 ++ reqs2)
          | (Returned st, reqs2) =>
              let st := updateVisibleNeighborhoods m st in
              let '(st, reqs3) := fetchIncidents (rest env) st in
              (st, map Rest reqs1 ++ reqs2 ++ map Rest reqs3)
          end
      end
  end.
End Initialize.

(** The state around [App] that selection and deletion work on: the
    selected case, the position of the marker of the selected incident, and
    the geocode cache.  The view and the popup of the Leaflet map are left
    to Leaflet. *)
Record Ui := mkUi {
  app : App;
  selectedCaseNumber : option string;
  selectedIncidentMarker : option LatLng.t;
  geocodeCache : gmap string LatLng.t }.

Definition Incident_case_number (i : Incident.t) : string :=
  Row.case_number (Incident.row i).
Definition Incident_block (i : Incident.t) : string :=
  Row.block (Incident.row i).

(** [deleteIncident], given the answer to [confirm]; the third component is
    the list of alerts shown. *)
Definition deleteIncident (env : backend) (confirmation : bool)
  (incident : Incident.t) (ui : Ui) : Ui * list call * list string :=
  match baseApiUrl (app ui) with
  | EmptyString => (ui, [], [])
  | base =>
      if negb confirmation then (ui, [], [])
      else
        let req := DeleteIncident base (Incident_case_number incident) in
        match removeIncidentService env base (Incident_case_number incident) with
        | Ok _ =>
            let ui :=
              if decide (selectedCaseNumber ui = Some (Incident_case_number incident))
              then mkUi (app ui) None None (geocodeCache ui)
              else ui in
            let '(st, reqs) := fetchIncidents (rest env) (app ui) in
            (mkUi st (selectedCaseNumber ui) (selectedIncidentMarker ui) (geocodeCache ui),
             req :: map Rest reqs, [])
        | NotOk text =>
            let message := orElse (Some text) "Failed to delete incident" in
            (ui, [req], [orElse (Some message) "Failed to delete incident."])
        | Failed message =>
            (ui, [req], [orElse (Some message) "Failed to delete incident."])
        end
  end.

Module Leaflet.
(** The coordinate [L.marker] and [setLatLng] make of the two-element array
    they are given: Leaflet throws an error when the latitude or the
    longitude is [undefined] ([None]) or NaN. *)
Definition latLng (lat lng : option number) : option LatLng.t :=
  match lat, lng with
  | Some a, Some b =>
      if Num.isNaN a || Num.isNaN b then None else Some (LatLng.mk a b)
  | _, _ => None
  end.
End Leaflet.

(** [coords.lat] and [coords.lng]: a member inherited from
    [Object.prototype] has neither property. *)
Definition latOf (coords : resolved) : option number :=
  match coords with
  | Coordinate c => Some (LatLng.lat c)
  | Member _ => None
  end.
Definition lngOf (coords : resolved) : option number :=
  match coords with
  | Coordinate c => Some (LatLng.lng c)
  | Member _ => None
  end.

(** How a run of [selectIncident] ends: it returns, having shown these
    alerts, or Leaflet throws on the latitude and longitude it was handed
    and the promise is rejected. *)
Inductive completion : Type :=
  | Completed (alerts : list string)
  | InvalidLatLng (lat lng : option number).

Section Select.
Variable inherited : string -> bool.

(** [selectIncident], as far as the selection, the marker and the cache
    go.  Both [L.marker] and [setLatLng] pass the array through
    [Leaflet.latLng] before anything is assigned. *)
Definition selectIncident (env : backend) (m : MapState.t) (incident : Incident.t)
  (ui : Ui) : Ui * list call * completion :=
  let selected := Some (Incident_case_number incident) in
  match MapState.leaflet m with
  | None =>
      (mkUi (app ui) selected (selectedIncidentMarker ui) (geocodeCache ui), [],
       Completed [])
  | Some _ =>
      let '(coords, cache, reqs) :=
        geocodeBlock inherited (rest env) (geocodeCache ui) (Incident_block incident) in
      match coords with
      | None =>
          (mkUi (app ui) selected (selectedIncidentMarker ui) cache, map Rest reqs,
           Completed ["Could not determine exact location for this incident."])
      | Some coords =>
          match Leaflet.latLng (latOf coords) (lngOf coords) with
          | Some position =>
              (mkUi (app ui) selected (Some position) cache, map Rest reqs, Completed [])
          | None =>
              (mkUi (app ui) selected (selectedIncidentMarker ui) cache, map Rest reqs,
               InvalidLatLng (latOf coords) (lngOf coords))
          end
      end
  end.
End Select.

(** ** Vocabulary of the statements *)

(** [k] occurs in [s] as a substring. *)
Definition Occurs (k s : string) : Prop :=
  exists pre post : string, s = pre +:+ k +:+ post.

(** The first character of [s], if any, fails [p]. *)
Definition stops (p : ascii -> bool) (s : string) : Prop :=
  match s with
  | EmptyString => True
  | String c _ => p c = false
  end.

(** Under the comparator [cmp], [a] may stand before [b]. *)
Definition before {A : Type} (cmp : A -> A -> Z) (a b : A) : Prop := cmp a b <= 0.

(** [n] is a positive integer. *)
Definition isPositiveInteger (n : number) : Prop :=
  match n with
  | Fin q => exists z : Z, 0 < z /\ Qeq q (inject_Z z)
  | _ => False
  end.

(** The codes of the entries of type [t], in the order of the list. *)
Definition codesOfType (data : list Code.t) (t : string) : list Z :=
  map Code.code (filter (fun c => Code.type c = t) data).

(** The group [loadCodes] makes for the type [t]. *)
Definition groupOf (data : list Code.t) (t : string) : Group.t :=
  Group.mk t (codesOfType data t) true.

(** The field value [v] is empty once turned into text and trimmed. *)
Definition emptyAfterTrim (v : value) : Prop :=
  match v with
  | VNum _ => False
  | VStr s => Js.trim s = ""
  end.

(** One of the eight fields of the form is empty after trimming. *)
Definition someFieldEmpty (f : Form.t) : Prop :=
  Js.trim (Form.case_number f) = "" \/ Js.trim (Form.date f) = "" \/
  Js.trim (Form.time f) = "" \/ emptyAfterTrim (Form.code f) \/
  Js.trim (Form.incident f) = "" \/ emptyAfterTrim (Form.police_grid f) \/
  emptyAfterTrim (Form.neighborhood_number f) \/ Js.trim (Form.block f) = "".

(** The state [submitNewIncident] works on, both messages cleared. *)
Definition cleared (st : App) : App :=
  set_newIncidentSuccess "" (set_newIncidentError "" st).

(** The number of incidents of neighborhood [k]. *)
Definition matching (incs : list Incident.t) (k : Z) : nat :=
  length (filter (fun i => Incident.neighborhood_number i = k) incs).

(** The incidents whose neighborhood is one of [nbs]. *)
Definition known (nbs : list Neighborhood.t) (incs : list Incident.t)
  : list Incident.t :=
  filter (fun i => Incident.neighborhood_number i ∈ map Neighborhood.id nbs) incs.

(** The display label of a neighborhood with [count] incidents. *)
Definition label (name : string) (count : nat) : string :=
  if decide (count = 1%nat) then name +:+ ": 1 crime"
  else name +:+ ": " +:+ String_of_nat count +:+ " crimes".

(** [n'] is [n] with its count and the text of its popup recomputed from
    [incs]; a neighborhood without marker has no popup to relabel. *)
Definition recounted (incs : list Incident.t) (n n' : Neighborhood.t) : Prop :=
  Neighborhood.id n' = Neighborhood.id n /\
  Neighborhood.name n' = Neighborhood.name n /\
  Neighborhood.lat n' = Neighborhood.lat n /\
  Neighborhood.lng n' = Neighborhood.lng n /\
  Neighborhood.selected n' = Neighborhood.selected n /\
  Neighborhood.crimes n' = matching incs (Neighborhood.id n) /\
  Neighborhood.marker n' =
    match Neighborhood.marker n with
    | Some _ => Some (label (Neighborhood.name n) (matching incs (Neighborhood.id n)))
    | None => None
    end.

(** The property keywords that can decide a category: "robbery" is a
    violent keyword, and the two phrases contain another keyword. *)
Definition decidingPropertyKeywords : list string :=
  [ "burglary"; "theft"; "arson"; "vandalism"; "property"; "shoplifting";
    "stolen"; "fraud"; "forgery" ].

(** The coordinate [c] lies in the bounding box of St. Paul. *)
Definition insideBox (c : LatLng.t) : Prop :=
  Num.le (LatLng.lat Bounds.se) (LatLng.lat c) /\
  Num.le (LatLng.lat c) (LatLng.lat Bounds.nw) /\
  Num.le (LatLng.lng Bounds.nw) (LatLng.lng c) /\
  Num.le (LatLng.lng c) (LatLng.lng Bounds.se).

(** Every neighborhood shows the number of the current incidents that bear
    its id. *)
Definition Consistent (st : App) : Prop :=
  Forall (fun n => Neighborhood.crimes n = matching (incidents st) (Neighborhood.id n))
    (neighborhoods st).

(** [fetchIncidents] is past its guards: a base URL is set and some
    neighborhood is asked for. *)
Definition queries (st : App) : Prop :=
  baseApiUrl st <> "" /\
  inViewIds (neighborhoods st) (visibleNeighborhoodIds st) <> [].

(** The last entry of [cs] that bears the code [k]. *)
Definition lastCode (cs : list Code.t) (k : Z) : option Code.t :=
  last (filter (fun c => Code.code c = k) cs).

(** The last neighborhood of [nbs] that bears the id [k]. *)
Definition lastNeighborhood (nbs : list Neighborhood.t) (k : Z) : option Neighborhood.t :=
  last (filter (fun n => Neighborhood.id n = k) nbs).

(** What identifies a neighborhood and places it in the filter: all of it
    but the count and the popup. *)
Definition identity (n : Neighborhood.t) : Z * string * number * number * bool :=
  (Neighborhood.id n, Neighborhood.name n, Neighborhood.lat n, Neighborhood.lng n,
   Neighborhood.selected n).

(** [st'] has the settings of [st]: the base URL, the codes and their
    groups with their selection, the neighborhoods with their selection, the
    visible ids, the filters and the form. *)
Definition sameSettings (st st' : App) : Prop :=
  baseApiUrl st' = baseApiUrl st /\ codes st' = codes st /\
  incidentTypeGroups st' = incidentTypeGroups st /\
  map identity (neighborhoods st') = map identity (neighborhoods st) /\
  visibleNeighborhoodIds st' = visibleNeighborhoodIds st /\
  filters st' = filters st /\ newIncident st' = newIncident st.

(** The marker of [n] lies in the view [b], edges included. *)
Definition within (b : Viewport.t) (n : Neighborhood.t) : Prop :=
  Num.le (Neighborhood.lat n) (Viewport.north b) /\
  Num.le (Viewport.south b) (Neighborhood.lat n) /\
  Num.le (Viewport.west b) (Neighborhood.lng n) /\
  Num.le (Neighborhood.lng n) (Viewport.east b).

#[global] Instance le_dec (a b : number) : Decision (Num.le a b).
Proof.
  unfold Decision. destruct a as [| |x|], b as [| |y|]; simpl;
    try (left; exact I); try (right; exact (fun H : False => H)).
  destruct (Qle_bool x y) eqn:E.
  - left. now apply Qle_bool_iff.
  - right. intros H. apply Qle_bool_iff in H. congruence.
Defined.

#[global] Instance within_dec (b : Viewport.t) (n : Neighborhood.t) : Decision (within b n).
Proof. unfold within. apply _. Defined.

(** Where the marker of [n] is. *)
Definition position (n : Neighborhood.t) : LatLng.t :=
  LatLng.mk (Neighborhood.lat n) (Neighborhood.lng n).

(** [st'] is [st] but for the list of visible ids, which is [ids]. *)
Definition sameButVisible (ids : list Z) (st st' : App) : Prop :=
  visibleNeighborhoodIds st' = ids /\
  baseApiUrl st' = baseApiUrl st /\ codes st' = codes st /\
  incidentTypeGroups st' = incidentTypeGroups st /\
  neighborhoods st' = neighborhoods st /\ incidents st' = incidents st /\
  isLoadingCrimes st' = isLoadingCrimes st /\ loadError st' = loadError st /\
  filters st' = filters st /\ newIncident st' = newIncident st /\
  newIncidentError st' = newIncidentError st /\
  newIncidentSuccess st' = newIncidentSuccess st.

(** Every coordinate the cache holds lies in the bounding box. *)
Definition cacheInBox (cache : gmap string LatLng.t) : Prop :=
  forall k c, cache !! k = Some c -> insideBox c.

(** The first hit the geocoder gives for [q], if any, has numbers as
    coordinates. *)
Definition numericHit (net : services) (q : string) : Prop :=
  forall hit others, geocodeService net q = Ok (hit :: others) ->
    LatLng.lat hit <> NaN /\ LatLng.lng hit <> NaN.

(** [s] ends in a slash. *)
Definition endsInSlash (s : string) : Prop := exists pre, s = pre +:+ "/".

(** The text [s] is not empty and has no white space at either end. *)
Definition trimmedText (s : string) : Prop := s <> "" /\ Js.trim s = s.

(** The base URL a request of the backend goes to; the geocoder has its
    own. *)
Definition callBase (c : call) : option string :=
  match c with
  | Rest (GetCodes base) | Rest (GetIncidents base _) | Rest (PutNewIncident base _)
  | GetNeighborhoods base | DeleteIncident base _ => Some base
  | Rest (GetGeocode _) => None
  end.

(** [c] is a query for incidents. *)
Definition isIncidentQuery (c : call) : Prop :=
  match c with
  | Rest (GetIncidents _ _) => True
  | _ => False
  end.

(** The cache and the marker of the selected incident hold coordinates of
    the bounding box only. *)
Definition UiInBox (ui : Ui) : Prop :=
  cacheInBox (geocodeCache ui) /\
  forall c, selectedIncidentMarker ui = Some c -> insideBox c.

(** ** Sample data *)
Module Sample.
Definition base : string := "http://localhost:8000".

Definition neighborhood (id : Z) (name : string) (selected : bool) : Neighborhood.t :=
  Neighborhood.mk id name (Fin (4495 # 100)) (Fin (-9310 # 100))
    (Some (name +:+ ": 0 crimes")) 0 selected.

Definition row (neighborhood_number : Z) : Row.t :=
  Row.mk "24000001" "2024-01-01" "12:00:00" 600 (Some "Theft") 87
    neighborhood_number "98X UNIVERSITY AV W".

Definition incident (neighborhood_number : Z) : Incident.t :=
  Incident.mk (row neighborhood_number) "Theft" "A" property.

Definition form : Form.t :=
  Form.mk "24000001" "2024-01-01" "12:00" (VNum (Num.of_Z 600)) " Theft "
    (VNum (Num.of_Z 87)) (VNum (Num.of_Z 1)) "98X UNIVERSITY AV W".

Definition emptyForm : Form.t :=
  Form.mk "" "" "" (VStr "") "" (VStr "") (VStr "") "".

Definition app (baseApiUrl : string) (nbs : list Neighborhood.t)
  (incs : list Incident.t) (visible : list Z) (maxIncidents : number)
  (f : Form.t) : App :=
  mkApp baseApiUrl [Code.mk 600 "Theft"] [Group.mk "Theft" [600] true] nbs incs
    visible false "" (Filters.mk "" "" maxIncidents) f "" "".

(** A backend that answers every request with success and no data. *)
Definition quiet : services :=
  mkServices (fun _ => Ok []) (fun _ _ => Ok []) (fun _ _ => Ok tt) (fun _ => Ok []).

(** A collation: the order of the character codes. *)
Definition codeUnitCompare (a b : string) : Z :=
  match String.compare a b with Lt => -1 | Eq => 0 | Gt => 1 end.

(** [StringToNumber] on the texts the samples use. *)
(** The names of the members of [Object.prototype] in the language
    standard, the legacy accessors included. *)
Definition objectMembers (name : string) : bool :=
  bool_decide (name ∈ [ "constructor"; "hasOwnProperty"; "isPrototypeOf";
                        "propertyIsEnumerable"; "toLocaleString"; "toString";
                        "valueOf"; "__proto__"; "__defineGetter__";
                        "__defineSetter__"; "__lookupGetter__"; "__lookupSetter__" ]).

Definition toNumber (s : string) : number :=
  if decide (Js.trim s = "") then Num.of_Z 0 else NaN.
End Sample.

(** ** More sample data *)
Module Demo.
Definition codes : list Code.t :=
  [Code.mk 600 "Theft"; Code.mk 110 "Murder"; Code.mk 600 "Larceny"].

Definition rows : list NeighborhoodRow.t :=
  [NeighborhoodRow.mk 1 "Conway"; NeighborhoodRow.mk 2 "Greater East Side"].

Definition center : LatLng.t :=
  LatLng.mk (Fin (44955139 # 1000000)) (Fin (-93102222 # 1000000)).

(** A view over the whole bounding box. *)
Definition wide : Viewport.t :=
  Viewport.mk (LatLng.lat Bounds.nw) (LatLng.lat Bounds.se)
    (LatLng.lng Bounds.nw) (LatLng.lng Bounds.se).

(** A view over the east end of the box, where only the first two markers
    are. *)
Definition east : Viewport.t :=
  Viewport.mk (LatLng.lat Bounds.nw) (LatLng.lat Bounds.se)
    (Fin (-9305 # 100)) (LatLng.lng Bounds.se).

(** A view that holds no marker. *)
Definition corner : Viewport.t :=
  Viewport.mk (Fin (4489 # 100)) (LatLng.lat Bounds.se)
    (LatLng.lng Bounds.nw) (Fin (-9321 # 100)).

Definition mounted (v : Viewport.t) : MapState.t := MapState.mk (Some v) center.
Definition unmounted : MapState.t := MapState.mk None center.

(** A backend that knows [codes] and [rows], has no incident and accepts
    every change. *)
Definition env : backend :=
  mkBackend
    (mkServices (fun _ => Ok codes) (fun _ _ => Ok []) (fun _ _ => Ok tt)
       (fun _ => Ok [LatLng.mk (Fin (4495 # 100)) (Fin (-9310 # 100))]))
    (fun _ => Ok rows) (fun _ _ => Ok tt).

(** A backend that is down. *)
Definition down : backend :=
  mkBackend
    (mkServices (fun _ => Failed "Failed to fetch") (fun _ _ => Failed "Failed to fetch")
       (fun _ _ => Failed "Failed to fetch") (fun _ => Failed "Failed to fetch"))
    (fun _ => Failed "Failed to fetch") (fun _ _ => Failed "Failed to fetch").

(** The state before a URL is given. *)
Definition fresh : App :=
  mkApp "" [] [] [] [] [] false "" (Filters.mk "" "" (Num.of_Z 1000))
    Sample.emptyForm "" "".

Definition ui (st : App) : Ui := mkUi st None None ∅.
End Demo.

(* ================================================================== *)
(** * Part II: properties *)
(* ================================================================== *)

(** ** Strings *)
Section StringFacts.

Lemma app_String c (a b : string) : String c a +:+ b = String c (a +:+ b).
Proof. reflexivity. Qed.

Lemma app_empty_r (a : string) : a +:+ "" = a.
Proof. induction a as [|c a IH]; [reflexivity|]. now rewrite app_String, IH. Qed.

Lemma app_assoc_s (a b c : string) : (a +:+ b) +:+ c = a +:+ b +:+ c.
Proof. induction a as [|x a IH]; [reflexivity|]. now rewrite !app_String, IH. Qed.

Lemma startsWith_spec k s :
Js.startsWith k s = true <-> exists post, s = k +:+ post.
Proof.
revert s. induction k as [|a k IH]; intros s; simpl.
- split; [intros _; now exists s | reflexivity].
- destruct s as [|b s].
  + split; [discriminate | intros [post H]; discriminate H].
  + destruct (ascii_dec a b) as [->|Hab].
    * rewrite IH. split; intros [post H]; exists post.
      -- now rewrite app_String, H.
      -- rewrite app_String in H. now injection H.
    * split; [discriminate|]. intros [post H]. rewrite app_String in H.
      injection H as H1 _. congruence.
Qed.

Lemma includes_spec s k : Js.includes s k = true <-> Occurs k s.
Proof.
unfold Occurs. induction s as [|c s IH]; simpl.
- rewrite orb_false_r, startsWith_spec. split.
  + intros [post H]. now exists "", post.
  + intros [[|x pre] [post H]]; [now exists post | discriminate H].
- rewrite orb_true_iff, IH, startsWith_spec. split.
  + intros [[post H] | (pre & post & H)].
    * now exists "", post.
    * exists (String c pre), post. now rewrite app_String, H.
  + intros [[|x pre] [post H]].
    * left. now exists post.
    * right. rewrite app_String in H. injection H as _ H. now exists pre, post.
Qed.

Lemma toLowerCase_app (a b : string) :
Js.toLowerCase (a +:+ b) = Js.toLowerCase a +:+ Js.toLowerCase b.
Proof. induction a as [|c a IH]; [reflexivity|]. simpl. now rewrite app_String, IH. Qed.

Lemma Occurs_toLowerCase w s : Occurs w s -> Occurs (Js.toLowerCase w) (Js.toLowerCase s).
Proof.
intros (pre & post & ->). exists (Js.toLowerCase pre), (Js.toLowerCase post).
now rewrite !toLowerCase_app.
Qed.

End StringFacts.

(** ** Categorisation *)

Lemma keyword_search text (keywords : list string) :
  existsb (fun k => Js.includes text k) keywords = true <->
  exists k, In k keywords /\ Occurs k text.
Proof.
  rewrite existsb_exists. split; intros (k & Hk & H); exists k; split; auto;
    now apply includes_spec.
Qed.

(** C1. [categorizeCrime] searches the lower-cased text made of the type, a
    space and the description.  It answers [violent] exactly when one of
    murder, manslaughter, rape, robbery, assault, kidnap, homicide, weapon,
    threat, domestic occurs in it; [property] exactly when none of those
    does and one of burglary, theft, robbery, arson, vandalism, damage to
    property, property, motor vehicle theft, shoplifting, stolen, fraud,
    forgery occurs in it; and [other] exactly when none of either list
    occurs.  A text in which "robbery" occurs, in whatever letter case, is
    therefore [violent] and never [property], whatever else occurs in it, as
    for the type "Robbery" with the description "Aggravated Robbery". *)
Theorem categorizeCrime_spec (incidentType : string) (incidentText : option string) :
  let text := Js.toLowerCase (incidentType +:+ " " +:+ default "" incidentText) in
  let oneOf (keywords : list string) := exists k, In k keywords /\ Occurs k text in
  let hasViolent :=
    oneOf [ "murder"; "manslaughter"; "rape"; "robbery"; "assault"; "kidnap";
            "homicide"; "weapon"; "threat"; "domestic" ] in
  let hasProperty :=
    oneOf [ "burglary"; "theft"; "robbery"; "arson"; "vandalism";
            "damage to property"; "property"; "motor vehicle theft";
            "shoplifting"; "stolen"; "fraud"; "forgery" ] in
  (categorizeCrime incidentType incidentText = violent <-> hasViolent) /\
  (categorizeCrime incidentType incidentText = property <->
     ~ hasViolent /\ hasProperty) /\
  (categorizeCrime incidentType incidentText = other <->
     ~ hasViolent /\ ~ hasProperty) /\
  (forall w, Js.toLowerCase w = "robbery" ->
     Occurs w (incidentType +:+ " " +:+ default "" incidentText) ->
     categorizeCrime incidentType incidentText = violent /\
     categorizeCrime incidentType incidentText <> property) /\
  categorizeCrime "Robbery" (Some "Aggravated Robbery") = violent.
Proof.
  intros text oneOf hasViolent hasProperty.
  assert (HV : existsb (fun k => Js.includes text k) violentKeywords = true <-> hasViolent)
    by apply keyword_search.
  assert (HP : existsb (fun k => Js.includes text k) propertyKeywords = true <-> hasProperty)
    by apply keyword_search.
  assert (Hcat : categorizeCrime incidentType incidentText =
                 if existsb (fun k => Js.includes text k) violentKeywords then violent
                 else if existsb (fun k => Js.includes text k) propertyKeywords
                      then property else other) by reflexivity.
  assert (Hviol : categorizeCrime incidentType incidentText = violent <-> hasViolent).
  { rewrite Hcat, <- HV.
    destruct (existsb _ violentKeywords); [tauto|].
    destruct (existsb _ propertyKeywords); split; discriminate. }
  split; [exact Hviol|]. split; [|split; [|split; [|reflexivity]]].
  - rewrite <- HV, <- HP, Hcat.
    destruct (existsb _ violentKeywords).
    + split; [discriminate | intros [Hnv _]; now elim Hnv].
    + destruct (existsb _ propertyKeywords).
      * split; [intros _; split; [discriminate | reflexivity] | reflexivity].
      * split; [discriminate | intros [_ Hp]; discriminate Hp].
  - rewrite <- HV, <- HP, Hcat.
    destruct (existsb _ violentKeywords).
    + split; [discriminate | intros [Hnv _]; now elim Hnv].
    + destruct (existsb _ propertyKeywords).
      * split; [discriminate | intros [_ Hnp]; now elim Hnp].
      * split; [intros _; split; discriminate | reflexivity].
  - intros w Hw Hocc.
    assert (Hv : categorizeCrime incidentType incidentText = violent).
    { apply Hviol. exists "robbery". split.
      - simpl. tauto.
      - rewrite <- Hw. now apply Occurs_toLowerCase. }
    split; [exact Hv | rewrite Hv; discriminate].
Qed.

Lemma categorizeCrime_spec_witness :
  categorizeCrime "Theft" (Some "ROBBERY and theft of a purse") = violent /\
  categorizeCrime "Theft" (Some "ROBBERY and theft of a purse") <> property.
Proof.
  apply (categorizeCrime_spec "Theft" (Some "ROBBERY and theft of a purse")) with (w := "ROBBERY").
  - reflexivity.
  - exists "Theft ", " and theft of a purse". reflexivity.
Defined.

(** ** Insertion-ordered maps *)
Section JsMapFacts.
Context {K V : Type} `{EqDecision K}.
Implicit Types (m : JsMap.t K V) (k : K) (v : V).

Lemma get_set m k v k' :
  JsMap.get (JsMap.set m k v) k' = if decide (k = k') then Some v else JsMap.get m k'.
Proof.
  induction m as [|[k0 v0] m IH]; simpl.
  - reflexivity.
  - destruct (decide (k0 = k)) as [->|Hne]; simpl.
    + destruct (decide (k = k')); reflexivity.
    + rewrite IH. destruct (decide (k0 = k')) as [->|]; [|reflexivity].
      destruct (decide (k = k')); congruence.
Qed.

Lemma has_get m k : JsMap.has m k = true <-> In k (JsMap.keys m).
Proof.
  unfold JsMap.has. induction m as [|[k0 v0] m IH]; simpl.
  - split; [discriminate | tauto].
  - destruct (decide (k0 = k)); [tauto|]. rewrite IH. tauto.
Qed.

Lemma get_None m k : JsMap.get m k = None <-> ~ In k (JsMap.keys m).
Proof.
  rewrite <- has_get. unfold JsMap.has.
  destruct (JsMap.get m k); split; congruence.
Qed.

Lemma keys_set m k v :
  JsMap.keys (JsMap.set m k v) =
  if JsMap.has m k then JsMap.keys m else JsMap.keys m ++ [k].
Proof.
  unfold JsMap.has. induction m as [|[k0 v0] m IH]; simpl.
  - reflexivity.
  - destruct (decide (k0 = k)) as [->|Hne]; simpl; [reflexivity|].
    rewrite IH. destruct (JsMap.get m k); reflexivity.
Qed.

Lemma get_update (f : V -> V) m k k' :
  JsMap.get (JsMap.update f m k) k' =
  if decide (k = k') then f <$> JsMap.get m k' else JsMap.get m k'.
Proof.
  induction m as [|[k0 v0] m IH]; simpl.
  - destruct (decide (k = k')); reflexivity.
  - destruct (decide (k0 = k)) as [->|Hne]; simpl.
    + destruct (decide (k = k')); reflexivity.
    + rewrite IH. destruct (decide (k0 = k')) as [->|]; [|reflexivity].
      destruct (decide (k = k')); congruence.
Qed.

Lemma keys_update (f : V -> V) m k : JsMap.keys (JsMap.update f m k) = JsMap.keys m.
Proof.
  induction m as [|[k0 v0] m IH]; simpl; [reflexivity|].
  destruct (decide (k0 = k)); simpl; [reflexivity | now rewrite IH].
Qed.

Lemma NoDup_keys_set m k v : NoDup (JsMap.keys m) -> NoDup (JsMap.keys (JsMap.set m k v)).
Proof.
  intros Hnd. rewrite keys_set. destruct (JsMap.has m k) eqn:Hhas; [assumption|].
  apply NoDup_app. repeat split; [assumption | | apply NoDup_singleton].
  intros x Hx [->|[]]%list_elem_of_In. apply list_elem_of_In, has_get in Hx. congruence.
Qed.

(** With distinct keys, the values are the lookups of the keys. *)
Lemma values_by_keys m :
  NoDup (JsMap.keys m) ->
  map Some (JsMap.values m) = map (JsMap.get m) (JsMap.keys m).
Proof.
  induction m as [|[k0 v0] m IH]; simpl; [reflexivity|].
  intros [Hnotin Hnd]%NoDup_cons. rewrite decide_True by reflexivity.
  f_equal. rewrite IH by assumption. apply map_ext_in. intros k Hk.
  destruct (decide (k0 = k)) as [->|]; [|reflexivity].
  elim Hnotin. now apply list_elem_of_In.
Qed.

Lemma in_values_get m v :
  In v (JsMap.values m) -> NoDup (JsMap.keys m) ->
  exists k, In k (JsMap.keys m) /\ JsMap.get m k = Some v.
Proof.
  intros Hin Hnd. apply (in_map Some) in Hin. rewrite values_by_keys in Hin by assumption.
  apply in_map_iff in Hin as (k & Hk & Hin). now exists k.
Qed.

Lemma get_in_values m k v : JsMap.get m k = Some v -> In v (JsMap.values m).
Proof.
  induction m as [|[k0 v0] m IH]; simpl; [discriminate|].
  destruct (decide (k0 = k)); [intros [= ->]; now left | right; auto].
Qed.
End JsMapFacts.

(** ** Neighborhood aggregator *)
Section Aggregator.
Implicit Types (nbs : list Neighborhood.t) (incs : list Incident.t)
  (counts : JsMap.t Z nat) (k : Z).

Lemma foldl_snoc {A B} (f : A -> B -> A) a l x :
  foldl f a (l ++ [x]) = f (foldl f a l) x.
Proof. now rewrite foldl_app. Qed.

Lemma zeroCounts_keys nbs k :
  In k (JsMap.keys (zeroCounts nbs)) <-> In k (map Neighborhood.id nbs).
Proof.
  unfold zeroCounts. induction nbs as [|n nbs IH] using rev_ind; [reflexivity|].
  rewrite foldl_snoc, keys_set, map_app, in_app_iff. simpl.
  destruct (JsMap.has _ _) eqn:Hhas.
  - apply has_get in Hhas. rewrite IH. split; [tauto|].
    intros [?|[<-|[]]]; [assumption | now apply IH].
  - rewrite in_app_iff, IH. reflexivity.
Qed.

Lemma zeroCounts_NoDup nbs : NoDup (JsMap.keys (zeroCounts nbs)).
Proof.
  unfold zeroCounts. induction nbs as [|n nbs IH] using rev_ind; [constructor|].
  rewrite foldl_snoc. now apply NoDup_keys_set.
Qed.

Lemma zeroCounts_get nbs k :
  JsMap.get (zeroCounts nbs) k =
  if decide (k ∈ map Neighborhood.id nbs) then Some 0%nat else None.
Proof.
  unfold zeroCounts. induction nbs as [|n nbs IH] using rev_ind.
  - reflexivity.
  - rewrite foldl_snoc, get_set, IH, map_app. simpl.
    destruct (decide (Neighborhood.id n = k)) as [<-|Hne].
    + rewrite decide_True; [reflexivity|]. apply elem_of_app. right. apply list_elem_of_singleton. reflexivity.
    + destruct (decide (k ∈ map Neighborhood.id nbs)) as [Hin|Hnot].
      * rewrite decide_True; [reflexivity|]. apply elem_of_app. now left.
      * rewrite decide_False; [reflexivity|].
        intros [?|?%list_elem_of_singleton]%elem_of_app; congruence.
Qed.

Lemma zeroCounts_keys_distinct nbs :
  NoDup (map Neighborhood.id nbs) ->
  JsMap.keys (zeroCounts nbs) = map Neighborhood.id nbs.
Proof.
  unfold zeroCounts. induction nbs as [|n nbs IH] using rev_ind; [reflexivity|].
  rewrite map_app. intros (Hnd & Hdisj & _)%NoDup_app.
  rewrite foldl_snoc, keys_set, IH by assumption.
  destruct (JsMap.has _ _) eqn:Hhas; [|reflexivity].
  apply has_get, zeroCounts_keys, list_elem_of_In in Hhas.
  elim (Hdisj _ Hhas). simpl. left.
Qed.

Lemma countCrime_keys counts i : JsMap.keys (countCrime counts i) = JsMap.keys counts.
Proof.
  unfold countCrime. destruct (JsMap.has _ _) eqn:Hhas; [|reflexivity].
  now rewrite keys_set, Hhas.
Qed.

Lemma countCrime_get counts i k :
  JsMap.get (countCrime counts i) k =
  if decide (Incident.neighborhood_number i = k)
  then S <$> JsMap.get counts k else JsMap.get counts k.
Proof.
  unfold countCrime, JsMap.has.
  destruct (decide (Incident.neighborhood_number i = k)) as [->|Hne].
  - destruct (JsMap.get counts k) as [c|] eqn:Hget.
    + rewrite get_set, decide_True by reflexivity. simpl. f_equal. lia.
    + now rewrite Hget.
  - destruct (JsMap.get counts _); [|reflexivity].
    rewrite get_set. now rewrite decide_False.
Qed.

Lemma count_keys counts incs :
  JsMap.keys (foldl countCrime counts incs) = JsMap.keys counts.
Proof.
  induction incs as [|i incs IH] using rev_ind; [reflexivity|].
  now rewrite foldl_snoc, countCrime_keys.
Qed.

Lemma matching_snoc incs i k :
  matching (incs ++ [i]) k =
  (matching incs k + if decide (Incident.neighborhood_number i = k) then 1 else 0)%nat.
Proof.
  unfold matching. rewrite filter_app, length_app. f_equal.
  rewrite filter_cons, filter_nil. destruct (decide _); reflexivity.
Qed.

Lemma count_get counts incs k :
  JsMap.get (foldl countCrime counts incs) k =
  (fun c => (c + matching incs k)%nat) <$> JsMap.get counts k.
Proof.
  induction incs as [|i incs IH] using rev_ind.
  - simpl. destruct (JsMap.get counts k); simpl; [f_equal; unfold matching; simpl; lia | reflexivity].
  - rewrite foldl_snoc, countCrime_get, IH, matching_snoc.
    destruct (decide _), (JsMap.get counts k); simpl; try reflexivity; f_equal; lia.
Qed.

Lemma crimeCounts_get nbs incs k :
  JsMap.get (crimeCounts nbs incs) k =
  if decide (k ∈ map Neighborhood.id nbs) then Some (matching incs k) else None.
Proof.
  unfold crimeCounts. rewrite count_get, zeroCounts_get.
  destruct (decide _); reflexivity.
Qed.

Lemma crimeCounts_NoDup nbs incs : NoDup (JsMap.keys (crimeCounts nbs incs)).
Proof. unfold crimeCounts. rewrite count_keys. apply zeroCounts_NoDup. Qed.

Lemma known_snoc nbs incs i :
  length (known nbs (incs ++ [i])) =
  (length (known nbs incs) +
   if decide (Incident.neighborhood_number i ∈ map Neighborhood.id nbs)
   then 1 else 0)%nat.
Proof.
  unfold known. rewrite filter_app, length_app. f_equal.
  rewrite filter_cons, filter_nil. destruct (decide _); reflexivity.
Qed.

(** Setting a present key to its value plus one adds one to the sum. *)
Lemma sum_values_bump counts k c :
  JsMap.get counts k = Some c ->
  list_sum (JsMap.values (JsMap.set counts k (c + 1)%nat)) =
  S (list_sum (JsMap.values counts)).
Proof.
  induction counts as [|[k0 v0] counts IH]; simpl; [discriminate|].
  destruct (decide (k0 = k)); simpl.
  - intros [= ->]. lia.
  - intros Hget. rewrite IH by assumption. lia.
Qed.

Lemma sum_zeroCounts nbs : list_sum (JsMap.values (zeroCounts nbs)) = 0%nat.
Proof.
  assert (Hall : Forall (fun v => v = 0%nat) (JsMap.values (zeroCounts nbs))).
  { apply Forall_forall. intros v Hv%list_elem_of_In.
    apply in_values_get in Hv as (k & _ & Hget); [|apply zeroCounts_NoDup].
    rewrite zeroCounts_get in Hget. destruct (decide _); congruence. }
  induction Hall as [|v l -> _ IH]; simpl; [reflexivity | assumption].
Qed.

Lemma sum_crimeCounts nbs incs :
  list_sum (JsMap.values (crimeCounts nbs incs)) = length (known nbs incs).
Proof.
  induction incs as [|i incs IH] using rev_ind.
  - apply sum_zeroCounts.
  - rewrite known_snoc, <- IH. unfold crimeCounts at 1. rewrite foldl_snoc.
    fold (crimeCounts nbs incs). unfold countCrime, JsMap.has.
    rewrite crimeCounts_get. destruct (decide _); simpl; [|lia].
    rewrite sum_values_bump; [lia|]. rewrite crimeCounts_get. now rewrite decide_True.
Qed.

Lemma crimeCounts_values_distinct nbs incs :
  NoDup (map Neighborhood.id nbs) ->
  JsMap.values (crimeCounts nbs incs) =
  map (fun n => matching incs (Neighborhood.id n)) nbs.
Proof.
  intros Hnd. apply (inj (map Some)).
  rewrite values_by_keys by apply crimeCounts_NoDup.
  unfold crimeCounts at 2. rewrite count_keys, zeroCounts_keys_distinct by assumption.
  rewrite !map_map. apply map_ext_in. intros n Hn.
  rewrite crimeCounts_get, decide_True; [reflexivity|].
  now apply list_elem_of_In, in_map.
Qed.
End Aggregator.

Lemma popupText_label name count : popupText name count = label name count.
Proof.
  unfold popupText, label. destruct (decide (count = 1%nat)) as [->|Hne].
  - reflexivity.
  - apply Nat.eqb_neq in Hne. now rewrite Hne.
Qed.

Lemma Forall2_map_in {A B} (P : A -> B -> Prop) (f : A -> B) (l : list A) :
  (forall x, In x l -> P x (f x)) -> Forall2 P l (map f l).
Proof.
  induction l as [|x l IH]; intros H; simpl; constructor.
  - apply H. now left.
  - apply IH. intros y Hy. apply H. now right.
Qed.

Lemma recount_recounted nbs incs n :
  In n nbs -> recounted incs n (recount (crimeCounts nbs incs) n).
Proof.
  intros Hn. unfold recounted, recount. simpl.
  rewrite crimeCounts_get, decide_True by now apply list_elem_of_In, in_map.
  simpl. repeat split. destruct (Neighborhood.marker n); [|reflexivity].
  now rewrite popupText_label.
Qed.

(** C5, as the code has it.  [updateNeighborhoodCountsFromIncidents]
    builds, from nothing, a count for every neighborhood id: the number of
    incidents whose [neighborhood_number] is that id, zero when there is
    none.  Every neighborhood gets the count of its id and its popup the
    label "<name>: <count> crime" for a count of exactly one and
    "<name>: <count> crimes" otherwise.  The counts per id add up to the
    number of incidents of a known neighborhood; incidents of an unknown
    neighborhood are counted nowhere.  When the ids of the neighborhoods
    are pairwise distinct, the counts the neighborhoods are left with add
    up to the same number, hence to the number of incidents when every
    incident has a known neighborhood. *)
Theorem updateNeighborhoodCounts_spec (st : App) :
  let nbs := neighborhoods st in
  let incs := incidents st in
  let counts := crimeCounts nbs incs in
  let st' := updateNeighborhoodCountsFromIncidents st in
  let everyKnown :=
    Forall (fun i => Incident.neighborhood_number i ∈ map Neighborhood.id nbs) incs in
  (forall k, JsMap.get counts k =
             if decide (k ∈ map Neighborhood.id nbs) then Some (matching incs k) else None) /\
  Forall2 (recounted incs) nbs (neighborhoods st') /\
  incidents st' = incs /\
  list_sum (JsMap.values counts) = length (known nbs incs) /\
  (everyKnown -> list_sum (JsMap.values counts) = length incs) /\
  (NoDup (map Neighborhood.id nbs) ->
   list_sum (map Neighborhood.crimes (neighborhoods st')) = length (known nbs incs) /\
   (everyKnown ->
    list_sum (map Neighborhood.crimes (neighborhoods st')) = length incs)).
Proof.
  intros nbs incs counts st' everyKnown.
  assert (Hknown : everyKnown -> known nbs incs = incs).
  { unfold everyKnown, known. clear. intros Hall.
    induction Hall as [|i l Hi _ IH]; [reflexivity|].
    rewrite filter_cons, decide_True by assumption. now f_equal. }
  assert (Hsum : NoDup (map Neighborhood.id nbs) ->
                 list_sum (map Neighborhood.crimes (neighborhoods st')) =
                 length (known nbs incs)).
  { intros Hnd. rewrite <- sum_crimeCounts, crimeCounts_values_distinct by assumption.
    f_equal. unfold st', updateNeighborhoodCountsFromIncidents. simpl.
    rewrite map_map. apply map_ext_in. intros n Hn.
    now apply (recount_recounted nbs incs n). }
  split; [intros k; apply crimeCounts_get|].
  split; [apply Forall2_map_in; intros n Hn; now apply recount_recounted|].
  split; [reflexivity|]. split; [apply sum_crimeCounts|]. split.
  - intros Hall. unfold counts. rewrite sum_crimeCounts. now rewrite Hknown.
  - intros Hnd. split; [now apply Hsum|].
    intros Hall. rewrite Hsum by assumption. now rewrite Hknown.
Qed.

Lemma updateNeighborhoodCounts_spec_witness :
  let st := Sample.app Sample.base
              [Sample.neighborhood 1 "A" true; Sample.neighborhood 2 "B" true]
              [Sample.incident 1; Sample.incident 1; Sample.incident 2] []
              (Num.of_Z 1000) Sample.form in
  list_sum (JsMap.values (crimeCounts (neighborhoods st) (incidents st))) = 3%nat /\
  list_sum (map Neighborhood.crimes
              (neighborhoods (updateNeighborhoodCountsFromIncidents st))) = 3%nat.
Proof.
  intros st.
  assert (Hall : Forall (fun i => Incident.neighborhood_number i ∈
                                    map Neighborhood.id (neighborhoods st)) (incidents st))
    by (repeat constructor; apply (bool_decide_unpack _); reflexivity).
  destruct (updateNeighborhoodCounts_spec st) as (_ & _ & _ & _ & Hmap & Hdistinct).
  split.
  - now apply Hmap.
  - apply Hdistinct; [|exact Hall].
    apply (bool_decide_unpack _). reflexivity.
Defined.

(** C5 as the specification words it fails for a neighborhoods list that
    holds an id twice: the one incident of neighborhood 1 is counted for
    both neighborhoods that bear the id 1, so the counts of the
    neighborhoods add up to two although there is one incident and its
    neighborhood is known. *)
Lemma repeated_id_counted_twice :
  let st := Sample.app Sample.base
              [Sample.neighborhood 1 "A" true; Sample.neighborhood 1 "B" true]
              [Sample.incident 1] [] (Num.of_Z 1000) Sample.form in
  let st' := updateNeighborhoodCountsFromIncidents st in
  Forall (fun i => Incident.neighborhood_number i ∈ map Neighborhood.id (neighborhoods st))
    (incidents st) /\
  map Neighborhood.crimes (neighborhoods st') = [1; 1]%nat /\
  list_sum (map Neighborhood.crimes (neighborhoods st')) <> length (incidents st).
Proof.
  intros st st'. split; [|split].
  - repeat constructor; apply (bool_decide_unpack _); reflexivity.
  - reflexivity.
  - discriminate.
Qed.

(** The scenario of the two neighborhoods A and B with three incidents. *)
Example updateNeighborhoodCounts_scenario :
  let st := Sample.app Sample.base
              [Sample.neighborhood 1 "A" true; Sample.neighborhood 2 "B" true]
              [Sample.incident 1; Sample.incident 1; Sample.incident 2] []
              (Num.of_Z 1000) Sample.form in
  crimeCounts (neighborhoods st) (incidents st) = [(1, 2%nat); (2, 1%nat)] /\
  map Neighborhood.marker (neighborhoods (updateNeighborhoodCountsFromIncidents st)) =
    [Some "A: 2 crimes"; Some "B: 1 crime"].
Proof. split; reflexivity. Qed.

(** ** Incident query engine *)
Section QueryFacts.
Implicit Types (nbs : list Neighborhood.t) (visible : list Z) (st : App)
  (net : services).

Lemma selectedNeighborhoodIds_spec nbs id :
  In id (selectedNeighborhoodIds nbs) <->
  exists n, In n nbs /\ Neighborhood.selected n = true /\ Neighborhood.id n = id.
Proof.
  unfold selectedNeighborhoodIds. rewrite in_map_iff. split.
  - intros (n & <- & [Hsel Hn]%list_elem_of_In%list_elem_of_filter).
    exists n. now rewrite <- list_elem_of_In.
  - intros (n & Hn & Hsel & <-). exists n. split; [reflexivity|].
    apply list_elem_of_In, list_elem_of_filter. now rewrite list_elem_of_In.
Qed.

Lemma inViewIds_spec nbs visible id :
  visible <> [] ->
  In id (inViewIds nbs visible) <-> In id (baseNeighborhoodIds nbs) /\ In id visible.
Proof.
  intros Hne. unfold inViewIds, includesZ. destruct visible as [|v visible]; [congruence|].
  rewrite <- !list_elem_of_In, list_elem_of_filter, bool_decide_eq_true. tauto.
Qed.

Lemma fetchIncidents_unconfigured net st :
  baseApiUrl st = "" -> fetchIncidents net st = (st, []).
Proof. intros H. unfold fetchIncidents. now rewrite H. Qed.

Lemma fetchIncidents_early_return net st :
  baseApiUrl st <> "" ->
  inViewIds (neighborhoods st) (visibleNeighborhoodIds st) = [] ->
  fetchIncidents net st =
  (set_isLoadingCrimes false
     (updateNeighborhoodCountsFromIncidents
        (set_incidents [] (set_loadError "" (set_isLoadingCrimes true st)))), []).
Proof.
  intros Hbase Hids. unfold fetchIncidents.
  destruct (baseApiUrl st); [congruence|]. simpl. now rewrite Hids.
Qed.

Lemma fetchIncidents_request net st :
  baseApiUrl st <> "" ->
  inViewIds (neighborhoods st) (visibleNeighborhoodIds st) <> [] ->
  (fetchIncidents net st).2 =
  [GetIncidents (baseApiUrl st)
     (incidentParams (filters st) (selectedCodes (incidentTypeGroups st))
        (inViewIds (neighborhoods st) (visibleNeighborhoodIds st)))].
Proof.
  intros Hbase Hids. unfold fetchIncidents.
  destruct (baseApiUrl st) as [|c base]; [congruence|]. simpl.
  destruct (inViewIds _ _) as [|i ids]; [congruence|].
  destruct (incidentsService net _ _); reflexivity.
Qed.

Lemma incidentParams_limit f codes ids :
  params_get (incidentParams f codes ids) "limit" =
  Some (PNum (limitOf (Filters.maxIncidents f))).
Proof.
  unfold incidentParams.
  destruct (Filters.dateStart f), (Filters.dateEnd f), codes, ids; reflexivity.
Qed.

Lemma incidentParams_code f codes ids :
  params_get (incidentParams f codes ids) "code" =
  match codes with [] => None | _ => Some (PStr (joinZ codes)) end.
Proof.
  unfold incidentParams.
  destruct (Filters.dateStart f), (Filters.dateEnd f), codes, ids; reflexivity.
Qed.

Lemma incidentParams_neighborhood f codes ids :
  ids <> [] ->
  params_get (incidentParams f codes ids) "neighborhood" = Some (PStr (joinZ ids)).
Proof.
  intros Hids. unfold incidentParams.
  destruct (Filters.dateStart f), (Filters.dateEnd f), codes, ids;
    try congruence; reflexivity.
Qed.

Lemma recount_zero nbs n :
  Neighborhood.crimes (recount (crimeCounts nbs []) n) = 0%nat.
Proof.
  unfold recount. simpl. rewrite crimeCounts_get.
  destruct (decide _); reflexivity.
Qed.
End QueryFacts.

(** C2. The candidate neighborhoods of the incident query are the ids of
    the neighborhoods that are selected, and all neighborhood ids when none
    is selected.  The effective neighborhoods are the candidates that are
    also visible in the viewport, and the candidates as they are when the
    visible list is empty.  The query that is issued carries the effective
    ids as its neighborhood parameter. *)
Theorem neighborhood_filter_spec (net : services) (st : App) :
  let nbs := neighborhoods st in
  let visible := visibleNeighborhoodIds st in
  let candidate := baseNeighborhoodIds nbs in
  let effective := inViewIds nbs visible in
  let isSelected id :=
    exists n, In n nbs /\ Neighborhood.selected n = true /\ Neighborhood.id n = id in
  ((exists id, isSelected id) -> forall id, In id candidate <-> isSelected id) /\
  (~ (exists id, isSelected id) -> candidate = map Neighborhood.id nbs) /\
  (visible = [] -> effective = candidate) /\
  (visible <> [] -> forall id, In id effective <-> In id candidate /\ In id visible) /\
  (baseApiUrl st <> "" -> effective <> [] ->
   exists query,
     (fetchIncidents net st).2 = [GetIncidents (baseApiUrl st) query] /\
     params_get query "neighborhood" = Some (PStr (joinZ effective))).
Proof.
  intros nbs visible candidate effective isSelected.
  assert (Hsel : forall id, In id (selectedNeighborhoodIds nbs) <-> isSelected id)
    by apply selectedNeighborhoodIds_spec.
  repeat apply conj.
  - intros [id0 H0] id. apply Hsel in H0. unfold candidate, baseNeighborhoodIds.
    destruct (selectedNeighborhoodIds nbs) eqn:E; [destruct H0|]. apply Hsel.
  - intros Hnone. unfold candidate, baseNeighborhoodIds.
    destruct (selectedNeighborhoodIds nbs) as [|id0 l] eqn:E; [reflexivity|].
    elim Hnone. exists id0. apply Hsel. now left.
  - intros Hvis. unfold effective, inViewIds. now rewrite Hvis.
  - intros Hvis id. now apply inViewIds_spec.
  - intros Hbase Heff. eexists. split.
    + now apply fetchIncidents_request.
    + now apply incidentParams_neighborhood.
Qed.

Lemma neighborhood_filter_spec_witness :
  let st := Sample.app Sample.base
              [Sample.neighborhood 1 "A" false; Sample.neighborhood 2 "B" true;
               Sample.neighborhood 3 "C" true]
              [] [1; 2] (Num.of_Z 1000) Sample.form in
  baseNeighborhoodIds (neighborhoods st) = [2; 3] /\
  inViewIds (neighborhoods st) (visibleNeighborhoodIds st) = [2] /\
  exists query,
    (fetchIncidents Sample.quiet st).2 = [GetIncidents Sample.base query] /\
    params_get query "neighborhood" = Some (PStr "2").
Proof.
  intros st. split; [reflexivity|]. split; [reflexivity|].
  apply (neighborhood_filter_spec Sample.quiet st); discriminate.
Defined.

(** The neighborhood filter when nothing is selected and nothing is
    visible: every neighborhood is asked for. *)
Example neighborhood_filter_nothing_selected :
  let st := Sample.app Sample.base
              [Sample.neighborhood 1 "A" false; Sample.neighborhood 2 "B" false]
              [] [] (Num.of_Z 1000) Sample.form in
  inViewIds (neighborhoods st) (visibleNeighborhoodIds st) = [1; 2].
Proof. reflexivity. Qed.

Lemma nothing_selected_all_candidates (nbs : list Neighborhood.t) :
  Forall (fun n => Neighborhood.selected n = false) nbs ->
  inViewIds nbs [] = map Neighborhood.id nbs.
Proof.
  intros Hall. unfold inViewIds, baseNeighborhoodIds, selectedNeighborhoodIds.
  replace (filter _ nbs) with (@nil Neighborhood.t); [reflexivity|].
  induction Hall as [|n l Hn _ IH]; [reflexivity|].
  rewrite filter_cons, decide_False by congruence. exact IH.
Qed.

(** C3, as the code has it.  Once the REST base URL is set, an empty
    effective neighborhood list makes [fetchIncidents] return early: no
    request is issued, the incident list is emptied and every neighborhood
    count is recomputed to zero; a non-empty one makes it issue its one
    request.  With every neighborhood unselected and nothing visible in the
    viewport the effective list is the list of all neighborhood ids, so the
    early return happens only when there is no neighborhood at all. *)
Theorem fetchIncidents_short_circuit (net : services) (st : App) :
  baseApiUrl st <> "" ->
  let nbs := neighborhoods st in
  let visible := visibleNeighborhoodIds st in
  let effective := inViewIds nbs visible in
  let st' := (fetchIncidents net st).1 in
  let reqs := (fetchIncidents net st).2 in
  (effective = [] ->
     reqs = [] /\ incidents st' = [] /\
     Forall (fun n => Neighborhood.crimes n = 0%nat) (neighborhoods st') /\
     map Neighborhood.id (neighborhoods st') = map Neighborhood.id nbs /\
     isLoadingCrimes st' = false) /\
  (effective <> [] -> exists query, reqs = [GetIncidents (baseApiUrl st) query]) /\
  (Forall (fun n => Neighborhood.selected n = false) nbs -> visible = [] ->
     effective = map Neighborhood.id nbs /\ (reqs = [] <-> nbs = [])).
Proof.
  intros Hbase nbs visible effective st' reqs.
  assert (Hshort : effective = [] ->
     reqs = [] /\ incidents st' = [] /\
     Forall (fun n => Neighborhood.crimes n = 0%nat) (neighborhoods st') /\
     map Neighborhood.id (neighborhoods st') = map Neighborhood.id nbs /\
     isLoadingCrimes st' = false).
  { intros Heff. unfold reqs, st'. rewrite fetchIncidents_early_return by assumption.
    unfold updateNeighborhoodCountsFromIncidents.
    cbn [fst snd incidents neighborhoods isLoadingCrimes set_isLoadingCrimes
         set_incidents set_neighborhoods set_loadError].
    repeat split.
    - apply Forall_forall. intros n' [n [<- _]]%list_elem_of_In%in_map_iff.
      apply recount_zero.
    - rewrite map_map. reflexivity. }
  assert (Hreq : effective <> [] -> exists query, reqs = [GetIncidents (baseApiUrl st) query]).
  { intros Heff. eexists. now apply fetchIncidents_request. }
  split; [exact Hshort|]. split; [exact Hreq|].
  intros Hnone Hvis.
  assert (Heff : effective = map Neighborhood.id nbs).
  { unfold effective. rewrite Hvis. now apply nothing_selected_all_candidates. }
  split; [exact Heff|]. split.
  - intros Hreqs. destruct nbs as [|n l]; [reflexivity|].
    destruct Hreq as [query Hq]; [now rewrite Heff|]. congruence.
  - intros Hnil. apply Hshort. now rewrite Heff, Hnil.
Qed.

Lemma fetchIncidents_short_circuit_witness :
  let st := Sample.app Sample.base
              [Sample.neighborhood 1 "A" true; Sample.neighborhood 2 "B" false]
              [Sample.incident 1] [3] (Num.of_Z 1000) Sample.form in
  (fetchIncidents Sample.quiet st).2 = [] /\
  incidents (fetchIncidents Sample.quiet st).1 = [] /\
  Forall (fun n => Neighborhood.crimes n = 0%nat)
    (neighborhoods (fetchIncidents Sample.quiet st).1).
Proof.
  intros st.
  destruct (fetchIncidents_short_circuit Sample.quiet st) as [Hshort _];
    [discriminate|].
  destruct Hshort as (H1 & H2 & H3 & _); [reflexivity|]. auto.
Defined.

(** C3 as the specification words it fails: with two neighborhoods, both
    unselected, and an empty visible list, a request for both is issued. *)
Lemma short_circuit_scenario_refuted :
  let st := Sample.app Sample.base
              [Sample.neighborhood 1 "A" false; Sample.neighborhood 2 "B" false]
              [] [] (Num.of_Z 1000) Sample.form in
  Forall (fun n => Neighborhood.selected n = false) (neighborhoods st) /\
  visibleNeighborhoodIds st = [] /\
  (fetchIncidents Sample.quiet st).2 =
    [GetIncidents Sample.base
       [("limit", PNum (Num.of_Z 1000)); ("code", PStr "600");
        ("neighborhood", PStr "1,2")]] /\
  (fetchIncidents Sample.quiet st).2 <> [].
Proof.
  intros st. repeat split.
  - repeat constructor.
  - discriminate.
Qed.

(** ** Viewport clamp *)
Section ClampFacts.
Variables lo hi : Q.
Hypothesis lo_le_hi : Qle lo hi.

Lemma Qle_bool_false (x y : Q) : Qle_bool x y = false -> Qle y x.
Proof.
  intros H. apply Qlt_le_weak, Qnot_le_lt. intros Hle.
  apply Qle_bool_iff in Hle. congruence.
Qed.

Lemma clamp_range (x : number) :
  x <> NaN ->
  Num.le (Fin lo) (Num.min (Num.max x (Fin lo)) (Fin hi)) /\
  Num.le (Num.min (Num.max x (Fin lo)) (Fin hi)) (Fin hi).
Proof using lo_le_hi.
  intros Hx. pose proof lo_le_hi as Hlh. apply Qle_bool_iff in Hlh.
  destruct x as [| |q|]; [congruence| | |]; simpl.
  - rewrite Hlh. simpl. split; [apply Qle_refl | exact lo_le_hi].
  - destruct (Qle_bool lo q) eqn:Hlq; simpl.
    + destruct (Qle_bool q hi) eqn:Hqh; simpl.
      * split; now apply Qle_bool_iff.
      * split; [exact lo_le_hi | apply Qle_refl].
    + rewrite Hlh. simpl. split; [apply Qle_refl | exact lo_le_hi].
  - split; [exact lo_le_hi | apply Qle_refl].
Qed.

Lemma clamp_fixed (r : number) :
  Num.le (Fin lo) r -> Num.le r (Fin hi) ->
  Num.min (Num.max r (Fin lo)) (Fin hi) = r.
Proof.
  destruct r as [| |q|]; simpl; try tauto.
  intros H1%Qle_bool_iff H2%Qle_bool_iff. rewrite H1. simpl. now rewrite H2.
Qed.

Lemma clamp_NaN : Num.min (Num.max NaN (Fin lo)) (Fin hi) = NaN.
Proof. reflexivity. Qed.

Lemma clamp_idempotent (x : number) :
  let r := Num.min (Num.max x (Fin lo)) (Fin hi) in
  Num.min (Num.max r (Fin lo)) (Fin hi) = r.
Proof using lo_le_hi.
  intros r. destruct (Num.isNaN x) eqn:E.
  - destruct x; try discriminate E. reflexivity.
  - assert (Hx : x <> NaN) by (intros ->; discriminate E).
    destruct (clamp_range x Hx). now apply clamp_fixed.
Qed.
End ClampFacts.

Lemma south_le_north : Qle (44883658 # 1000000) (45008206 # 1000000).
Proof. discriminate. Qed.

Lemma west_le_east : Qle (-93217977 # 1000000) (-92993787 # 1000000).
Proof. discriminate. Qed.

(** The clamp lands in the bounding box when it is given numbers. *)
Lemma clampLatLng_in_box (lat lng : number) :
  lat <> NaN -> lng <> NaN ->
  let c := clampLatLng lat lng in
  Num.le (LatLng.lat Bounds.se) (LatLng.lat c) /\
  Num.le (LatLng.lat c) (LatLng.lat Bounds.nw) /\
  Num.le (LatLng.lng Bounds.nw) (LatLng.lng c) /\
  Num.le (LatLng.lng c) (LatLng.lng Bounds.se).
Proof.
  intros Hlat Hlng c.
  destruct (clamp_range _ _ south_le_north lat Hlat).
  destruct (clamp_range _ _ west_le_east lng Hlng). auto.
Qed.

(** C7, as the code has it.  [clampLatLng] brings every latitude that is a
    number into the range from the south edge to the north edge of the
    bounding box and every longitude that is a number into the range from
    its west edge to its east edge; a NaN coordinate stays NaN.  Clamping a
    clamped coordinate changes nothing, whatever the input. *)
Theorem clampLatLng_spec (lat lng : number) :
  let c := clampLatLng lat lng in
  (lat <> NaN ->
     Num.le (LatLng.lat Bounds.se) (LatLng.lat c) /\
     Num.le (LatLng.lat c) (LatLng.lat Bounds.nw)) /\
  (lng <> NaN ->
     Num.le (LatLng.lng Bounds.nw) (LatLng.lng c) /\
     Num.le (LatLng.lng c) (LatLng.lng Bounds.se)) /\
  (lat = NaN -> LatLng.lat c = NaN) /\
  (lng = NaN -> LatLng.lng c = NaN) /\
  clampLatLng (LatLng.lat c) (LatLng.lng c) = c.
Proof.
  intros c. repeat apply conj.
  - intros Hlat. apply (clamp_range _ _ south_le_north lat Hlat).
  - intros Hlng. apply (clamp_range _ _ west_le_east lng Hlng).
  - now intros ->.
  - now intros ->.
  - unfold c, clampLatLng. cbn [LatLng.lat LatLng.lng Bounds.nw Bounds.se].
    f_equal.
    + apply (clamp_idempotent _ _ south_le_north).
    + apply (clamp_idempotent _ _ west_le_east).
Qed.

Lemma clampLatLng_spec_witness :
  let c := clampLatLng (Fin (50 # 1)) NegInfinity in
  Num.le (LatLng.lat Bounds.se) (LatLng.lat c) /\
  Num.le (LatLng.lat c) (LatLng.lat Bounds.nw) /\
  Num.le (LatLng.lng Bounds.nw) (LatLng.lng c) /\
  Num.le (LatLng.lng c) (LatLng.lng Bounds.se).
Proof.
  intros c.
  destruct (clampLatLng_spec (Fin (50 # 1)) NegInfinity) as (Hlat & Hlng & _).
  destruct Hlat as [H1 H2]; [discriminate|].
  destruct Hlng as [H3 H4]; [discriminate|]. auto.
Defined.

(** C7 as the specification words it fails on a coordinate that is not a
    number: the clamp of NaN is NaN, which lies in no range. *)
Lemma clampLatLng_NaN_outside_box :
  clampLatLng NaN NaN = LatLng.mk NaN NaN /\
  ~ Num.le (LatLng.lat Bounds.se) (LatLng.lat (clampLatLng NaN NaN)) /\
  ~ Num.le (LatLng.lng (clampLatLng NaN NaN)) (LatLng.lng Bounds.se).
Proof. repeat split; intros []. Qed.

(** ** Block addresses *)
Section AddressFacts.
Implicit Types (s a b ds ws rest : string) (c : ascii) (p : ascii -> bool).

Lemma digit_not_space c : Js.isDigit c = true -> Js.isWhiteSpace c = false.
Proof. destruct c as [[] [] [] [] [] [] [] []]; try reflexivity; discriminate. Qed.

Lemma digit_not_X c : Js.isDigit c = true -> c <> "X"%char.
Proof. destruct c as [[] [] [] [] [] [] [] []]; discriminate. Qed.

Lemma span_app p a b :
  Js.all p a = true -> stops p b -> Js.span p (a +:+ b) = (a, b).
Proof.
  intros Ha Hb. induction a as [|c a IH]; simpl in *.
  - change ("" +:+ b) with b.
    destruct b as [|c b]; [reflexivity|]. simpl in *. now rewrite Hb.
  - apply andb_true_iff in Ha as [Hc Ha]. now rewrite Hc, IH.
Qed.

Lemma length_trimStart s : (String.length (Js.trimStart s) <= String.length s)%nat.
Proof.
  induction s as [|c s IH]; simpl; [lia|].
  destruct (Js.isWhiteSpace c); simpl; lia.
Qed.

Lemma length_trimEnd s : (String.length (Js.trimEnd s) <= String.length s)%nat.
Proof.
  induction s as [|c s IH]; simpl; [lia|].
  destruct (Js.trimEnd s); [destruct (Js.isWhiteSpace c)|]; simpl in *; lia.
Qed.

Lemma trimStart_fixed s :
  String.length (Js.trimStart s) = String.length s -> Js.trimStart s = s.
Proof.
  destruct s as [|c s]; simpl; [reflexivity|].
  destruct (Js.isWhiteSpace c); [|reflexivity].
  pose proof (length_trimStart s). lia.
Qed.

Lemma trim_fixed s : Js.trim s = s -> Js.trimStart s = s /\ Js.trimEnd s = s.
Proof.
  unfold Js.trim. intros H.
  assert (Hstart : Js.trimStart s = s).
  { apply trimStart_fixed. pose proof (length_trimStart s).
    pose proof (length_trimEnd (Js.trimStart s)). rewrite H in *. lia. }
  split; [assumption|]. now rewrite Hstart in H.
Qed.

Lemma trimStart_stops s : s <> "" -> Js.trimStart s = s -> stops Js.isWhiteSpace s.
Proof.
  destruct s as [|c s]; [congruence|]. simpl. intros _.
  destruct (Js.isWhiteSpace c); [|reflexivity].
  intros H. pose proof (length_trimStart s). rewrite H in *. simpl in *. lia.
Qed.

Lemma trimEnd_app a b : b <> "" -> Js.trimEnd b = b -> Js.trimEnd (a +:+ b) = a +:+ b.
Proof.
  intros Hb Hfix. induction a as [|c a IH]; [assumption|].
  rewrite app_String. simpl. rewrite IH.
  destruct (a +:+ b) eqn:E; [|reflexivity].
  destruct a; [change ("" +:+ b) with b in E; congruence | discriminate E].
Qed.

Lemma replaceFirst_digits ds c :
  Js.all Js.isDigit ds = true ->
  Js.replaceFirst "X" "0" (ds +:+ String c "") =
  ds +:+ String (if ascii_dec c "X" then "0"%char else c) "".
Proof.
  intros Hds. induction ds as [|d ds IH]; simpl in *.
  - unfold String.app; simpl. destruct (ascii_dec c "X"); reflexivity.
  - apply andb_true_iff in Hds as [Hd Hds]. rewrite !app_String. simpl.
    destruct (ascii_dec d "X") as [->|_]; [discriminate Hd|]. now rewrite IH.
Qed.

(** A trimmed block made of digits, an X in either case, white space and
    one line of text. *)
Section HouseNumber.
Variables (ds ws rest : string) (c : ascii).
Hypothesis digits : Js.all Js.isDigit ds = true.
Hypothesis some_digit : ds <> "".
Hypothesis letter : c = "X"%char \/ c = "x"%char.
Hypothesis spaces : Js.all Js.isWhiteSpace ws = true.
Hypothesis some_space : ws <> "".
Hypothesis some_text : rest <> "".
Hypothesis trimmed : Js.trim rest = rest.
Hypothesis one_line : Js.all (fun c => negb (Js.isLineTerminator c)) rest = true.

Let block : string := ds +:+ String c (ws +:+ rest).

Lemma block_trimmed : Js.trim block = block.
Proof using digits some_digit some_text trimmed.
  destruct (trim_fixed rest trimmed) as [_ Hend].
  unfold Js.trim, block. destruct ds as [|d ds']; [congruence|].
  simpl in digits. apply andb_true_iff in digits as [Hd _].
  rewrite app_String. cbn [Js.trimStart]. rewrite (digit_not_space d Hd).
  change (String d (ds' +:+ String c (ws +:+ rest)))
    with ((String d ds') +:+ (String c EmptyString +:+ ws +:+ rest)).
  rewrite <- !app_assoc_s. now apply trimEnd_app.
Qed.

Lemma block_match : matchHouseNumber block = Some (ds +:+ String c "", rest).
Proof using digits some_digit letter spaces some_space some_text trimmed one_line.
  destruct (trim_fixed rest trimmed) as [Hstart _].
  unfold matchHouseNumber, block. rewrite span_app; [|assumption|].
  - destruct ds; [congruence|].
    rewrite bool_decide_eq_true_2 by assumption.
    rewrite span_app; [|assumption | now apply trimStart_stops].
    destruct ws; [congruence|]. now rewrite one_line.
  - simpl. destruct letter as [-> | ->]; reflexivity.
Qed.

Lemma block_normalized :
  normalizeBlockAddress block =
  ds +:+ String (if ascii_dec c "X" then "0"%char else c) (" " +:+ rest +:+ localitySuffix).
Proof using digits some_digit letter spaces some_space some_text trimmed one_line.
  unfold normalizeBlockAddress. rewrite block_trimmed, block_match.
  rewrite replaceFirst_digits by assumption. now rewrite !app_assoc_s.
Qed.
End HouseNumber.
End AddressFacts.

(** C10. On a block made of digits, a lower-case x, white space and one
    line of trimmed text, the pattern of [normalizeBlockAddress] matches,
    with the digits and the x as house-number token, but the x stays: the
    result is the token, a space, the text and the locality suffix, which
    is the block itself with the suffix appended when the white space is
    one space.  With an upper-case X in its place the X becomes a 0. *)
Theorem normalizeBlockAddress_lowercase_x (ds ws rest : string) :
  Js.all Js.isDigit ds = true -> ds <> "" ->
  Js.all Js.isWhiteSpace ws = true -> ws <> "" ->
  rest <> "" -> Js.trim rest = rest ->
  Js.all (fun c => negb (Js.isLineTerminator c)) rest = true ->
  matchHouseNumber (ds +:+ "x" +:+ ws +:+ rest) = Some (ds +:+ "x", rest) /\
  normalizeBlockAddress (ds +:+ "x" +:+ ws +:+ rest) =
    ds +:+ "x" +:+ " " +:+ rest +:+ ", Saint Paul, MN" /\
  (ws = " " ->
   normalizeBlockAddress (ds +:+ "x" +:+ ws +:+ rest) =
     (ds +:+ "x" +:+ ws +:+ rest) +:+ ", Saint Paul, MN") /\
  normalizeBlockAddress (ds +:+ "X" +:+ ws +:+ rest) =
    ds +:+ "0" +:+ " " +:+ rest +:+ ", Saint Paul, MN".
Proof.
  intros Hds Hd Hws Hw Hrest Htrim Hline.
  assert (Hx : normalizeBlockAddress (ds +:+ "x" +:+ ws +:+ rest) =
               ds +:+ "x" +:+ " " +:+ rest +:+ ", Saint Paul, MN").
  { apply (block_normalized ds ws rest "x"); auto. }
  repeat apply conj.
  - apply (block_match ds ws rest "x"); auto.
  - exact Hx.
  - intros ->. rewrite Hx. now rewrite !app_assoc_s.
  - apply (block_normalized ds ws rest "X"); auto.
Qed.

Lemma normalizeBlockAddress_lowercase_x_witness :
  normalizeBlockAddress "98x UNIVERSITY AV W" = "98x UNIVERSITY AV W, Saint Paul, MN" /\
  normalizeBlockAddress "98X UNIVERSITY AV W" = "980 UNIVERSITY AV W, Saint Paul, MN".
Proof.
  destruct (normalizeBlockAddress_lowercase_x "98" " " "UNIVERSITY AV W")
    as (_ & Hx & _ & HX); try reflexivity; try discriminate.
  split; [exact Hx | exact HX].
Defined.

(** ** Geocode cache *)
Section GeocodeFacts.
Variable inherited : string -> bool.
Implicit Types (net : services) (cache : gmap string LatLng.t) (block : string).

Lemma geocodeBlock_miss net cache block :
  block <> "" -> cache !! block = None -> inherited block = false ->
  geocodeBlock inherited net cache block =
  match geocodeService net (normalizeBlockAddress block) with
  | Ok (first :: _) =>
      let clamped := clampLatLng (LatLng.lat first) (LatLng.lng first) in
      (Some (Coordinate clamped), <[block := clamped]> cache,
       [GetGeocode (normalizeBlockAddress block)])
  | _ => (None, cache, [GetGeocode (normalizeBlockAddress block)])
  end.
Proof.
  intros Hblock Hmiss Hown. unfold geocodeBlock, cacheRead.
  destruct block; [congruence|]. now rewrite Hmiss, Hown.
Qed.

Lemma geocodeBlock_hit net cache block (hit : LatLng.t) :
  block <> "" -> cache !! block = Some hit ->
  geocodeBlock inherited net cache block = (Some (Coordinate hit), cache, []).
Proof.
  intros Hblock Hhit. unfold geocodeBlock, cacheRead.
  destruct block; [congruence|]. now rewrite Hhit.
Qed.

Lemma geocodeBlock_member net cache block :
  block <> "" -> cache !! block = None -> inherited block = true ->
  geocodeBlock inherited net cache block = (Some (Member block), cache, []).
Proof.
  intros Hblock Hmiss Hinh. unfold geocodeBlock, cacheRead.
  destruct block; [congruence|]. now rewrite Hmiss, Hinh.
Qed.

(** The three ways a lookup of a block that is not empty can go. *)
Lemma geocodeBlock_cases net cache block :
  block <> "" ->
  (exists hit, cache !! block = Some hit /\
     geocodeBlock inherited net cache block = (Some (Coordinate hit), cache, [])) \/
  (cache !! block = None /\ inherited block = true /\
     geocodeBlock inherited net cache block = (Some (Member block), cache, [])) \/
  (cache !! block = None /\ inherited block = false /\
     geocodeBlock inherited net cache block =
     match geocodeService net (normalizeBlockAddress block) with
     | Ok (first :: _) =>
         let clamped := clampLatLng (LatLng.lat first) (LatLng.lng first) in
         (Some (Coordinate clamped), <[block := clamped]> cache,
          [GetGeocode (normalizeBlockAddress block)])
     | _ => (None, cache, [GetGeocode (normalizeBlockAddress block)])
     end).
Proof.
  intros Hblock. destruct (cache !! block) as [hit|] eqn:Hlook.
  - left. exists hit. split; [reflexivity | now apply geocodeBlock_hit].
  - right. destruct (inherited block) eqn:Hinh.
    + left. split; [reflexivity|]. split; [reflexivity | now apply geocodeBlock_member].
    + right. split; [reflexivity|]. split; [reflexivity | now apply geocodeBlock_miss].
Qed.
End GeocodeFacts.




(** A block that names a member every object has is answered from the
    cache object although the cache holds no coordinate: the lookup gives
    the member and asks nothing. *)
Example geocodeBlock_inherited_name :
  geocodeBlock Sample.objectMembers Sample.quiet ∅ "constructor" =
    (Some (Member "constructor"), ∅, []) /\
  latOf (Member "constructor") = None.
Proof. split; reflexivity. Qed.

(** ** Sorting *)
Section SortFacts.
Context {A : Type} (cmp : A -> A -> Z).

Hypothesis cmp_total : forall a b, cmp a b <= 0 \/ cmp b a <= 0.
Hypothesis cmp_trans : forall a b c, cmp a b <= 0 -> cmp b c <= 0 -> cmp a c <= 0.

Lemma insert_sorted_perm x l : Permutation (Js.insert_sorted cmp x l) (x :: l).
Proof.
  induction l as [|y l IH]; simpl; [reflexivity|].
  destruct (cmp x y <=? 0); [reflexivity|].
  rewrite IH. apply perm_swap.
Qed.

Lemma sort_perm l : Permutation (Js.sort cmp l) l.
Proof.
  induction l as [|x l IH]; simpl; [reflexivity|].
  rewrite insert_sorted_perm. now constructor.
Qed.

Lemma insert_sorted_sorted x l :
  StronglySorted (before cmp) l -> StronglySorted (before cmp) (Js.insert_sorted cmp x l).
Proof using cmp_total cmp_trans.
  induction 1 as [|y l Hl IH Hy]; simpl.
  - repeat constructor.
  - destruct (Z.leb_spec (cmp x y) 0) as [Hxy|Hxy].
    + constructor; [now constructor|]. constructor; [assumption|].
      eapply Forall_impl; [exact Hy|]. intros z Hz. now apply (cmp_trans x y z).
    + constructor; [assumption|].
      rewrite insert_sorted_perm. constructor; [|assumption].
      destruct (cmp_total x y); [lia | assumption].
Qed.

Lemma sort_sorted l : StronglySorted (before cmp) (Js.sort cmp l).
Proof using cmp_total cmp_trans.
  induction l as [|x l IH]; simpl; [constructor | now apply insert_sorted_sorted].
Qed.
End SortFacts.

Lemma StronglySorted_weaken {A} (R R' : A -> A -> Prop) (l : list A) :
  (forall a b, R a b -> R' a b) -> StronglySorted R l -> StronglySorted R' l.
Proof.
  intros HR. induction 1 as [|x l Hl IH Hx]; constructor; [assumption|].
  eapply Forall_impl; [exact Hx|]. intros y. apply HR.
Qed.

(** The numeric sort of the selected codes. *)
Lemma sort_codes_sorted (l : list Z) :
  StronglySorted Z.le (Js.sort (fun a b => a - b) l).
Proof.
  apply (StronglySorted_weaken (before (fun a b => a - b))).
  - unfold before. intros a b. lia.
  - apply sort_sorted; intros; lia.
Qed.

Section CodeFilterFacts.
Implicit Types (groups : list Group.t) (types : list string) (c : Z).

Lemma add_all_spec (s l : list Z) c :
  c ∈ foldl JsSet.add s l <-> c ∈ s \/ c ∈ l.
Proof.
  revert s. induction l as [|x l IH]; intros s; simpl.
  - rewrite elem_of_nil. tauto.
  - rewrite IH, elem_of_cons. unfold JsSet.add.
    destruct (decide (x ∈ s)) as [Hx|Hx].
    + split; [tauto|]. intros [?|[->|?]]; tauto.
    + rewrite elem_of_app, list_elem_of_singleton. tauto.
Qed.

Lemma add_all_NoDup (s l : list Z) : NoDup s -> NoDup (foldl JsSet.add s l).
Proof.
  revert s. induction l as [|x l IH]; intros s Hs; simpl; [assumption|].
  apply IH. unfold JsSet.add. destruct (decide (x ∈ s)) as [Hx|Hx]; [assumption|].
  apply NoDup_app. repeat split; [assumption | | apply NoDup_singleton].
  intros y Hy ->%list_elem_of_singleton. contradiction.
Qed.

Lemma collect_step_spec types (s : list Z) groups c :
  c ∈ foldl (fun codeSet g =>
               if bool_decide (Group.type g ∈ types)
               then foldl JsSet.add codeSet (Group.codes g) else codeSet) s groups <->
  c ∈ s \/ exists g, g ∈ groups /\ Group.type g ∈ types /\ c ∈ Group.codes g.
Proof.
  revert s. induction groups as [|g groups IH]; intros s; simpl.
  - split; [tauto|]. intros [?|(g & Hg%elem_of_nil & _)]; tauto.
  - rewrite IH. destruct (bool_decide_reflect (Group.type g ∈ types)) as [Ht|Ht].
    + rewrite add_all_spec. split.
      * intros [[?|?]|(g' & ? & ? & ?)]; [tauto | |].
        -- right. exists g. rewrite elem_of_cons. tauto.
        -- right. exists g'. rewrite elem_of_cons. tauto.
      * intros [?|(g' & [->|?]%elem_of_cons & ? & ?)]; [tauto | tauto |].
        right. exists g'. tauto.
    + split.
      * intros [?|(g' & ? & ? & ?)]; [tauto|].
        right. exists g'. rewrite elem_of_cons. tauto.
      * intros [?|(g' & [->|?]%elem_of_cons & ? & ?)]; [tauto | tauto |].
        right. exists g'. tauto.
Qed.

Lemma collect_step_NoDup types (s : list Z) groups :
  NoDup s ->
  NoDup (foldl (fun codeSet g =>
                  if bool_decide (Group.type g ∈ types)
                  then foldl JsSet.add codeSet (Group.codes g) else codeSet) s groups).
Proof.
  revert s. induction groups as [|g groups IH]; intros s Hs; simpl; [assumption|].
  apply IH. destruct (bool_decide _); [now apply add_all_NoDup | assumption].
Qed.

Lemma selectedTypes_spec groups (t : string) :
  t ∈ selectedTypes groups <->
  exists g, g ∈ groups /\ Group.selected g = true /\ Group.type g = t.
Proof.
  unfold selectedTypes. rewrite list_elem_of_fmap. split.
  - intros (g & -> & [? ?]%list_elem_of_filter). now exists g.
  - intros (g & ? & ? & <-). exists g. split; [reflexivity|].
    now apply list_elem_of_filter.
Qed.

Lemma selectedCodes_spec groups c :
  c ∈ selectedCodes groups <->
  exists g, g ∈ groups /\ Group.type g ∈ selectedTypes groups /\ c ∈ Group.codes g.
Proof.
  unfold selectedCodes. destruct (selectedTypes groups) as [|t types] eqn:E.
  - split; [intros []%elem_of_nil | intros (g & _ & []%elem_of_nil & _)].
  - rewrite sort_perm. unfold collectCodes. rewrite collect_step_spec.
    rewrite elem_of_nil. tauto.
Qed.

Lemma selectedCodes_sorted groups : StronglySorted Z.le (selectedCodes groups).
Proof.
  unfold selectedCodes. destruct (selectedTypes groups); [constructor|].
  apply sort_codes_sorted.
Qed.

Lemma selectedCodes_NoDup groups : NoDup (selectedCodes groups).
Proof.
  unfold selectedCodes. destruct (selectedTypes groups) as [|t types]; [constructor|].
  rewrite sort_perm. apply collect_step_NoDup. constructor.
Qed.
End CodeFilterFacts.

Lemma NoDup_map_eq {A B} (f : A -> B) (l : list A) (x y : A) :
  NoDup (map f l) -> x ∈ l -> y ∈ l -> f x = f y -> x = y.
Proof.
  induction l as [|a l IH]; simpl.
  - intros _ []%elem_of_nil.
  - intros [Hnotin Hnd]%NoDup_cons [->|Hx]%elem_of_cons [->|Hy]%elem_of_cons Hf.
    + reflexivity.
    + elim Hnotin. rewrite Hf. now apply list_elem_of_fmap_2.
    + elim Hnotin. rewrite <- Hf. now apply list_elem_of_fmap_2.
    + now apply IH.
Qed.

Lemma positive_integer_gt_0 (m : number) :
  isPositiveInteger m -> Num.gt m (Num.of_Z 0) = true.
Proof.
  destruct m as [| |q|]; simpl; try tauto.
  intros (z & Hz & Heq). apply negb_true_iff.
  destruct (Qle_bool q (inject_Z 0)) eqn:E; [|reflexivity].
  apply Qle_bool_iff in E. rewrite Heq in E.
  unfold Qle in E. simpl in E. lia.
Qed.

(** C8, as the code has it.  The query [fetchIncidents] issues carries as
    limit the value of [maxIncidents] whenever that value is greater than
    zero, a positive integer in particular but a positive fraction just as
    well, and 1000 otherwise.  Its code parameter is the comma-joined list
    of the selected codes, which is sorted in ascending order, free of
    duplicates, and made of the codes of the groups whose type is the type
    of a selected group; the parameter is absent when that list is empty,
    as it is when no group is selected. *)
Theorem fetchIncidents_query (net : services) (st : App) :
  baseApiUrl st <> "" ->
  inViewIds (neighborhoods st) (visibleNeighborhoodIds st) <> [] ->
  let m := Filters.maxIncidents (filters st) in
  let groups := incidentTypeGroups st in
  let codes := selectedCodes groups in
  exists query,
    (fetchIncidents net st).2 = [GetIncidents (baseApiUrl st) query] /\
    (Num.gt m (Num.of_Z 0) = true -> params_get query "limit" = Some (PNum m)) /\
    (isPositiveInteger m -> params_get query "limit" = Some (PNum m)) /\
    (Num.gt m (Num.of_Z 0) = false ->
       params_get query "limit" = Some (PNum (Num.of_Z 1000))) /\
    (codes <> [] -> params_get query "code" = Some (PStr (joinZ codes))) /\
    (codes = [] -> params_get query "code" = None) /\
    ((forall g, g ∈ groups -> Group.selected g = false) ->
       params_get query "code" = None) /\
    StronglySorted Z.le codes /\ NoDup codes /\
    (forall c, c ∈ codes <->
       exists g g', g ∈ groups /\ g' ∈ groups /\ Group.selected g' = true /\
                    Group.type g' = Group.type g /\ c ∈ Group.codes g) /\
    (NoDup (map Group.type groups) ->
     forall c, c ∈ codes <->
       exists g, g ∈ groups /\ Group.selected g = true /\ c ∈ Group.codes g).
Proof.
  intros Hbase Hids m groups codes. eexists. split.
  { now apply fetchIncidents_request. }
  rewrite incidentParams_limit, incidentParams_code. fold m groups codes.
  assert (Hchar : forall c, c ∈ codes <->
       exists g g', g ∈ groups /\ g' ∈ groups /\ Group.selected g' = true /\
                    Group.type g' = Group.type g /\ c ∈ Group.codes g).
  { intros c. unfold codes. rewrite selectedCodes_spec. split.
    - intros (g & Hg & (g' & ? & ? & ?)%selectedTypes_spec & Hc). now exists g, g'.
    - intros (g & g' & ? & ? & ? & ? & ?). exists g. split; [assumption|].
      split; [|assumption]. apply selectedTypes_spec. now exists g'. }
  assert (Hgt : Num.gt m (Num.of_Z 0) = true -> Some (PNum (limitOf m)) = Some (PNum m)).
  { intros H. unfold limitOf. now rewrite H. }
  split; [exact Hgt|].
  split; [intros H; now apply Hgt, positive_integer_gt_0|].
  split; [intros H; unfold limitOf; now rewrite H|].
  split; [intros H; destruct codes; [congruence | reflexivity]|].
  split; [now intros ->|].
  split.
  { intros Hnone. destruct codes as [|c l] eqn:E; [reflexivity|].
    assert (Hc : c ∈ c :: l) by apply list_elem_of_here.
    apply Hchar in Hc as (g & g' & _ & Hg' & Hsel & _).
    rewrite (Hnone g' Hg') in Hsel. discriminate. }
  split; [apply selectedCodes_sorted|].
  split; [apply selectedCodes_NoDup|].
  split; [exact Hchar|].
  intros Hnd c. rewrite Hchar. split.
  - intros (g & g' & Hg & Hg' & Hsel & Hty & Hc). exists g.
    pose proof (NoDup_map_eq Group.type groups g' g Hnd Hg' Hg Hty) as ->. auto.
  - intros (g & Hg & Hsel & Hc). now exists g, g.
Qed.

Lemma fetchIncidents_query_witness :
  let st := mkApp Sample.base [] [Group.mk "Theft" [621; 600] true;
                                  Group.mk "Assault" [400] false;
                                  Group.mk "Arson" [900; 600] true]
              [Sample.neighborhood 1 "A" true] [] [] false ""
              (Filters.mk "2024-01-01" "" (Num.of_Z 25)) Sample.form "" "" in
  exists query,
    (fetchIncidents Sample.quiet st).2 = [GetIncidents Sample.base query] /\
    params_get query "limit" = Some (PNum (Num.of_Z 25)) /\
    params_get query "code" = Some (PStr "600,621,900").
Proof.
  intros st.
  destruct (fetchIncidents_query Sample.quiet st) as (query & Hreq & Hlimit & _ & _ & Hcode & _);
    [discriminate | discriminate |].
  exists query. split; [exact Hreq|]. split.
  - apply Hlimit. reflexivity.
  - apply Hcode. discriminate.
Defined.

(** C8 as the specification words it fails: a positive value that is not
    an integer is sent as it is, not replaced by 1000. *)
Lemma limit_keeps_positive_fraction :
  let st := Sample.app Sample.base [Sample.neighborhood 1 "A" true] [] []
              (Fin (5 # 2)) Sample.form in
  ~ isPositiveInteger (Filters.maxIncidents (filters st)) /\
  (fetchIncidents Sample.quiet st).2 =
    [GetIncidents Sample.base
       [("limit", PNum (Fin (5 # 2))); ("code", PStr "600"); ("neighborhood", PStr "1")]] /\
  PNum (Fin (5 # 2)) <> PNum (Num.of_Z 1000).
Proof.
  intros st. repeat split.
  - intros (z & _ & Heq). unfold Qeq in Heq. simpl in Heq. lia.
  - discriminate.
Qed.

(** ** Dataset loader *)
Section GroupFacts.
Implicit Types (data : list Code.t) (t : string) (c : Code.t).

Lemma codesOfType_snoc data c t :
  codesOfType (data ++ [c]) t =
  codesOfType data t ++ (if decide (Code.type c = t) then [Code.code c] else []).
Proof.
  unfold codesOfType. rewrite filter_app, map_app. f_equal.
  rewrite filter_cons, filter_nil. destruct (decide _); reflexivity.
Qed.

Lemma codesOfType_absent data t : t ∉ map Code.type data -> codesOfType data t = [].
Proof.
  intros Ht. unfold codesOfType. induction data as [|c data IH]; [reflexivity|].
  simpl in Ht. apply not_elem_of_cons in Ht as [Hne Ht].
  rewrite filter_cons, decide_False by congruence. now apply IH.
Qed.

Lemma codesOfType_elem data t z :
  z ∈ codesOfType data t <-> exists c, c ∈ data /\ Code.type c = t /\ Code.code c = z.
Proof.
  unfold codesOfType. rewrite list_elem_of_fmap. split.
  - intros (c & -> & [? ?]%list_elem_of_filter). now exists c.
  - intros (c & ? & ? & <-). exists c. split; [reflexivity|].
    now apply list_elem_of_filter.
Qed.

Lemma codesOfType_NoDup data t :
  NoDup (map Code.code data) -> NoDup (codesOfType data t).
Proof.
  unfold codesOfType. induction data as [|c data IH]; simpl; [constructor|].
  intros [Hnotin Hnd]%NoDup_cons. rewrite filter_cons.
  destruct (decide _); [|now apply IH]. simpl. apply NoDup_cons. split; [|now apply IH].
  intros (c' & Hc' & [_ Hin]%list_elem_of_filter)%list_elem_of_fmap.
  apply Hnotin. rewrite Hc'. now apply list_elem_of_fmap_2.
Qed.

Lemma addCode_get (m : JsMap.t string Group.t) c t :
  JsMap.get (addCode m c) t =
  if decide (Code.type c = t)
  then Some (Group.push (Code.code c)
               (default (Group.mk (Code.type c) [] true) (JsMap.get m t)))
  else JsMap.get m t.
Proof.
  unfold addCode, JsMap.has. rewrite get_update.
  destruct (decide (Code.type c = t)) as [<-|Hne].
  - destruct (JsMap.get m (Code.type c)) as [g|] eqn:Hget.
    + now rewrite Hget.
    + rewrite get_set, decide_True by reflexivity. reflexivity.
  - destruct (JsMap.get m (Code.type c)); [reflexivity|].
    rewrite get_set. now rewrite decide_False.
Qed.

Lemma addCode_keys_NoDup (m : JsMap.t string Group.t) c :
  NoDup (JsMap.keys m) -> NoDup (JsMap.keys (addCode m c)).
Proof.
  intros Hnd. unfold addCode. rewrite keys_update.
  destruct (JsMap.has m _); [assumption | now apply NoDup_keys_set].
Qed.

Lemma groupsMap_get data t :
  JsMap.get (foldl addCode JsMap.empty data) t =
  if decide (t ∈ map Code.type data) then Some (groupOf data t) else None.
Proof.
  induction data as [|c data IH] using rev_ind; [reflexivity|].
  rewrite foldl_snoc, addCode_get, IH, map_app. simpl.
  unfold groupOf. rewrite codesOfType_snoc.
  destruct (decide (Code.type c = t)) as [<-|Hne].
  - rewrite (decide_True (P := _ ∈ _ ++ _))
      by (apply elem_of_app; right; apply list_elem_of_here).
    destruct (decide (Code.type c ∈ map Code.type data)) as [Hin|Hnot];
      simpl; unfold Group.push; simpl; [reflexivity|].
    now rewrite codesOfType_absent.
  - rewrite app_nil_r.
    destruct (decide (t ∈ map Code.type data)) as [Hin|Hnot].
    + rewrite decide_True; [reflexivity|]. apply elem_of_app. now left.
    + rewrite decide_False; [reflexivity|].
      intros [?|?%list_elem_of_singleton]%elem_of_app; congruence.
Qed.

Lemma groupsMap_NoDup data : NoDup (JsMap.keys (foldl addCode JsMap.empty data)).
Proof.
  induction data as [|c data IH] using rev_ind; [constructor|].
  rewrite foldl_snoc. now apply addCode_keys_NoDup.
Qed.

Lemma groupsMap_keys data t :
  t ∈ JsMap.keys (foldl addCode JsMap.empty data) <-> t ∈ map Code.type data.
Proof.
  rewrite list_elem_of_In, <- has_get. unfold JsMap.has. rewrite groupsMap_get.
  destruct (decide _); split; (assumption || discriminate || reflexivity || tauto).
Qed.

Lemma groupsMap_values data :
  JsMap.values (foldl addCode JsMap.empty data) =
  map (groupOf data) (JsMap.keys (foldl addCode JsMap.empty data)).
Proof.
  apply (inj (map Some)). rewrite values_by_keys by apply groupsMap_NoDup.
  rewrite map_map. apply map_ext_in. intros t Ht%list_elem_of_In%groupsMap_keys.
  rewrite groupsMap_get. now rewrite decide_True.
Qed.
End GroupFacts.

Section LoadCodesSpec.
Variable localeCompare : string -> string -> Z.
Hypothesis collation_total :
  forall a b, localeCompare a b <= 0 \/ localeCompare b a <= 0.
Hypothesis collation_trans :
  forall a b c, localeCompare a b <= 0 -> localeCompare b c <= 0 ->
                localeCompare a c <= 0.

Lemma buildGroups_perm (data : list Code.t) :
  Permutation (buildGroups localeCompare data)
    (map (groupOf data) (JsMap.keys (foldl addCode JsMap.empty data))).
Proof. unfold buildGroups. now rewrite sort_perm, groupsMap_values. Qed.

Lemma buildGroups_elem (data : list Code.t) (g : Group.t) :
  g ∈ buildGroups localeCompare data <->
  exists t, t ∈ map Code.type data /\ g = groupOf data t.
Proof.
  rewrite buildGroups_perm, list_elem_of_fmap. split.
  - intros (t & -> & Ht%groupsMap_keys). now exists t.
  - intros (t & Ht%groupsMap_keys & ->). now exists t.
Qed.

(** C4, as the code has it.  From a fetched code list [loadCodes] makes
    one group for every type that occurs in it, selected, holding the
    codes of the entries of that type in the order of the list, each as
    often as the list has it; the groups are sorted in ascending order of
    their types under the collation of [localeCompare].  Every entry has
    its code in the group of its type.  When no code occurs twice in the
    list, no group holds a code twice and no code is in two groups. *)
Theorem loadCodes_spec (net : services) (st : App) (data : list Code.t) :
  codesService net (baseApiUrl st) = Ok data ->
  let groups := buildGroups localeCompare data in
  loadCodes localeCompare net st =
    (Returned (set_incidentTypeGroups groups (set_codes data st)),
     [GetCodes (baseApiUrl st)]) /\
  StronglySorted
    (fun a b => localeCompare (Group.type a) (Group.type b) <= 0) groups /\
  NoDup (map Group.type groups) /\
  (forall t, t ∈ map Code.type data <-> exists g, g ∈ groups /\ Group.type g = t) /\
  (forall g, g ∈ groups ->
     Group.selected g = true /\ Group.codes g = codesOfType data (Group.type g)) /\
  (forall c, c ∈ data ->
     exists g, g ∈ groups /\ Group.type g = Code.type c /\ Code.code c ∈ Group.codes g) /\
  (NoDup (map Code.code data) ->
     (forall g, g ∈ groups -> NoDup (Group.codes g)) /\
     (forall g1 g2 z, g1 ∈ groups -> g2 ∈ groups ->
        z ∈ Group.codes g1 -> z ∈ Group.codes g2 -> g1 = g2)) /\
  (0 < localeCompare "Theft" "Assault" ->
     buildGroups localeCompare [Code.mk 1 "Theft"; Code.mk 2 "Theft"; Code.mk 3 "Assault"] =
     [Group.mk "Assault" [3] true; Group.mk "Theft" [1; 2] true]).
Proof using collation_total collation_trans.
  intros Hreply groups.
  assert (Helem : forall g, g ∈ groups ->
            exists t, t ∈ map Code.type data /\ g = groupOf data t).
  { intros g Hg. now apply buildGroups_elem. }
  split; [unfold loadCodes; now rewrite Hreply|].
  split.
  { apply (sort_sorted (fun a b => localeCompare (Group.type a) (Group.type b))).
    - intros a b. apply collation_total.
    - intros a b c. apply collation_trans. }
  split.
  { unfold groups. rewrite buildGroups_perm, map_map. simpl. rewrite map_id.
    apply groupsMap_NoDup. }
  split.
  { intros t. split.
    - intros Ht. exists (groupOf data t). split; [|reflexivity].
      apply buildGroups_elem. now exists t.
    - intros (g & (t' & Ht' & ->)%Helem & <-). exact Ht'. }
  split.
  { intros g (t & _ & ->)%Helem. split; reflexivity. }
  split.
  { intros c Hc. exists (groupOf data (Code.type c)). split; [|split].
    - apply buildGroups_elem. exists (Code.type c).
      split; [now apply list_elem_of_fmap_2 | reflexivity].
    - reflexivity.
    - apply codesOfType_elem. now exists c. }
  split.
  { intros Hnd. split.
    - intros g (t & _ & ->)%Helem. now apply codesOfType_NoDup.
    - intros g1 g2 z (t1 & _ & ->)%Helem (t2 & _ & ->)%Helem.
      intros (c1 & Hc1 & <- & Hz1)%codesOfType_elem (c2 & Hc2 & <- & Hz2)%codesOfType_elem.
      rewrite (NoDup_map_eq Code.code data c1 c2 Hnd Hc1 Hc2) by congruence.
      reflexivity. }
  intros Hgt. unfold buildGroups. simpl.
  destruct (Z.leb_spec (localeCompare "Theft" "Assault") 0); [lia | reflexivity].
Qed.
End LoadCodesSpec.

Lemma codeUnitCompare_le (a b : string) :
  Sample.codeUnitCompare a b <= 0 <-> String.le a b.
Proof.
  unfold Sample.codeUnitCompare, String.le, String.leb.
  destruct (String.compare a b); simpl; split; (lia || tauto || constructor).
Qed.

Lemma codeUnitCompare_total (a b : string) :
  Sample.codeUnitCompare a b <= 0 \/ Sample.codeUnitCompare b a <= 0.
Proof. rewrite !codeUnitCompare_le. apply String.le_total. Qed.

Lemma codeUnitCompare_trans (a b c : string) :
  Sample.codeUnitCompare a b <= 0 -> Sample.codeUnitCompare b c <= 0 ->
  Sample.codeUnitCompare a c <= 0.
Proof. rewrite !codeUnitCompare_le. apply transitivity. Qed.

Lemma loadCodes_spec_witness :
  let data := [Code.mk 1 "Theft"; Code.mk 2 "Theft"; Code.mk 3 "Assault"] in
  let net := mkServices (fun _ => Ok data) (fun _ _ => Ok []) (fun _ _ => Ok tt)
               (fun _ => Ok []) in
  let st := Sample.app Sample.base [] [] [] (Num.of_Z 1000) Sample.form in
  buildGroups Sample.codeUnitCompare data =
    [Group.mk "Assault" [3] true; Group.mk "Theft" [1; 2] true] /\
  (forall g, g ∈ buildGroups Sample.codeUnitCompare data -> NoDup (Group.codes g)).
Proof.
  intros data net st.
  destruct (loadCodes_spec Sample.codeUnitCompare codeUnitCompare_total
              codeUnitCompare_trans net st data)
    as (_ & _ & _ & _ & _ & _ & Hdistinct & Hexample); [reflexivity|].
  split.
  - apply Hexample. reflexivity.
  - apply Hdistinct. apply (bool_decide_unpack _). reflexivity.
Defined.

(** C4 as the specification words it fails: a code the fetched list has
    twice is twice in its group, and a code the list has under two types is
    in two groups. *)
Lemma loadCodes_keeps_repeated_codes :
  buildGroups Sample.codeUnitCompare [Code.mk 1 "Theft"; Code.mk 1 "Theft"] =
    [Group.mk "Theft" [1; 1] true] /\
  ~ NoDup [1; 1] /\
  buildGroups Sample.codeUnitCompare [Code.mk 1 "Theft"; Code.mk 1 "Assault"] =
    [Group.mk "Assault" [1] true; Group.mk "Theft" [1] true].
Proof.
  split; [reflexivity|]. split; [|reflexivity].
  intros [Hnotin _]%NoDup_cons. apply Hnotin. apply list_elem_of_here.
Qed.

(** ** Form controller *)
Section SubmitFacts.
Variable StringToNumber : string -> number.
Implicit Types (st : App) (net : services) (f : Form.t).

Lemma isBlank_spec (v : value) : isBlank v = true <-> emptyAfterTrim v.
Proof.
  destruct v as [n|s]; simpl; [split; [discriminate | tauto]|].
  apply bool_decide_eq_true.
Qed.

Lemma requiredFields_blank f :
  existsb isBlank (requiredFields f) = true <-> someFieldEmpty f.
Proof.
  unfold requiredFields, someFieldEmpty. cbn [existsb].
  rewrite !orb_true_iff, !isBlank_spec. simpl. intuition discriminate.
Qed.

Lemma orElse_nonempty (x : string) (d : string) : d <> "" -> orElse (Some x) d <> "".
Proof. intros Hd. destruct x; simpl; [assumption | discriminate]. Qed.

Lemma fetchIncidents_keeps_form net st :
  newIncidentSuccess (fetchIncidents net st).1 = newIncidentSuccess st /\
  newIncidentError (fetchIncidents net st).1 = newIncidentError st.
Proof.
  unfold fetchIncidents. destruct (baseApiUrl st); [split; reflexivity|].
  destruct (inViewIds _ _); [split; reflexivity|].
  destruct (incidentsService net _ _); split; reflexivity.
Qed.

Lemma submit_unconfigured net st :
  baseApiUrl st = "" ->
  submitNewIncident StringToNumber net st =
  (set_newIncidentError "Enter REST API URL first." (cleared st), []).
Proof. intros H. unfold submitNewIncident.
  cbn [baseApiUrl newIncident set_newIncidentSuccess set_newIncidentError]. now rewrite H. Qed.

Lemma submit_blank net st :
  baseApiUrl st <> "" -> someFieldEmpty (newIncident st) ->
  submitNewIncident StringToNumber net st =
  (set_newIncidentError "All fields are required." (cleared st), []).
Proof.
  intros Hbase Hblank%requiredFields_blank. unfold submitNewIncident.
  cbn [baseApiUrl newIncident set_newIncidentSuccess set_newIncidentError].
  destruct (baseApiUrl st); [congruence|]. now rewrite Hblank.
Qed.

Lemma submit_filled net st :
  baseApiUrl st <> "" -> ~ someFieldEmpty (newIncident st) ->
  let payload := payloadOf StringToNumber (newIncident st) in
  let req := PutNewIncident (baseApiUrl st) payload in
  submitNewIncident StringToNumber net st =
  match newIncidentService net (baseApiUrl st) payload with
  | Ok _ =>
      let refreshed :=
        fetchIncidents net
          (set_newIncidentSuccess "Incident successfully added." (cleared st)) in
      (refreshed.1, req :: refreshed.2)
  | NotOk text =>
      (set_newIncidentError
         (orElse (Some (orElse (Some text) "Failed to add incident"))
            "Failed to add incident.") (cleared st), [req])
  | Failed message =>
      (set_newIncidentError (orElse (Some message) "Failed to add incident.")
         (cleared st), [req])
  end.
Proof.
  intros Hbase Hfilled payload req. unfold submitNewIncident.
  cbn [baseApiUrl newIncident set_newIncidentSuccess set_newIncidentError].
  destruct (baseApiUrl st) as [|c base] eqn:E; [congruence|].
  destruct (existsb isBlank _) eqn:Hblank.
  { elim Hfilled. now apply requiredFields_blank. }
  fold payload. unfold req.
  destruct (newIncidentService net _ payload); try reflexivity.
  unfold cleared. rewrite <- E.
  destruct (fetchIncidents net _); reflexivity.
Qed.
End SubmitFacts.

Lemma classic_blank (f : Form.t) : someFieldEmpty f \/ ~ someFieldEmpty f.
Proof.
  destruct (existsb isBlank (requiredFields f)) eqn:E.
  - left. now apply requiredFields_blank.
  - right. intros H%requiredFields_blank. congruence.
Qed.

(** C9, as the code has it.  Without a REST base URL [submitNewIncident]
    fails at once with the message that asks for it, whatever the form
    holds, and issues no request.  With a base URL it fails locally with
    the message that all fields are required, issuing no request, exactly
    when one of the eight fields is empty after trimming.  Otherwise it
    sends one PUT whose body holds the trimmed case number, description and
    block, the date and time as they are, and [Number] of the code, the
    police grid and the neighborhood number; when the backend accepts it,
    the success message is set and the incidents are fetched again; when it
    does not, an error message is set and nothing else changes. *)
Theorem submitNewIncident_spec (StringToNumber : string -> number)
  (net : services) (st : App) :
  let f := newIncident st in
  let st' := (submitNewIncident StringToNumber net st).1 in
  let reqs := (submitNewIncident StringToNumber net st).2 in
  let payload :=
    Payload.mk (Js.trim (Form.case_number f)) (Form.date f) (Form.time f)
      (Number StringToNumber (Form.code f)) (Js.trim (Form.incident f))
      (Number StringToNumber (Form.police_grid f))
      (Number StringToNumber (Form.neighborhood_number f))
      (Js.trim (Form.block f)) in
  let reply := newIncidentService net (baseApiUrl st) payload in
  (baseApiUrl st = "" ->
     reqs = [] /\ newIncidentError st' = "Enter REST API URL first." /\
     newIncidentSuccess st' = "" /\ incidents st' = incidents st) /\
  (baseApiUrl st <> "" ->
     (someFieldEmpty f <-> reqs = []) /\
     (someFieldEmpty f ->
        newIncidentError st' = "All fields are required." /\
        newIncidentSuccess st' = "" /\ incidents st' = incidents st) /\
     (~ someFieldEmpty f ->
        exists rest,
          reqs = PutNewIncident (baseApiUrl st) payload :: rest /\
          (forall u, reply = Ok u ->
             let refreshed :=
               fetchIncidents net
                 (set_newIncidentSuccess "Incident successfully added." (cleared st)) in
             st' = refreshed.1 /\ rest = refreshed.2 /\
             newIncidentSuccess st' = "Incident successfully added." /\
             newIncidentError st' = "") /\
          ((exists text, reply = NotOk text) \/ (exists message, reply = Failed message) ->
             rest = [] /\ newIncidentError st' <> "" /\
             newIncidentSuccess st' = "" /\ incidents st' = incidents st))).
Proof.
  intros f st' reqs payload reply. split.
  { intros Hbase. unfold st', reqs. rewrite submit_unconfigured by assumption.
    repeat split. }
  intros Hbase.
  assert (Hblank : someFieldEmpty f ->
            submitNewIncident StringToNumber net st =
            (set_newIncidentError "All fields are required." (cleared st), [])).
  { intros Hf. now apply submit_blank. }
  assert (Hfilled : ~ someFieldEmpty f ->
            submitNewIncident StringToNumber net st =
            match reply with
            | Ok _ =>
                let refreshed :=
                  fetchIncidents net
                    (set_newIncidentSuccess "Incident successfully added." (cleared st)) in
                (refreshed.1, PutNewIncident (baseApiUrl st) payload :: refreshed.2)
            | NotOk text =>
                (set_newIncidentError
                   (orElse (Some (orElse (Some text) "Failed to add incident"))
                      "Failed to add incident.") (cleared st),
                 [PutNewIncident (baseApiUrl st) payload])
            | Failed message =>
                (set_newIncidentError (orElse (Some message) "Failed to add incident.")
                   (cleared st), [PutNewIncident (baseApiUrl st) payload])
            end).
  { intros Hf. now apply submit_filled. }
  split; [|split].
  - split.
    + intros Hf. unfold reqs. now rewrite Hblank.
    + intros Hreqs. destruct (classic_blank f) as [Hf|Hf]; [assumption|].
      unfold reqs in Hreqs. rewrite (Hfilled Hf) in Hreqs.
      destruct reply; discriminate Hreqs.
  - intros Hf. unfold st'. rewrite (Hblank Hf). repeat split.
  - intros Hf. unfold st', reqs. rewrite (Hfilled Hf).
    destruct reply as [u|text|message] eqn:Hreply.
    + eexists. split; [reflexivity|]. split.
      * intros _ _. cbn [fst snd].
        destruct (fetchIncidents_keeps_form net
                    (set_newIncidentSuccess "Incident successfully added." (cleared st)))
          as [Hs He].
        repeat split; assumption.
      * intros [[? [=]]|[? [=]]].
    + eexists. split; [reflexivity|]. split; [intros ? [=]|].
      intros _. cbn [fst snd]. repeat split.
      simpl. apply orElse_nonempty. discriminate.
    + eexists. split; [reflexivity|]. split; [intros ? [=]|].
      intros _. cbn [fst snd]. repeat split.
      simpl. apply orElse_nonempty. discriminate.
Qed.

Lemma sample_form_filled : ~ someFieldEmpty Sample.form.
Proof.
  intros H. apply requiredFields_blank in H. discriminate H.
Qed.

Lemma submitNewIncident_spec_witness :
  let st := Sample.app Sample.base [Sample.neighborhood 1 "A" true] [] []
              (Num.of_Z 1000) Sample.form in
  let payload :=
    Payload.mk "24000001" "2024-01-01" "12:00" (Num.of_Z 600) "Theft"
      (Num.of_Z 87) (Num.of_Z 1) "98X UNIVERSITY AV W" in
  exists rest,
    (submitNewIncident Sample.toNumber Sample.quiet st).2 =
      PutNewIncident Sample.base payload :: rest /\
    rest = (fetchIncidents Sample.quiet
              (set_newIncidentSuccess "Incident successfully added." (cleared st))).2.
Proof.
  intros st payload.
  destruct (submitNewIncident_spec Sample.toNumber Sample.quiet st) as [_ Hset].
  destruct Hset as (_ & _ & Hfilled); [discriminate|].
  destruct Hfilled as (rest & Hreqs & Hok & _); [exact sample_form_filled|].
  exists rest. split; [exact Hreqs|].
  destruct (Hok tt) as (_ & Hrest & _); [reflexivity | exact Hrest].
Defined.

(** C9 as the specification words it fails: with no REST base URL the
    submission of a completely filled form fails locally without a request,
    and the submission of an empty form fails with another message than the
    one of the field check. *)
Lemma submit_without_base_url :
  let filled := Sample.app "" [] [] [] (Num.of_Z 1000) Sample.form in
  let empty := Sample.app "" [] [] [] (Num.of_Z 1000) Sample.emptyForm in
  (~ someFieldEmpty (newIncident filled) /\
   (submitNewIncident Sample.toNumber Sample.quiet filled).2 = [] /\
   newIncidentError (submitNewIncident Sample.toNumber Sample.quiet filled).1 =
     "Enter REST API URL first.") /\
  (someFieldEmpty (newIncident empty) /\
   (submitNewIncident Sample.toNumber Sample.quiet empty).2 = [] /\
   newIncidentError (submitNewIncident Sample.toNumber Sample.quiet empty).1 <>
     "All fields are required.").
Proof.
  intros filled empty. split.
  - split; [exact sample_form_filled|]. split; reflexivity.
  - split; [left; reflexivity|]. split; [reflexivity | discriminate].
Qed.


(* ================================================================== *)
(** * Part III: further properties of the component *)
(* ================================================================== *)

(** ** Categorisation, continued *)
Section CategoryFacts.
Implicit Types (s a b k : string) (c : ascii).

Lemma toLowerChar_idempotent c : Js.toLowerChar (Js.toLowerChar c) = Js.toLowerChar c.
Proof. destruct c as [[] [] [] [] [] [] [] []]; reflexivity. Qed.

Lemma toLowerCase_idempotent s : Js.toLowerCase (Js.toLowerCase s) = Js.toLowerCase s.
Proof.
  induction s as [|c s IH]; [reflexivity|]. simpl.
  now rewrite toLowerChar_idempotent, IH.
Qed.

Lemma categorize_by_text ty txt ty' txt' :
  crimeText ty txt = crimeText ty' txt' -> categorizeCrime ty txt = categorizeCrime ty' txt'.
Proof. unfold categorizeCrime. now intros ->. Qed.

Lemma crimeText_parts ty txt :
  crimeText ty txt = Js.toLowerCase ty +:+ " " +:+ Js.toLowerCase (default "" txt).
Proof. unfold crimeText. now rewrite !toLowerCase_app. Qed.

Lemma categorize_violent ty txt :
  categorizeCrime ty txt = violent <->
  exists k, In k violentKeywords /\ Occurs k (crimeText ty txt).
Proof.
  rewrite <- keyword_search. unfold categorizeCrime.
  destruct (existsb _ violentKeywords); [tauto|].
  destruct (existsb _ propertyKeywords); split; discriminate.
Qed.

Lemma categorize_property ty txt :
  categorizeCrime ty txt = property <->
  ~ (exists k, In k violentKeywords /\ Occurs k (crimeText ty txt)) /\
  exists k, In k propertyKeywords /\ Occurs k (crimeText ty txt).
Proof.
  rewrite <- !keyword_search. unfold categorizeCrime.
  destruct (existsb _ violentKeywords).
  - split; [discriminate|]. intros [H _]. now elim H.
  - destruct (existsb _ propertyKeywords).
    + split; [intros _; split; [discriminate | reflexivity] | reflexivity].
    + split; [discriminate|]. intros [_ H]. discriminate H.
Qed.

Lemma Occurs_inside k s pre post : Occurs k s -> Occurs k (pre +:+ s +:+ post).
Proof.
  intros (a & b & ->). exists (pre +:+ a), (b +:+ post). now rewrite !app_assoc_s.
Qed.

Lemma Occurs_trans k k' s : Occurs k k' -> Occurs k' s -> Occurs k s.
Proof. intros Hk (a & b & ->). now apply Occurs_inside. Qed.
End CategoryFacts.

(** X1. The category depends on the letters of the type and of the
    description, not on their case, and a missing description counts as an
    empty one. *)
Theorem categorizeCrime_case_insensitive (ty ty' : string) (txt txt' : option string) :
  Js.toLowerCase ty = Js.toLowerCase ty' ->
  Js.toLowerCase (default "" txt) = Js.toLowerCase (default "" txt') ->
  categorizeCrime ty txt = categorizeCrime ty' txt'.
Proof.
  intros Hty Htxt. apply categorize_by_text. rewrite !crimeText_parts. congruence.
Qed.

Lemma categorizeCrime_case_insensitive_witness :
  categorizeCrime "THEFT" None = categorizeCrime "Theft" (Some "").
Proof. apply categorizeCrime_case_insensitive; reflexivity. Defined.

Section JoinFacts.
Implicit Types (s a b k post : string).

(** No character of [k] is a space. *)
Let spaceless k : Prop := Js.all (fun c => negb (Ascii.eqb c " ")) k = true.

Lemma prefix_of_join k post a b :
  spaceless k -> k +:+ post = a +:+ " " +:+ b -> exists post', a = k +:+ post'.
Proof.
  unfold spaceless. revert a. induction k as [|y k IH]; intros a Hk Heq.
  - now exists a.
  - simpl in Hk. apply andb_true_iff in Hk as [Hy Hk]. destruct a as [|x a].
    + change ("" +:+ " " +:+ b) with (String " " b) in Heq.
      rewrite app_String in Heq. injection Heq as -> _. discriminate Hy.
    + rewrite !app_String in Heq. injection Heq as -> Heq.
      destruct (IH a Hk Heq) as [post' ->]. now exists post'.
Qed.

Lemma Occurs_join k a b :
  spaceless k -> Occurs k (a +:+ " " +:+ b) -> Occurs k a \/ Occurs k b.
Proof.
  intros Hk (pre & post & Heq). revert a Heq.
  induction pre as [|c pre IH]; intros a Heq.
  - change ("" +:+ k +:+ post) with (k +:+ post) in Heq. symmetry in Heq.
    destruct (prefix_of_join k post a b Hk Heq) as [post' ->].
    left. now exists "", post'.
  - destruct a as [|x a].
    + change ("" +:+ " " +:+ b) with (String " " b) in Heq.
      rewrite app_String in Heq. injection Heq as _ ->.
      right. now exists pre, post.
    + rewrite !app_String in Heq. injection Heq as -> Heq.
      destruct (IH a Heq) as [(p & q & ->)|Hb]; [left | now right].
      exists (String c p), q. now rewrite app_String.
Qed.

Lemma Occurs_join_iff k a b :
  spaceless k -> Occurs k (a +:+ " " +:+ b) <-> Occurs k a \/ Occurs k b.
Proof.
  intros Hk. split; [now apply Occurs_join|].
  intros [(p & q & ->)|(p & q & ->)].
  - exists p, (q +:+ " " +:+ b). now rewrite !app_assoc_s.
  - exists (a +:+ " " +:+ p), q. now rewrite !app_assoc_s.
Qed.

Lemma violent_spaceless k : In k violentKeywords -> spaceless k.
Proof. intros Hk. repeat (destruct Hk as [<-|Hk]; [reflexivity|]). destruct Hk. Qed.

Lemma deciding_spaceless k : In k decidingPropertyKeywords -> spaceless k.
Proof. intros Hk. repeat (destruct Hk as [<-|Hk]; [reflexivity|]). destruct Hk. Qed.

Lemma keyword_in_parts (keywords : list string) ty txt :
  (forall k, In k keywords -> spaceless k) ->
  (exists k, In k keywords /\ Occurs k (crimeText ty txt)) <->
  (exists k, In k keywords /\
     (Occurs k (Js.toLowerCase ty) \/ Occurs k (Js.toLowerCase (default "" txt)))).
Proof.
  intros Hsp. rewrite crimeText_parts.
  split; intros (k & Hk & H); exists k; (split; [assumption|]);
    now apply (Occurs_join_iff k _ _ (Hsp k Hk)).
Qed.
End JoinFacts.

Lemma deciding_keywords ty txt :
  ~ (exists k, In k violentKeywords /\ Occurs k (crimeText ty txt)) ->
  (exists k, In k propertyKeywords /\ Occurs k (crimeText ty txt)) <->
  (exists k, In k decidingPropertyKeywords /\ Occurs k (crimeText ty txt)).
Proof.
  intros Hnv. split; intros (k & Hk & Hocc).
  - assert (Hcases : k = "robbery" \/ k = "damage to property" \/
                     k = "motor vehicle theft" \/ In k decidingPropertyKeywords).
    { unfold propertyKeywords, decidingPropertyKeywords in *. simpl in *. intuition. }
    destruct Hcases as [-> | [-> | [-> | Hd]]].
    + elim Hnv. exists "robbery". split; [|assumption]. simpl. tauto.
    + exists "property". split; [simpl; tauto|].
      apply (Occurs_trans _ "damage to property"); [|assumption].
      now exists "damage to ", "".
    + exists "theft". split; [simpl; tauto|].
      apply (Occurs_trans _ "motor vehicle theft"); [|assumption].
      now exists "motor vehicle ", "".
    + now exists k.
  - exists k. split; [|assumption].
    unfold propertyKeywords, decidingPropertyKeywords in *. simpl in *. intuition.
Qed.

(** X2. The space that joins the type and the description never makes a
    keyword: an incident is violent exactly when a violent keyword occurs in
    the lower-cased type or in the lower-cased description, and it is
    [other] exactly when neither holds a violent keyword nor one of the
    deciding property keywords. *)
Theorem categorizeCrime_componentwise (ty : string) (txt : option string) :
  let inParts keywords :=
    exists k, In k keywords /\
      (Occurs k (Js.toLowerCase ty) \/ Occurs k (Js.toLowerCase (default "" txt))) in
  (categorizeCrime ty txt = violent <-> inParts violentKeywords) /\
  (categorizeCrime ty txt = property <->
     ~ inParts violentKeywords /\ inParts decidingPropertyKeywords) /\
  (categorizeCrime ty txt = other <->
     ~ inParts violentKeywords /\ ~ inParts decidingPropertyKeywords).
Proof.
  intros inParts.
  assert (HV : categorizeCrime ty txt = violent <-> inParts violentKeywords).
  { rewrite categorize_violent. apply keyword_in_parts, violent_spaceless. }
  assert (HP : categorizeCrime ty txt = property <->
               ~ inParts violentKeywords /\ inParts decidingPropertyKeywords).
  { rewrite categorize_property, <- HV, categorize_violent. split.
    - intros [Hnv Hp]. split; [assumption|].
      apply keyword_in_parts; [apply deciding_spaceless|]. now apply deciding_keywords.
    - intros [Hnv Hp]. split; [assumption|]. apply deciding_keywords; [assumption|].
      now apply keyword_in_parts in Hp; [|apply deciding_spaceless]. }
  split; [exact HV|]. split; [exact HP|].
  rewrite <- HV. split.
  - intros Hother. split; [congruence|].
    intros Hp. assert (categorizeCrime ty txt = property); [|congruence].
    apply HP. split; [|assumption]. rewrite <- HV. congruence.
  - intros [Hnv Hnp]. destruct (categorizeCrime ty txt) eqn:E; [now elim Hnv | | reflexivity].
    elim Hnp. now apply HP.
Qed.

(** X3. Three of the twelve property keywords never decide a category:
    "robbery" is caught by the violent list first, and "damage to property"
    and "motor vehicle theft" contain the keywords "property" and "theft".
    An incident is [property] exactly when no violent keyword occurs in its
    text and one of the other nine does. *)
Theorem property_keywords_that_decide (ty : string) (txt : option string) :
  let text := Js.toLowerCase (ty +:+ " " +:+ default "" txt) in
  categorizeCrime ty txt = property <->
  ~ (exists k, In k violentKeywords /\ Occurs k text) /\
  exists k, In k decidingPropertyKeywords /\ Occurs k text.
Proof.
  intros text. rewrite categorize_property. fold (crimeText ty txt). fold text.
  split; intros [Hnv Hp]; (split; [assumption|]); now apply deciding_keywords.
Qed.

(** ** The incident query, continued *)
Section FetchFacts.
Implicit Types (st : App) (net : services) (row : Row.t).

Lemma orElse_some (x d : string) :
  orElse (Some x) d = if decide (x = "") then d else x.
Proof. destruct x; reflexivity. Qed.

Lemma codeToType_get (cs : list Code.t) (k : Z) :
  JsMap.get (codeToType cs) k = Code.type <$> lastCode cs k.
Proof.
  unfold codeToType, lastCode. induction cs as [|c cs IH] using rev_ind; [reflexivity|].
  rewrite foldl_snoc, get_set, filter_app, filter_cons, filter_nil.
  destruct (decide (Code.code c = k)).
  - now rewrite last_snoc.
  - now rewrite app_nil_r.
Qed.

Lemma neighborhoodMap_get (nbs : list Neighborhood.t) (k : Z) :
  JsMap.get (neighborhoodMap nbs) k = Neighborhood.name <$> lastNeighborhood nbs k.
Proof.
  unfold neighborhoodMap, lastNeighborhood.
  induction nbs as [|n nbs IH] using rev_ind; [reflexivity|].
  rewrite foldl_snoc, get_set, filter_app, filter_cons, filter_nil.
  destruct (decide (Neighborhood.id n = k)).
  - now rewrite last_snoc.
  - now rewrite app_nil_r.
Qed.

Lemma orElse_Unknown (x : option string) : orElse x "Unknown" <> "".
Proof. destruct x as [[|c s]|]; discriminate. Qed.

Lemma update_consistent st : Consistent (updateNeighborhoodCountsFromIncidents st).
Proof.
  unfold Consistent, updateNeighborhoodCountsFromIncidents.
  cbn [neighborhoods incidents set_neighborhoods].
  apply Forall_forall. intros n' [n [<- Hn]]%list_elem_of_In%in_map_iff.
  destruct (recount_recounted (neighborhoods st) (incidents st) n Hn)
    as (Hid & _ & _ & _ & _ & Hcrimes & _).
  now rewrite Hid.
Qed.

Lemma fetchIncidents_run net st :
  queries st ->
  let st0 := set_loadError "" (set_isLoadingCrimes true st) in
  let query :=
    incidentParams (filters st) (selectedCodes (incidentTypeGroups st))
      (inViewIds (neighborhoods st) (visibleNeighborhoodIds st)) in
  fetchIncidents net st =
  (match incidentsService net (baseApiUrl st) query with
   | Ok data =>
       set_isLoadingCrimes false
         (updateNeighborhoodCountsFromIncidents
            (set_incidents (map (enrich st) data) st0))
   | NotOk text =>
       set_isLoadingCrimes false
         (set_loadError (orElse (Some text) "Failed to fetch incidents") st0)
   | Failed message =>
       set_isLoadingCrimes false
         (set_loadError (orElse (Some message) "Failed to fetch incidents") st0)
   end, [GetIncidents (baseApiUrl st) query]).
Proof.
  intros [Hbase Hids] st0 query. unfold fetchIncidents. subst st0 query.
  destruct (baseApiUrl st) as [|c base]; [congruence|].
  cbn [neighborhoods visibleNeighborhoodIds incidentTypeGroups filters
       set_loadError set_isLoadingCrimes].
  destruct (inViewIds _ _) as [|i ids]; [congruence|].
  destruct (incidentsService net _ _); reflexivity.
Qed.
End FetchFacts.

(** X4. A returned row becomes an incident that keeps the row, bears as
    type the type of the last code entry with its code, and as neighborhood
    name the name of the last neighborhood with its number; where there is
    none, or its text is empty, the text is "Unknown", so neither text is
    ever empty.  Its category is the one of that type and of the description
    of the row. *)
Theorem enrich_lookup (st : App) (row : Row.t) :
  let i := enrich st row in
  Incident.row i = row /\
  Incident.incident_type i =
    match lastCode (codes st) (Row.code row) with
    | Some c => if decide (Code.type c = "") then "Unknown" else Code.type c
    | None => "Unknown"
    end /\
  Incident.neighborhood_name i =
    match lastNeighborhood (neighborhoods st) (Row.neighborhood_number row) with
    | Some n => if decide (Neighborhood.name n = "") then "Unknown" else Neighborhood.name n
    | None => "Unknown"
    end /\
  Incident.incident_type i <> "" /\
  Incident.neighborhood_name i <> "" /\
  Incident.category i = categorizeCrime (Incident.incident_type i) (Row.incident row).
Proof.
  intros i. unfold i, enrich. cbn [Incident.row Incident.incident_type
    Incident.neighborhood_name Incident.category].
  rewrite codeToType_get, neighborhoodMap_get.
  split; [reflexivity|]. split.
  { destruct (lastCode _ _) as [c|]; [apply orElse_some | reflexivity]. }
  split.
  { destruct (lastNeighborhood _ _) as [n|]; [apply orElse_some | reflexivity]. }
  split; [apply orElse_Unknown|]. split; [apply orElse_Unknown | reflexivity].
Qed.

(** X5. When the backend answers the query with rows, the incident list
    is replaced by the enriched rows, in the order of the answer; the error
    message is empty, loading is over, and every neighborhood shows the
    number of the new incidents that bear its id. *)
Theorem fetchIncidents_success (net : services) (st : App) (data : list Row.t) :
  queries st ->
  incidentsService net (baseApiUrl st)
    (incidentParams (filters st) (selectedCodes (incidentTypeGroups st))
       (inViewIds (neighborhoods st) (visibleNeighborhoodIds st))) = Ok data ->
  let st' := (fetchIncidents net st).1 in
  incidents st' = map (enrich st) data /\
  map Incident.row (incidents st') = data /\
  loadError st' = "" /\ isLoadingCrimes st' = false /\
  Forall2 (recounted (incidents st')) (neighborhoods st) (neighborhoods st') /\
  Consistent st'.
Proof.
  intros Hq Hreply st'. unfold st'. rewrite (fetchIncidents_run net st Hq), Hreply.
  cbn [fst]. set (st1 := set_incidents _ _).
  assert (Hinc : incidents (set_isLoadingCrimes false
                   (updateNeighborhoodCountsFromIncidents st1)) = map (enrich st) data)
    by reflexivity.
  split; [exact Hinc|]. split.
  { rewrite Hinc, map_map. cbn [enrich Incident.row]. apply map_id. }
  split; [reflexivity|]. split; [reflexivity|]. split.
  - rewrite Hinc. apply Forall2_map_in. intros n Hn.
    apply (recount_recounted (neighborhoods st1) (incidents st1) n Hn).
  - apply (update_consistent st1).
Qed.

Lemma fetchIncidents_success_witness :
  let net := mkServices (fun _ => Ok []) (fun _ _ => Ok [Sample.row 1; Sample.row 7])
               (fun _ _ => Ok tt) (fun _ => Ok []) in
  let st := Sample.app Sample.base [Sample.neighborhood 1 "A" true] [] []
              (Num.of_Z 1000) Sample.form in
  map Incident.row (incidents (fetchIncidents net st).1) = [Sample.row 1; Sample.row 7] /\
  Consistent (fetchIncidents net st).1.
Proof.
  intros net st.
  destruct (fetchIncidents_success net st [Sample.row 1; Sample.row 7])
    as (_ & Hrows & _ & _ & _ & Hcons); [split; discriminate | reflexivity |].
  split; [exact Hrows | exact Hcons].
Defined.

(** X6. When the backend refuses the query or cannot be reached, the
    incident list and the neighborhoods stay as they were; the error message
    is the text of the answer or of the failure, and "Failed to fetch
    incidents" when that text is empty; loading is over. *)
Theorem fetchIncidents_failure (net : services) (st : App) (text : string) :
  queries st ->
  (let reply :=
     incidentsService net (baseApiUrl st)
       (incidentParams (filters st) (selectedCodes (incidentTypeGroups st))
          (inViewIds (neighborhoods st) (visibleNeighborhoodIds st))) in
   reply = NotOk text \/ reply = Failed text) ->
  let st' := (fetchIncidents net st).1 in
  incidents st' = incidents st /\ neighborhoods st' = neighborhoods st /\
  loadError st' = (if decide (text = "") then "Failed to fetch incidents" else text) /\
  loadError st' <> "" /\ isLoadingCrimes st' = false /\
  length (fetchIncidents net st).2 = 1%nat.
Proof.
  intros Hq Hreply st'. unfold st'. rewrite (fetchIncidents_run net st Hq).
  assert (Hne : orElse (Some text) "Failed to fetch incidents" <> "").
  { rewrite orElse_some. destruct (decide (text = "")); [discriminate | assumption]. }
  destruct Hreply as [-> | ->]; cbn [fst snd];
    (repeat split; [apply orElse_some | exact Hne]).
Qed.

Lemma fetchIncidents_failure_witness :
  let st := Sample.app Sample.base [Sample.neighborhood 1 "A" true]
              [Sample.incident 1] [] (Num.of_Z 1000) Sample.form in
  incidents (fetchIncidents (rest Demo.down) st).1 = [Sample.incident 1] /\
  loadError (fetchIncidents (rest Demo.down) st).1 = "Failed to fetch".
Proof.
  intros st.
  destruct (fetchIncidents_failure (rest Demo.down) st "Failed to fetch")
    as (Hinc & _ & Herr & _); [split; discriminate | right; reflexivity |].
  split; [exact Hinc | exact Herr].
Defined.


Section FrameFacts.
Implicit Types (st : App) (net : services) (nbs : list Neighborhood.t).

Lemma identity_recount (counts : JsMap.t Z nat) n : identity (recount counts n) = identity n.
Proof. reflexivity. Qed.

Lemma identity_ids nbs nbs' :
  map identity nbs = map identity nbs' -> map Neighborhood.id nbs = map Neighborhood.id nbs'.
Proof.
  intros H. apply (f_equal (map (fun x => x.1.1.1.1))) in H.
  now rewrite !map_map in H.
Qed.

Lemma identity_selected nbs nbs' :
  map identity nbs = map identity nbs' ->
  selectedNeighborhoodIds nbs = selectedNeighborhoodIds nbs'.
Proof.
  unfold selectedNeighborhoodIds. revert nbs'.
  induction nbs as [|n nbs IH]; intros [|n' nbs'] H; try discriminate H; [reflexivity|].
  simpl in H. injection H as Hid _ _ _ Hsel Htail.
  rewrite !filter_cons, Hsel. destruct (decide _); simpl; rewrite ?Hid; now rewrite (IH nbs').
Qed.

Lemma identity_inViewIds nbs nbs' visible :
  map identity nbs = map identity nbs' -> inViewIds nbs visible = inViewIds nbs' visible.
Proof.
  intros H. unfold inViewIds, baseNeighborhoodIds.
  now rewrite (identity_selected nbs nbs' H), (identity_ids nbs nbs' H).
Qed.

(** The requests of [fetchIncidents] are read off the settings. *)
Lemma fetchIncidents_requests net st :
  (fetchIncidents net st).2 =
  match baseApiUrl st, inViewIds (neighborhoods st) (visibleNeighborhoodIds st) with
  | EmptyString, _ | _, [] => []
  | base, ids =>
      [GetIncidents base
         (incidentParams (filters st) (selectedCodes (incidentTypeGroups st)) ids)]
  end.
Proof.
  unfold fetchIncidents. destruct (baseApiUrl st) as [|c base]; [reflexivity|].
  cbn [neighborhoods visibleNeighborhoodIds incidentTypeGroups filters
       set_loadError set_isLoadingCrimes].
  destruct (inViewIds _ _) as [|i ids]; [reflexivity|].
  destruct (incidentsService net _ _); reflexivity.
Qed.

Lemma sameSettings_requests net net' st st' :
  sameSettings st st' -> (fetchIncidents net' st').2 = (fetchIncidents net st).2.
Proof.
  intros (Hbase & _ & Hgroups & Hnbs & Hvis & Hfilters & _).
  rewrite !fetchIncidents_requests, Hbase, Hgroups, Hvis, Hfilters.
  now rewrite (identity_inViewIds _ _ (visibleNeighborhoodIds st) Hnbs).
Qed.

Lemma update_sameSettings st : sameSettings st (updateNeighborhoodCountsFromIncidents st).
Proof.
  unfold sameSettings, updateNeighborhoodCountsFromIncidents.
  cbn [baseApiUrl codes incidentTypeGroups neighborhoods visibleNeighborhoodIds
       filters newIncident set_neighborhoods].
  repeat split. rewrite map_map. apply map_ext. intros n. apply identity_recount.
Qed.

Lemma fetchIncidents_sameSettings net st : sameSettings st (fetchIncidents net st).1.
Proof.
  unfold fetchIncidents. destruct (baseApiUrl st) as [|c base] eqn:E.
  { unfold sameSettings. cbn [fst]. tauto. }
  destruct (inViewIds _ _) as [|i ids].
  { cbn [fst].
    destruct (update_sameSettings
                (set_incidents [] (set_loadError "" (set_isLoadingCrimes true st))))
      as (H1 & H2 & H3 & H4 & H5 & H6 & H7).
    repeat split; assumption. }
  destruct (incidentsService net _ _) as [data|text|message]; cbn [fst].
  - match goal with |- sameSettings _ (set_isLoadingCrimes false
                         (updateNeighborhoodCountsFromIncidents ?s)) =>
      destruct (update_sameSettings s) as (H1 & H2 & H3 & H4 & H5 & H6 & H7)
    end.
    repeat split; assumption.
  - repeat split.
  - repeat split.
Qed.
End FrameFacts.

(** X7. [fetchIncidents] leaves every setting alone: the base URL, the
    codes, the type groups and their selection, the neighborhoods apart from
    their counts and popups, the visible ids, the filters, and the form with
    its two messages.  It issues one request at most.  Run again on the
    state it leaves, whatever the backend answered, it asks what it asked
    before. *)
Theorem fetchIncidents_frame (net net' : services) (st : App) :
  let st' := (fetchIncidents net st).1 in
  sameSettings st st' /\
  newIncidentError st' = newIncidentError st /\
  newIncidentSuccess st' = newIncidentSuccess st /\
  (length (fetchIncidents net st).2 <= 1)%nat /\
  (fetchIncidents net' st').2 = (fetchIncidents net st).2.
Proof.
  intros st'. pose proof (fetchIncidents_sameSettings net st) as Hsame.
  destruct (fetchIncidents_keeps_form net st) as [Hs He].
  split; [exact Hsame|]. split; [exact He|]. split; [exact Hs|]. split.
  - rewrite fetchIncidents_requests.
    destruct (baseApiUrl st); [simpl; lia|]. destruct (inViewIds _ _); simpl; lia.
  - now apply sameSettings_requests.
Qed.

(** ** The aggregator, continued *)
Section RecountFacts.
Implicit Types (st : App) (nbs : list Neighborhood.t) (incs : list Incident.t).

Lemma zeroCounts_by_ids nbs :
  zeroCounts nbs =
  foldl (fun counts k => JsMap.set counts k 0%nat) JsMap.empty (map Neighborhood.id nbs).
Proof.
  unfold zeroCounts. generalize (@JsMap.empty Z nat).
  induction nbs as [|n nbs IH]; intros m; [reflexivity|]. simpl. apply IH.
Qed.

Lemma crimeCounts_by_ids nbs nbs' incs :
  map Neighborhood.id nbs = map Neighborhood.id nbs' ->
  crimeCounts nbs incs = crimeCounts nbs' incs.
Proof. intros H. unfold crimeCounts. now rewrite !zeroCounts_by_ids, H. Qed.

Lemma recount_twice (counts : JsMap.t Z nat) n :
  recount counts (recount counts n) = recount counts n.
Proof. unfold recount. simpl. destruct (Neighborhood.marker n); reflexivity. Qed.

Lemma matching_le incs k : (matching incs k <= length incs)%nat.
Proof. unfold matching. apply length_filter. Qed.
End RecountFacts.

(** X8. Recomputing the counts twice is recomputing them once, and no
    neighborhood is ever given a count above the number of incidents. *)
Theorem updateNeighborhoodCounts_idempotent (st : App) :
  updateNeighborhoodCountsFromIncidents (updateNeighborhoodCountsFromIncidents st) =
    updateNeighborhoodCountsFromIncidents st /\
  Forall (fun n => (Neighborhood.crimes n <= length (incidents st))%nat)
    (neighborhoods (updateNeighborhoodCountsFromIncidents st)).
Proof.
  split.
  - unfold updateNeighborhoodCountsFromIncidents.
    cbn [neighborhoods incidents set_neighborhoods baseApiUrl codes incidentTypeGroups
         visibleNeighborhoodIds isLoadingCrimes loadError filters newIncident
         newIncidentError newIncidentSuccess].
    set (counts := crimeCounts (neighborhoods st) (incidents st)).
    assert (Hcounts : crimeCounts (map (recount counts) (neighborhoods st)) (incidents st)
                      = counts).
    { apply crimeCounts_by_ids. rewrite map_map. reflexivity. }
    rewrite Hcounts, map_map.
    assert (Hmap : map (fun n => recount counts (recount counts n)) (neighborhoods st) =
                   map (recount counts) (neighborhoods st)).
    { apply map_ext. intros n. apply recount_twice. }
    rewrite Hmap. reflexivity.
  - pose proof (update_consistent st) as Hc. unfold Consistent in Hc.
    eapply Forall_impl; [exact Hc|]. intros n ->. apply matching_le.
Qed.

(** X9. The groups [loadCodes] builds are all selected, so the code filter
    they give holds exactly the codes of the fetched list: until the user
    unchecks a type, the query names every known code, and names none when
    the list is empty. *)
Theorem selectedCodes_after_loadCodes (localeCompare : string -> string -> Z)
  (data : list Code.t) (c : Z) :
  c ∈ selectedCodes (buildGroups localeCompare data) <-> c ∈ map Code.code data.
Proof.
  rewrite selectedCodes_spec. split.
  - intros (g & (t & _ & ->)%buildGroups_elem & _ & (x & Hx & _ & <-)%codesOfType_elem).
    now apply list_elem_of_fmap_2.
  - intros (x & -> & Hx)%list_elem_of_fmap.
    assert (Hg : groupOf data (Code.type x) ∈ buildGroups localeCompare data).
    { apply buildGroups_elem. exists (Code.type x).
      split; [now apply list_elem_of_fmap_2 | reflexivity]. }
    exists (groupOf data (Code.type x)). split; [exact Hg|]. split.
    + apply selectedTypes_spec. now exists (groupOf data (Code.type x)).
    + apply codesOfType_elem. now exists x.
Qed.

(** ** Neighborhoods and the viewport *)
Section ViewportFacts.
Implicit Types (st : App) (m : MapState.t) (b : Viewport.t) (n : Neighborhood.t).

Lemma leq_spec (x y : number) : leq x y = true <-> Num.le x y.
Proof.
  destruct x as [| |p|], y as [| |q|]; simpl; try tauto;
    try (split; [discriminate | tauto]).
  rewrite negb_involutive. apply Qle_bool_iff.
Qed.

Lemma inView_spec b n : inView b n = true <-> within b n.
Proof. unfold inView, within. rewrite !andb_true_iff, !leq_spec. tauto. Qed.

Lemma map_imap_eq {A B C} (f : nat -> A -> B) (g : B -> C) (h : A -> C) (l : list A) :
  (forall i x, g (f i x) = h x) -> map g (imap f l) = map h l.
Proof.
  revert f. induction l as [|x l IH]; intros f H; [reflexivity|].
  simpl. rewrite H. f_equal. apply IH. intros i y. apply H.
Qed.

Lemma table_in_box :
  Forall (fun c => insideBox (LatLng.mk c.1 c.2)) neighborhoodMarkerCoords.
Proof.
  unfold neighborhoodMarkerCoords.
  repeat (apply Forall_cons; split;
          [unfold insideBox; simpl; repeat split; discriminate|]).
  apply Forall_nil_2.
Qed.

Lemma all_selected_candidates (nbs : list Neighborhood.t) :
  Forall (fun n => Neighborhood.selected n = true) nbs ->
  baseNeighborhoodIds nbs = map Neighborhood.id nbs.
Proof.
  intros Hall. unfold baseNeighborhoodIds, selectedNeighborhoodIds.
  replace (filter _ nbs) with nbs; [now destruct (map Neighborhood.id nbs)|].
  induction Hall as [|n l Hn _ IH]; [reflexivity|].
  rewrite filter_cons, decide_True by assumption. now f_equal.
Qed.
End ViewportFacts.

(** X10. From the list the backend returns [loadNeighborhoods] makes one
    neighborhood per entry, in order, with the id and the name of the entry,
    selected, with a count of zero, so that every neighborhood is a
    candidate of the query.  The neighborhood at each of the first
    seventeen places gets the coordinates the table has at that place, which
    lie in the bounding box, the others those of the center of the map.  A
    marker is made, labelled with no crimes, exactly when the map is
    mounted.  Nothing but the neighborhoods changes. *)
Theorem loadNeighborhoods_spec (env : backend) (m : MapState.t) (st : App)
  (data : list NeighborhoodRow.t) :
  neighborhoodsService env (baseApiUrl st) = Ok data ->
  exists st',
    loadNeighborhoods env m st = (Returned st', [GetNeighborhoods (baseApiUrl st)]) /\
    st' = set_neighborhoods (neighborhoods st') st /\
    map Neighborhood.id (neighborhoods st') = map NeighborhoodRow.id data /\
    map Neighborhood.name (neighborhoods st') = map NeighborhoodRow.name data /\
    Forall (fun n => Neighborhood.selected n = true /\ Neighborhood.crimes n = 0%nat)
      (neighborhoods st') /\
    baseNeighborhoodIds (neighborhoods st') = map NeighborhoodRow.id data /\
    length neighborhoodMarkerCoords = 17%nat /\
    (forall i n, neighborhoods st' !! i = Some n ->
       (forall c, neighborhoodMarkerCoords !! i = Some c ->
          position n = LatLng.mk c.1 c.2 /\ insideBox (position n)) /\
       ((17 <= i)%nat -> position n = MapState.center m) /\
       Neighborhood.marker n =
         match MapState.leaflet m with
         | Some _ => Some (label (Neighborhood.name n) 0)
         | None => None
         end).
Proof.
  intros Hreply. unfold loadNeighborhoods. rewrite Hreply. eexists. split; [reflexivity|].
  cbn [neighborhoods set_neighborhoods].
  assert (Hids : map Neighborhood.id (imap (placeNeighborhood m) data) =
                 map NeighborhoodRow.id data) by now apply map_imap_eq.
  assert (Hall : Forall (fun n => Neighborhood.selected n = true /\
                                  Neighborhood.crimes n = 0%nat)
                   (imap (placeNeighborhood m) data)).
  { apply Forall_lookup. intros i n. rewrite list_lookup_imap.
    destruct (data !! i); [intros [= <-]; split; reflexivity | discriminate]. }
  split; [reflexivity|].
  split; [exact Hids|]. split; [now apply map_imap_eq|]. split; [exact Hall|]. split.
  { rewrite all_selected_candidates; [exact Hids|].
    eapply Forall_impl; [exact Hall|]. now intros n [? _]. }
  split; [reflexivity|].
  intros i n. rewrite list_lookup_imap.
  destruct (data !! i) as [row|]; [|discriminate]. intros [= <-].
  unfold position, placeNeighborhood.
  cbn [Neighborhood.lat Neighborhood.lng Neighborhood.marker Neighborhood.name].
  split; [|split].
  - intros c Hc. rewrite Hc. cbn [default]. split; [reflexivity|].
    apply (Forall_lookup_1 _ _ _ _ table_in_box Hc).
  - intros Hi. rewrite (proj2 (lookup_ge_None neighborhoodMarkerCoords i)) by (simpl; lia).
    now destruct (MapState.center m).
  - destruct (MapState.leaflet m); reflexivity.
Qed.

Lemma loadNeighborhoods_spec_witness :
  exists st',
    loadNeighborhoods Demo.env (Demo.mounted Demo.wide)
      (set_baseApiUrl Sample.base Demo.fresh) =
      (Returned st', [GetNeighborhoods Sample.base]) /\
    baseNeighborhoodIds (neighborhoods st') = [1; 2] /\
    map position (neighborhoods st') =
      [ LatLng.mk (Fin (44942068 # 1000000)) (Fin (-93020521 # 1000000));
        LatLng.mk (Fin (44977413 # 1000000)) (Fin (-93025156 # 1000000)) ].
Proof.
  destruct (loadNeighborhoods_spec Demo.env (Demo.mounted Demo.wide)
              (set_baseApiUrl Sample.base Demo.fresh) Demo.rows)
    as (st' & Hrun & _ & _ & _ & _ & Hcand & _ & Hplace); [reflexivity|].
  exists st'. split; [exact Hrun|]. split; [exact Hcand|].
  injection Hrun as <-. reflexivity.
Defined.

(** X11. With a mounted map and at least one neighborhood,
    [updateVisibleNeighborhoods] makes the visible list the ids of the
    neighborhoods whose marker lies in the view, edges included, one for
    each such neighborhood and in the order of the neighborhoods, and
    changes no other part of the state.  Without a map, or without
    neighborhoods, it leaves the whole state, and so the visible list of an
    earlier view, as it is. *)
Theorem updateVisibleNeighborhoods_spec (m : MapState.t) (st : App) :
  let st' := updateVisibleNeighborhoods m st in
  (MapState.leaflet m = None \/ neighborhoods st = [] -> st' = st) /\
  (forall b, MapState.leaflet m = Some b -> neighborhoods st <> [] ->
     sameButVisible (map Neighborhood.id (filter (within b) (neighborhoods st))) st st' /\
     (forall k, k ∈ visibleNeighborhoodIds st' <->
        exists n, n ∈ neighborhoods st /\ Neighborhood.id n = k /\ within b n) /\
     visibleNeighborhoodIds st' `sublist_of` map Neighborhood.id (neighborhoods st)).
Proof.
  intros st'. unfold st', updateVisibleNeighborhoods. split.
  - intros [-> | ->]; [reflexivity | now destruct (MapState.leaflet m)].
  - intros b -> Hne. destruct (neighborhoods st) as [|n0 nbs] eqn:E; [congruence|].
    assert (Hfilter : filter (fun n => inView b n = true) (n0 :: nbs) =
                      filter (within b) (n0 :: nbs)).
    { apply list_filter_iff. intros n. apply inView_spec. }
    rewrite Hfilter. split; [|split].
    + unfold sameButVisible.
      cbn [visibleNeighborhoodIds neighborhoods incidents baseApiUrl filters codes
           incidentTypeGroups isLoadingCrimes loadError newIncident newIncidentError
           newIncidentSuccess set_visibleNeighborhoodIds].
      repeat split.
    + intros k. cbn [visibleNeighborhoodIds set_visibleNeighborhoodIds].
      rewrite list_elem_of_fmap. split.
      * intros (n & -> & [Hin Hn]%list_elem_of_filter). exists n.
        split; [assumption|]. split; [reflexivity | assumption].
      * intros (n & Hn & <- & Hin). exists n. split; [reflexivity|].
        apply list_elem_of_filter. split; assumption.
    + cbn [visibleNeighborhoodIds set_visibleNeighborhoodIds].
      apply (fmap_sublist Neighborhood.id), sublist_filter.
Qed.

Lemma updateVisibleNeighborhoods_spec_witness :
  exists st',
    loadNeighborhoods Demo.env (Demo.mounted Demo.east)
      (set_baseApiUrl Sample.base Demo.fresh) = (Returned st', [GetNeighborhoods Sample.base]) /\
    visibleNeighborhoodIds (updateVisibleNeighborhoods (Demo.mounted Demo.east) st') = [1; 2] /\
    baseApiUrl (updateVisibleNeighborhoods (Demo.mounted Demo.east) st') = Sample.base.
Proof.
  eexists. split; [reflexivity|].
  destruct (updateVisibleNeighborhoods_spec (Demo.mounted Demo.east)
              (set_neighborhoods (imap (placeNeighborhood (Demo.mounted Demo.east)) Demo.rows)
                 (set_baseApiUrl Sample.base Demo.fresh))) as [_ Hview].
  destruct (Hview Demo.east) as ((Hvis & Hbase & _) & _); [reflexivity | discriminate |].
  split; [rewrite Hvis; reflexivity | exact Hbase].
Defined.

Lemma candidates_nonempty (nbs : list Neighborhood.t) :
  nbs <> [] -> baseNeighborhoodIds nbs <> [].
Proof.
  intros Hne. unfold baseNeighborhoodIds.
  destruct (selectedNeighborhoodIds nbs); [|discriminate].
  destruct nbs; [congruence | discriminate].
Qed.

(** X12. After [updateVisibleNeighborhoods] on a mounted map, as the move
    handler and the initialization run it before [fetchIncidents], the
    query asks for the candidate neighborhoods whose marker lies in the
    view, as long as some marker lies in it.  When no marker at all lies in
    the view, the visible list is empty and the query asks for every
    candidate: a view that shows no marker narrows nothing. *)
Theorem viewport_drives_query (net : services) (m : MapState.t) (st : App)
  (b : Viewport.t) :
  MapState.leaflet m = Some b -> neighborhoods st <> [] ->
  let nbs := neighborhoods st in
  let st1 := updateVisibleNeighborhoods m st in
  let asked := inViewIds (neighborhoods st1) (visibleNeighborhoodIds st1) in
  ((exists n, n ∈ nbs /\ within b n) ->
     forall k, k ∈ asked <->
       k ∈ baseNeighborhoodIds nbs /\
       exists n, n ∈ nbs /\ Neighborhood.id n = k /\ within b n) /\
  (~ (exists n, n ∈ nbs /\ within b n) ->
     visibleNeighborhoodIds st1 = [] /\
     asked = baseNeighborhoodIds nbs /\ asked <> [] /\
     (baseApiUrl st <> "" ->
      exists query,
        (fetchIncidents net st1).2 = [GetIncidents (baseApiUrl st) query] /\
        params_get query "neighborhood" = Some (PStr (joinZ (baseNeighborhoodIds nbs))))).
Proof.
  intros Hmap Hne nbs st1 asked.
  assert (Hst1 : st1 =
            set_visibleNeighborhoodIds
              (map Neighborhood.id (filter (fun n => inView b n = true) nbs)) st).
  { unfold st1, updateVisibleNeighborhoods, nbs. rewrite Hmap.
    destruct (neighborhoods st); [congruence | reflexivity]. }
  assert (Hvis : forall k, k ∈ visibleNeighborhoodIds st1 <->
            exists n, n ∈ nbs /\ Neighborhood.id n = k /\ within b n).
  { intros k. rewrite Hst1. cbn [visibleNeighborhoodIds set_visibleNeighborhoodIds].
    rewrite list_elem_of_fmap. split.
    - intros (n & -> & [Hin Hn]%list_elem_of_filter). exists n.
      split; [assumption|]. split; [reflexivity | now apply inView_spec].
    - intros (n & Hn & <- & Hin). exists n. split; [reflexivity|].
      apply list_elem_of_filter. split; [now apply inView_spec | assumption]. }
  assert (Hnbs : neighborhoods st1 = nbs) by now rewrite Hst1.
  assert (Hbase : baseApiUrl st1 = baseApiUrl st) by now rewrite Hst1.
  split.
  - intros (n & Hn & Hin) k.
    assert (Hnonempty : visibleNeighborhoodIds st1 <> []).
    { intros Hnil. assert (Hk : Neighborhood.id n ∈ visibleNeighborhoodIds st1)
        by (apply Hvis; now exists n).
      rewrite Hnil in Hk. now apply elem_of_nil in Hk. }
    unfold asked. rewrite !list_elem_of_In, (inViewIds_spec _ _ k Hnonempty), Hnbs.
    now rewrite <- !list_elem_of_In, Hvis.
  - intros Hnone.
    assert (Hnil : visibleNeighborhoodIds st1 = []).
    { destruct (visibleNeighborhoodIds st1) as [|k l] eqn:E; [reflexivity|].
      elim Hnone. assert (Hk : k ∈ k :: l) by apply list_elem_of_here.
      apply Hvis in Hk as (n & Hn & _ & Hin). now exists n. }
    assert (Hasked : asked = baseNeighborhoodIds nbs).
    { unfold asked. now rewrite Hnil, Hnbs. }
    assert (Hsome : asked <> []).
    { rewrite Hasked. now apply candidates_nonempty. }
    split; [exact Hnil|]. split; [exact Hasked|]. split; [exact Hsome|].
    intros Hurl. eexists. split.
    + rewrite <- Hbase. apply fetchIncidents_request; [now rewrite Hbase | exact Hsome].
    + rewrite <- Hasked. now apply incidentParams_neighborhood.
Qed.

Lemma viewport_drives_query_witness :
  let st := Sample.app Sample.base
              [Sample.neighborhood 1 "A" true; Sample.neighborhood 2 "B" false]
              [] [2] (Num.of_Z 1000) Sample.form in
  let st1 := updateVisibleNeighborhoods (Demo.mounted Demo.corner) st in
  visibleNeighborhoodIds st1 = [] /\
  inViewIds (neighborhoods st1) (visibleNeighborhoodIds st1) = [1].
Proof.
  intros st st1.
  destruct (viewport_drives_query Sample.quiet (Demo.mounted Demo.corner) st Demo.corner)
    as [_ Hnone]; [reflexivity | discriminate |].
  destruct Hnone as (Hvis & Hasked & _).
  - intros (n & Hn & Hin). apply inView_spec in Hin.
    apply list_elem_of_In in Hn. simpl in Hn.
    destruct Hn as [<- | [<- | []]]; discriminate Hin.
  - split; [exact Hvis | exact Hasked].
Defined.

(** ** The geocode cache, continued *)
Section CacheFacts.
Variable inherited : string -> bool.
Implicit Types (net : services) (cache : gmap string LatLng.t) (block : string).

Lemma geocodeBlock_empty net cache :
  geocodeBlock inherited net cache "" = (None, cache, []).
Proof. reflexivity. Qed.

(** A coordinate a lookup gives is what the cache holds afterwards. *)
Lemma geocodeBlock_coordinate net cache block c :
  (geocodeBlock inherited net cache block).1.1 = Some (Coordinate c) <->
  block <> "" /\ (geocodeBlock inherited net cache block).1.2 !! block = Some c.
Proof.
  destruct (decide (block = "")) as [->|Hblock].
  { split; [discriminate | intros [Hne _]; now elim Hne]. }
  destruct (geocodeBlock_cases inherited net cache block Hblock)
    as [(hit & Hlook & ->) | [(Hlook & Hinh & ->) | (Hlook & Hinh & ->)]]; cbn [fst snd].
  - rewrite Hlook. split; [intros [= ->]; now split | intros [_ [= ->]]; reflexivity].
  - rewrite Hlook. split; [discriminate | intros [_ [=]]].
  - destruct (geocodeService net _) as [[|first others]| |]; cbn [fst snd];
      rewrite ?lookup_insert_eq, ?Hlook;
      (split; [intros [= ->]; now split | intros [_ [= ->]]; reflexivity]) ||
      (split; [discriminate | intros [_ [=]]]).
Qed.

Lemma geocodeBlock_others net cache block k :
  k <> block -> (geocodeBlock inherited net cache block).1.2 !! k = cache !! k.
Proof.
  intros Hk. destruct (decide (block = "")) as [->|Hblock]; [reflexivity|].
  destruct (geocodeBlock_cases inherited net cache block Hblock)
    as [(hit & Hlook & ->) | [(Hlook & Hinh & ->) | (Hlook & Hinh & ->)]];
    [reflexivity | reflexivity |].
  destruct (geocodeService net _) as [[|first others]| |]; cbn [fst snd];
    rewrite ?lookup_insert_ne; congruence.
Qed.

Lemma geocodeBlock_kept net cache block k c :
  cache !! k = Some c -> (geocodeBlock inherited net cache block).1.2 !! k = Some c.
Proof.
  intros Hk. destruct (decide (k = block)) as [->|Hne].
  - destruct (decide (block = "")) as [->|Hblock]; [exact Hk|].
    now rewrite (geocodeBlock_hit inherited net cache block c).
  - now rewrite geocodeBlock_others.
Qed.

Lemma geocodeBlock_calls net cache block :
  (length (geocodeBlock inherited net cache block).2 <= 1)%nat.
Proof.
  destruct (decide (block = "")) as [->|Hblock]; [simpl; lia|].
  destruct (geocodeBlock_cases inherited net cache block Hblock)
    as [(hit & Hlook & ->) | [(Hlook & Hinh & ->) | (Hlook & Hinh & ->)]];
    [simpl; lia | simpl; lia |].
  destruct (geocodeService net _) as [[|first others]| |]; simpl; lia.
Qed.
End CacheFacts.

(** X13. A lookup never removes or changes an entry of the geocode
    cache and adds at most the entry of the block it was asked for; it
    issues one query at most; and what it returns for a block that is not
    empty is what a read of the cache object under that block then gives:
    the coordinate the cache holds there, or else the member the object
    inherits under that name, or else nothing. *)
Theorem geocodeBlock_cache_grows (inherited : string -> bool) (net : services)
  (cache : gmap string LatLng.t) (block : string) :
  let result := (geocodeBlock inherited net cache block).1.1 in
  let cache' := (geocodeBlock inherited net cache block).1.2 in
  cache ⊆ cache' /\
  (forall k, k <> block -> cache' !! k = cache !! k) /\
  (length (geocodeBlock inherited net cache block).2 <= 1)%nat /\
  (block <> "" ->
     (forall c, result = Some (Coordinate c) <-> cache' !! block = Some c) /\
     (forall name, result = Some (Member name) <->
        name = block /\ cache' !! block = None /\ inherited block = true) /\
     (result = None <-> cache' !! block = None /\ inherited block = false)) /\
  (block = "" -> result = None /\ cache' = cache).
Proof.
  intros result cache'. split; [|split; [|split; [|split]]].
  - apply map_subseteq_spec. intros k c. apply geocodeBlock_kept.
  - intros k. apply geocodeBlock_others.
  - apply geocodeBlock_calls.
  - intros Hblock. unfold result, cache'.
    destruct (geocodeBlock_cases inherited net cache block Hblock)
      as [(hit & Hlook & ->) | [(Hlook & Hinh & ->) | (Hlook & Hinh & Hrun)]]; cbn [fst snd].
    + rewrite Hlook. split; [|split].
      * intros c. split; congruence.
      * intros name. split; [discriminate | intros (_ & [=] & _)].
      * split; [discriminate | intros [[=] _]].
    + rewrite Hlook, Hinh. split; [|split].
      * intros c. split; discriminate.
      * intros name. split; [intros [= ->]; now repeat split | intros (-> & _); reflexivity].
      * split; [discriminate | intros [_ [=]]].
    + rewrite Hrun, Hinh.
      destruct (geocodeService net _) as [[|first others]| |]; cbn [fst snd];
        rewrite ?lookup_insert_eq, ?Hlook;
        (split; [intros c; split; congruence|]);
        (split; [intros name; split; [discriminate | intros (_ & _ & [=])]|]);
        split; try discriminate; try (intros [[=] _]); try (intros _; now split);
        try reflexivity.
  - intros ->. split; reflexivity.
Qed.

(** X14. Once a lookup has given a coordinate for a block, every later
    lookup of that block on the cache it left gives the same coordinate
    without a query, whatever the geocoder would answer then. *)
Theorem geocodeBlock_cached_after_success (inherited : string -> bool)
  (net net' : services) (cache : gmap string LatLng.t) (block : string) (c : LatLng.t) :
  (geocodeBlock inherited net cache block).1.1 = Some (Coordinate c) ->
  let cache' := (geocodeBlock inherited net cache block).1.2 in
  geocodeBlock inherited net' cache' block = (Some (Coordinate c), cache', []).
Proof.
  intros Hres cache'.
  apply geocodeBlock_coordinate in Hres as [Hblock Hlook].
  apply geocodeBlock_hit; assumption.
Qed.

Lemma geocodeBlock_cached_after_success_witness :
  let c := LatLng.mk (Fin (4495 # 100)) (Fin (-9310 # 100)) in
  let cache' :=
    (geocodeBlock Sample.objectMembers (rest Demo.env) ∅ "98X UNIVERSITY AV W").1.2 in
  geocodeBlock Sample.objectMembers (rest Demo.down) cache' "98X UNIVERSITY AV W" =
    (Some (Coordinate c), cache', []).
Proof.
  intros c cache'.
  apply (geocodeBlock_cached_after_success Sample.objectMembers (rest Demo.env)
           (rest Demo.down) ∅).
  rewrite geocodeBlock_miss; [reflexivity | discriminate | apply lookup_empty | reflexivity].
Defined.

Lemma cacheInBox_insert (cache : gmap string LatLng.t) (k : string) (c : LatLng.t) :
  cacheInBox cache -> insideBox c -> cacheInBox (<[k := c]> cache).
Proof.
  intros Hcache Hc k' c'. rewrite lookup_insert. destruct (decide _) as [_|_].
  - now intros [= <-].
  - apply Hcache.
Qed.

(** A lookup leaves the cache as it is or files a clamped first hit. *)
Lemma geocodeBlock_cache_cases (inherited : string -> bool) (net : services)
  (cache : gmap string LatLng.t) (block : string) :
  (geocodeBlock inherited net cache block).1.2 = cache \/
  exists first others,
    geocodeService net (normalizeBlockAddress block) = Ok (first :: others) /\
    (geocodeBlock inherited net cache block).1.2 =
      <[block := clampLatLng (LatLng.lat first) (LatLng.lng first)]> cache.
Proof.
  destruct (decide (block = "")) as [->|Hblock]; [now left|].
  destruct (geocodeBlock_cases inherited net cache block Hblock)
    as [(hit & Hlook & ->) | [(Hlook & Hinh & ->) | (Hlook & Hinh & ->)]];
    [now left | now left |].
  destruct (geocodeService net _) as [[|first others]| |] eqn:Hreply;
    [now left | right | now left | now left].
  now exists first, others.
Qed.

(** X15. When the first hit of the geocoder has numbers as coordinates, a
    lookup keeps a cache whose coordinates all lie in the bounding box that
    way, and the coordinate it gives lies in the bounding box too. *)
Theorem geocodeBlock_keeps_cache_in_box (inherited : string -> bool) (net : services)
  (cache : gmap string LatLng.t) (block : string) :
  cacheInBox cache -> numericHit net (normalizeBlockAddress block) ->
  cacheInBox (geocodeBlock inherited net cache block).1.2 /\
  (forall c, (geocodeBlock inherited net cache block).1.1 = Some (Coordinate c) ->
     insideBox c).
Proof.
  intros Hcache Hnum.
  assert (Hinv : cacheInBox (geocodeBlock inherited net cache block).1.2).
  { destruct (geocodeBlock_cache_cases inherited net cache block)
      as [-> | (first & others & Hreply & ->)]; [exact Hcache|].
    apply cacheInBox_insert; [exact Hcache|].
    destruct (Hnum first others Hreply). now apply clampLatLng_in_box. }
  split; [exact Hinv|]. intros c Hres.
  apply geocodeBlock_coordinate in Hres as [_ Hlook]. exact (Hinv block c Hlook).
Qed.

Lemma geocodeBlock_keeps_cache_in_box_witness :
  cacheInBox
    (geocodeBlock Sample.objectMembers (rest Demo.env) ∅ "98X UNIVERSITY AV W").1.2.
Proof.
  apply geocodeBlock_keeps_cache_in_box.
  - intros k c Hk. rewrite lookup_empty in Hk. discriminate Hk.
  - intros hit others [= <- _]. split; discriminate.
Defined.

(** ** Trimming *)
Section TrimFacts.
Implicit Types (s : string).

Lemma trimEnd_idempotent s : Js.trimEnd (Js.trimEnd s) = Js.trimEnd s.
Proof.
  induction s as [|c s IH]; [reflexivity|]. simpl.
  destruct (Js.trimEnd s) as [|d t] eqn:E.
  - destruct (Js.isWhiteSpace c) eqn:Hc; [reflexivity|]. simpl. now rewrite Hc.
  - change (Js.trimEnd (String c (String d t)))
      with (match Js.trimEnd (String d t) with
            | EmptyString =>
                if Js.isWhiteSpace c then EmptyString else String c EmptyString
            | t' => String c t'
            end).
    now rewrite IH.
Qed.

Lemma trimStart_stops_at s : stops Js.isWhiteSpace (Js.trimStart s).
Proof.
  induction s as [|c s IH]; [exact I|]. simpl.
  destruct (Js.isWhiteSpace c) eqn:Hc; [assumption | exact Hc].
Qed.

Lemma trimStart_of_trimEnd s :
  stops Js.isWhiteSpace s -> Js.trimStart (Js.trimEnd s) = Js.trimEnd s.
Proof.
  destruct s as [|c s]; [reflexivity|]. simpl. intros Hc.
  destruct (Js.trimEnd s); rewrite ?Hc; simpl; now rewrite Hc.
Qed.

Lemma trim_idempotent s : Js.trim (Js.trim s) = Js.trim s.
Proof.
  unfold Js.trim. rewrite trimStart_of_trimEnd by apply trimStart_stops_at.
  apply trimEnd_idempotent.
Qed.

Lemma trim_trimmedText s : Js.trim s <> "" -> trimmedText (Js.trim s).
Proof. intros H. split; [assumption | apply trim_idempotent]. Qed.
End TrimFacts.

(** X16. Blocks that differ only in white space at their ends are
    normalized to the same address, so they put the same question to the
    geocoder; but the cache files the answer under the block as it was
    given, so the lookup of one leaves the other uncached. *)
Theorem normalizeBlockAddress_ignores_outer_space (block block' : string) :
  Js.trim block = Js.trim block' ->
  normalizeBlockAddress block = normalizeBlockAddress block' /\
  normalizeBlockAddress (Js.trim block) = normalizeBlockAddress block /\
  (block <> block' ->
   forall inherited net cache,
     (geocodeBlock inherited net cache block).1.2 !! block' = cache !! block').
Proof.
  intros Htrim. split; [|split].
  - unfold normalizeBlockAddress. now rewrite Htrim.
  - unfold normalizeBlockAddress. now rewrite trim_idempotent.
  - intros Hne inherited net cache. apply geocodeBlock_others. congruence.
Qed.

Lemma normalizeBlockAddress_ignores_outer_space_witness :
  normalizeBlockAddress " 98X UNIVERSITY AV W " =
    normalizeBlockAddress "98X UNIVERSITY AV W" /\
  (geocodeBlock Sample.objectMembers (rest Demo.env) ∅
     " 98X UNIVERSITY AV W ").1.2 !! "98X UNIVERSITY AV W" = None.
Proof.
  destruct (normalizeBlockAddress_ignores_outer_space
              " 98X UNIVERSITY AV W " "98X UNIVERSITY AV W") as (Hsame & _ & Hcache);
    [reflexivity|].
  split; [exact Hsame|]. rewrite Hcache; [apply lookup_empty | discriminate].
Defined.

(** ** The form, continued *)
Section SubmitMore.
Variable StringToNumber : string -> number.
Implicit Types (st : App) (net : services).

Lemma fetch_only_gets net st base p :
  PutNewIncident base p ∈ (fetchIncidents net st).2 -> False.
Proof.
  rewrite fetchIncidents_requests.
  destruct (baseApiUrl st); [intros []%elem_of_nil|].
  destruct (inViewIds _ _); [intros []%elem_of_nil|].
  intros [=]%list_elem_of_singleton.
Qed.

Lemma filled_texts (f : Form.t) :
  ~ someFieldEmpty f ->
  Js.trim (Form.case_number f) <> "" /\ Js.trim (Form.incident f) <> "" /\
  Js.trim (Form.block f) <> "".
Proof. unfold someFieldEmpty. tauto. Qed.

Lemma cleared_sameSettings st x :
  sameSettings st (set_newIncidentSuccess x (cleared st)).
Proof. repeat split. Qed.

Lemma sameSettings_trans st1 st2 st3 :
  sameSettings st1 st2 -> sameSettings st2 st3 -> sameSettings st1 st3.
Proof. unfold sameSettings. intuition congruence. Qed.
End SubmitMore.

(** X17. [submitNewIncident] never touches the form, not even after a
    submission the backend accepted, nor any other setting; only the two
    messages, the incidents and the counts can change.  Every PUT it issues
    goes to the base URL of the state and carries a case number, a
    description and a block that are not empty and have no white space at
    their ends. *)
Theorem submitNewIncident_frame (StringToNumber : string -> number)
  (net : services) (st : App) :
  let st' := (submitNewIncident StringToNumber net st).1 in
  let reqs := (submitNewIncident StringToNumber net st).2 in
  sameSettings st st' /\
  (forall base p, PutNewIncident base p ∈ reqs ->
     base = baseApiUrl st /\ base <> "" /\
     trimmedText (Payload.case_number p) /\ trimmedText (Payload.incident p) /\
     trimmedText (Payload.block p) /\
     Payload.date p = Form.date (newIncident st) /\
     Payload.time p = Form.time (newIncident st)) /\
  (length reqs <= 2)%nat.
Proof.
  intros st' reqs. unfold st', reqs.
  destruct (decide (baseApiUrl st = "")) as [Hbase|Hbase].
  { rewrite submit_unconfigured by assumption. cbn [fst snd].
    split; [repeat split|]. split; [intros base p []%elem_of_nil | simpl; lia]. }
  destruct (classic_blank (newIncident st)) as [Hblank|Hfilled].
  { rewrite submit_blank by assumption. cbn [fst snd].
    split; [repeat split|]. split; [intros base p []%elem_of_nil | simpl; lia]. }
  rewrite submit_filled by assumption.
  destruct (filled_texts _ Hfilled) as (Hcase & Hinc & Hblock).
  assert (Hput : forall base p,
            PutNewIncident base p =
              PutNewIncident (baseApiUrl st) (payloadOf StringToNumber (newIncident st)) ->
            base = baseApiUrl st /\ base <> "" /\
            trimmedText (Payload.case_number p) /\ trimmedText (Payload.incident p) /\
            trimmedText (Payload.block p) /\
            Payload.date p = Form.date (newIncident st) /\
            Payload.time p = Form.time (newIncident st)).
  { intros base p [= -> ->]. cbn [payloadOf Payload.case_number Payload.incident
      Payload.block Payload.date Payload.time].
    repeat split; try assumption; apply trim_idempotent. }
  destruct (newIncidentService net _ _) as [u|text|message]; cbn [fst snd].
  - split; [|split].
    + eapply sameSettings_trans; [apply cleared_sameSettings|].
      apply fetchIncidents_sameSettings.
    + intros base p [Heq|Hin]%elem_of_cons; [now apply Hput|].
      now apply fetch_only_gets in Hin.
    + pose proof (fetchIncidents_requests net
                    (set_newIncidentSuccess "Incident successfully added." (cleared st))) as Hr.
      rewrite Hr. destruct (baseApiUrl _); [simpl; lia|].
      destruct (inViewIds _ _); simpl; lia.
  - split; [repeat split|]. split; [|simpl; lia].
    intros base p Heq%list_elem_of_singleton. now apply Hput.
  - split; [repeat split|]. split; [|simpl; lia].
    intros base p Heq%list_elem_of_singleton. now apply Hput.
Qed.

(** ** Initialization *)
Section InitFacts.
Variable localeCompare : string -> string -> Z.
Implicit Types (s : string) (st : App) (env : backend) (m : MapState.t).

Lemma app_not_empty (pre : string) c : pre +:+ String c "" <> "".
Proof. destruct pre; discriminate. Qed.

Lemma strip_not_slash s : ~ endsInSlash (stripTrailingSlashes s).
Proof.
  unfold endsInSlash. induction s as [|c s IH]; simpl.
  - intros [pre H]. symmetry in H. now apply app_not_empty in H.
  - destruct (stripTrailingSlashes s) as [|d t] eqn:E.
    + destruct (ascii_dec c "/") as [->|Hc].
      * intros [pre H]. symmetry in H. now apply app_not_empty in H.
      * intros [[|x pre] H].
        -- injection H as ->. congruence.
        -- rewrite app_String in H. injection H as _ H.
           symmetry in H. now apply app_not_empty in H.
    + intros [[|x pre] H]; [discriminate H|].
      rewrite app_String in H. injection H as _ H. apply IH. now exists pre.
Qed.

Lemma strip_decompose s :
  exists slashes,
    s = stripTrailingSlashes s +:+ slashes /\
    Js.all (fun c => bool_decide (c = "/"%char)) slashes = true.
Proof.
  induction s as [|c s (slashes & Hs & Hall)]; simpl.
  - now exists "".
  - destruct (stripTrailingSlashes s) as [|d t] eqn:E.
    + destruct (ascii_dec c "/") as [->|Hc].
      * exists (String "/" slashes). split; [now rewrite Hs at 1|].
        simpl. now rewrite Hall.
      * exists slashes. split; [now rewrite Hs at 1 | assumption].
    + exists slashes. split; [now rewrite Hs at 1 | assumption].
Qed.

Lemma strip_idempotent s :
  stripTrailingSlashes (stripTrailingSlashes s) = stripTrailingSlashes s.
Proof.
  induction s as [|c s IH]; [reflexivity|]. simpl.
  destruct (stripTrailingSlashes s) as [|d t] eqn:E.
  - destruct (ascii_dec c "/") as [Hc|Hc]; [reflexivity|]. simpl.
    now destruct (ascii_dec c "/").
  - change (stripTrailingSlashes (String c (String d t)))
      with (match stripTrailingSlashes (String d t) with
            | EmptyString => if ascii_dec c "/" then EmptyString else String c EmptyString
            | t' => String c t'
            end).
    now rewrite IH.
Qed.

(** The state in which the loaders run. *)
Let started (crime_url : string) st : App :=
  set_baseApiUrl (stripTrailingSlashes (Js.trim crime_url))
    (set_isLoadingCrimes false (set_loadError "" st)).

Lemma initializeCrimes_blank env m crime_url st :
  Js.trim crime_url = "" ->
  initializeCrimes localeCompare env m crime_url st =
  (set_loadError "You must enter a valid REST API URL."
     (set_isLoadingCrimes false (set_loadError "" st)), []).
Proof. intros H. unfold initializeCrimes. now rewrite H. Qed.

Lemma initializeCrimes_run env m crime_url st :
  Js.trim crime_url <> "" ->
  let st1 := started crime_url st in
  let base := baseApiUrl st1 in
  initializeCrimes localeCompare env m crime_url st =
  match codesService (rest env) base with
  | Ok data =>
      let st2 := set_incidentTypeGroups (buildGroups localeCompare data)
                   (set_codes data st1) in
      match neighborhoodsService env base with
      | Ok rows =>
          let st3 := updateVisibleNeighborhoods m
                       (set_neighborhoods (imap (placeNeighborhood m) rows) st2) in
          ((fetchIncidents (rest env) st3).1,
           Rest (GetCodes base) :: GetNeighborhoods base ::
             map Rest (fetchIncidents (rest env) st3).2)
      | _ => (set_loadError initError st2, [Rest (GetCodes base); GetNeighborhoods base])
      end
  | _ => (set_loadError initError st1, [Rest (GetCodes base)])
  end.
Proof.
  intros Hurl. cbv zeta. unfold started, initializeCrimes, loadCodes, loadNeighborhoods.
  destruct (Js.trim crime_url) as [|c t]; [congruence|].
  cbn [baseApiUrl set_baseApiUrl set_isLoadingCrimes set_loadError
       set_incidentTypeGroups set_codes].
  destruct (codesService (rest env) _) as [data| |]; try reflexivity.
  destruct (neighborhoodsService env _) as [rows| |]; try reflexivity.
  destruct (fetchIncidents _ _); reflexivity.
Qed.
End InitFacts.

Section InitTheorems.
Variable localeCompare : string -> string -> Z.
Implicit Types (st : App) (env : backend) (m : MapState.t).

Lemma updateVisible_fields m st :
  let st' := updateVisibleNeighborhoods m st in
  baseApiUrl st' = baseApiUrl st /\ codes st' = codes st /\
  incidentTypeGroups st' = incidentTypeGroups st /\
  neighborhoods st' = neighborhoods st /\ incidents st' = incidents st /\
  filters st' = filters st /\ loadError st' = loadError st.
Proof.
  unfold updateVisibleNeighborhoods.
  destruct (MapState.leaflet m); [|repeat split].
  destruct (neighborhoods st) eqn:E; [now rewrite E|].
  cbn [baseApiUrl codes incidentTypeGroups neighborhoods incidents filters loadError
       set_visibleNeighborhoodIds].
  now rewrite E.
Qed.

Lemma fetch_calls_base (net : services) st c :
  c ∈ map Rest (fetchIncidents net st).2 ->
  callBase c = Some (baseApiUrl st) /\ baseApiUrl st <> "".
Proof.
  rewrite fetchIncidents_requests.
  destruct (baseApiUrl st) as [|x base]; [intros []%elem_of_nil|].
  destruct (inViewIds _ _); [intros []%elem_of_nil|].
  intros ->%list_elem_of_singleton. split; [reflexivity | discriminate].
Qed.

Lemma fetch_calls_length (net : services) st : (length (fetchIncidents net st).2 <= 1)%nat.
Proof.
  rewrite fetchIncidents_requests.
  destruct (baseApiUrl st); [simpl; lia|]. destruct (inViewIds _ _); simpl; lia.
Qed.

(** X18. After [initializeCrimes] on a URL field that is not blank, the
    base URL is the trimmed text of the field without its final slashes: it
    does not end in a slash, and the trimmed text is the base URL followed
    by slashes only.  Every request of the initialization goes to that base
    URL.  A field that holds slashes only gives an empty base URL, and then
    no incidents are asked for. *)
Theorem initializeCrimes_base_url (env : backend) (m : MapState.t)
  (crime_url : string) (st : App) :
  Js.trim crime_url <> "" ->
  let st' := (initializeCrimes localeCompare env m crime_url st).1 in
  let calls := (initializeCrimes localeCompare env m crime_url st).2 in
  let base := baseApiUrl st' in
  base = stripTrailingSlashes (Js.trim crime_url) /\
  ~ endsInSlash base /\
  (exists slashes,
     Js.trim crime_url = base +:+ slashes /\
     Js.all (fun c => bool_decide (c = "/"%char)) slashes = true) /\
  (forall c, c ∈ calls -> callBase c = Some base) /\
  (base = "" -> forall c, c ∈ calls -> ~ isIncidentQuery c).
Proof.
  intros Hurl st' calls base.
  set (b := stripTrailingSlashes (Js.trim crime_url)).
  assert (Hrun := initializeCrimes_run localeCompare env m crime_url st Hurl).
  cbv zeta in Hrun. cbn [baseApiUrl set_baseApiUrl] in Hrun. fold b in Hrun.
  assert (Hgoal : base = b /\
            (forall c, c ∈ calls -> callBase c = Some b) /\
            (b = "" -> forall c, c ∈ calls -> ~ isIncidentQuery c)).
  { unfold base, st', calls. rewrite Hrun.
    destruct (codesService (rest env) b) as [data| |].
    - destruct (neighborhoodsService env b) as [rows| |].
      + set (st2 := set_neighborhoods _ _).
        destruct (updateVisible_fields m st2) as (Hb & _).
        cbn [fst snd].
        destruct (fetchIncidents_sameSettings (rest env) (updateVisibleNeighborhoods m st2))
          as (Hb' & _).
        assert (Hbase : baseApiUrl (updateVisibleNeighborhoods m st2) = b)
          by (rewrite Hb; reflexivity).
        split; [now rewrite Hb'|]. split.
        * intros c [->|[->|Hc]%elem_of_cons]%elem_of_cons; [reflexivity..|].
          apply fetch_calls_base in Hc as [Hc _]. now rewrite Hc, Hbase.
        * intros Hempty c [->|[->|Hc]%elem_of_cons]%elem_of_cons;
            [intros Hq; exact Hq | intros Hq; exact Hq |].
          apply fetch_calls_base in Hc as [_ Hc]. rewrite Hbase in Hc. contradiction.
      + cbn [fst snd]. split; [reflexivity|]. split.
        * intros c [->|Hc%list_elem_of_singleton]%elem_of_cons; [|subst c]; reflexivity.
        * intros _ c [->|Hc%list_elem_of_singleton]%elem_of_cons; [|subst c]; intros Hq; exact Hq.
      + cbn [fst snd]. split; [reflexivity|]. split.
        * intros c [->|Hc%list_elem_of_singleton]%elem_of_cons; [|subst c]; reflexivity.
        * intros _ c [->|Hc%list_elem_of_singleton]%elem_of_cons; [|subst c]; intros Hq; exact Hq.
    - cbn [fst snd]. split; [reflexivity|]. split.
      + intros c ->%list_elem_of_singleton. reflexivity.
      + intros _ c ->%list_elem_of_singleton. intros Hq; exact Hq.
    - cbn [fst snd]. split; [reflexivity|]. split.
      + intros c ->%list_elem_of_singleton. reflexivity.
      + intros _ c ->%list_elem_of_singleton. intros Hq; exact Hq. }
  destruct Hgoal as (Hbase & Hcalls & Hnone).
  split; [exact Hbase|]. rewrite Hbase.
  split; [apply strip_not_slash|]. split; [apply strip_decompose|].
  split; [exact Hcalls | exact Hnone].
Qed.

(** X19. [initializeCrimes] stops at the first step that fails.  A blank
    URL field costs no request and changes no setting.  When the codes
    cannot be loaded, the neighborhoods and the incidents are not asked for
    and nothing is loaded.  When the codes are loaded but the neighborhoods
    are not, the codes and their groups stay loaded, the neighborhoods and
    the incidents stay as they were, and the incidents are not asked for.
    Each time the error message says so. *)
Theorem initializeCrimes_halts (env : backend) (m : MapState.t)
  (crime_url : string) (st : App) :
  let st' := (initializeCrimes localeCompare env m crime_url st).1 in
  let calls := (initializeCrimes localeCompare env m crime_url st).2 in
  let base := stripTrailingSlashes (Js.trim crime_url) in
  (Js.trim crime_url = "" ->
     calls = [] /\ loadError st' = "You must enter a valid REST API URL." /\
     sameSettings st st' /\ incidents st' = incidents st) /\
  (Js.trim crime_url <> "" ->
     (forall data, codesService (rest env) base <> Ok data) ->
     calls = [Rest (GetCodes base)] /\ loadError st' = initError /\
     codes st' = codes st /\ incidentTypeGroups st' = incidentTypeGroups st /\
     neighborhoods st' = neighborhoods st /\ incidents st' = incidents st) /\
  (Js.trim crime_url <> "" ->
     forall data, codesService (rest env) base = Ok data ->
     (forall rows, neighborhoodsService env base <> Ok rows) ->
     calls = [Rest (GetCodes base); GetNeighborhoods base] /\
     loadError st' = initError /\
     codes st' = data /\ incidentTypeGroups st' = buildGroups localeCompare data /\
     neighborhoods st' = neighborhoods st /\ incidents st' = incidents st).
Proof.
  intros st' calls base. unfold st', calls. split; [|split].
  - intros Hblank. rewrite initializeCrimes_blank by assumption. repeat split.
  - intros Hurl Hfail.
    assert (Hrun := initializeCrimes_run localeCompare env m crime_url st Hurl).
    cbv zeta in Hrun. cbn [baseApiUrl set_baseApiUrl] in Hrun. fold base in Hrun.
    rewrite Hrun. destruct (codesService (rest env) base) as [data| |].
    + now elim (Hfail data).
    + repeat split.
    + repeat split.
  - intros Hurl data Hcodes Hfail.
    assert (Hrun := initializeCrimes_run localeCompare env m crime_url st Hurl).
    cbv zeta in Hrun. cbn [baseApiUrl set_baseApiUrl] in Hrun. fold base in Hrun.
    rewrite Hrun, Hcodes. destruct (neighborhoodsService env base) as [rows| |].
    + now elim (Hfail rows).
    + repeat split.
    + repeat split.
Qed.
End InitTheorems.

Lemma initializeCrimes_base_url_witness :
  let run := initializeCrimes Sample.codeUnitCompare Demo.env (Demo.mounted Demo.wide)
               "  http://localhost:8000//  " Demo.fresh in
  baseApiUrl run.1 = "http://localhost:8000" /\
  forall c, c ∈ run.2 -> callBase c = Some (baseApiUrl run.1).
Proof.
  intros run.
  destruct (initializeCrimes_base_url Sample.codeUnitCompare Demo.env
              (Demo.mounted Demo.wide) "  http://localhost:8000//  " Demo.fresh)
    as (Hbase & _ & _ & Hcalls & _); [discriminate|].
  split; [exact Hbase | exact Hcalls].
Defined.

Lemma initializeCrimes_halts_witness :
  let run := initializeCrimes Sample.codeUnitCompare Demo.down (Demo.mounted Demo.wide)
               "http://localhost:8000/" Demo.fresh in
  run.2 = [Rest (GetCodes "http://localhost:8000")] /\ loadError run.1 = initError.
Proof.
  intros run.
  destruct (initializeCrimes_halts Sample.codeUnitCompare Demo.down
              (Demo.mounted Demo.wide) "http://localhost:8000/" Demo.fresh)
    as (_ & Hcodes & _).
  destruct Hcodes as (Hcalls & Herr & _); [discriminate | intros data; discriminate |].
  split; [exact Hcalls | exact Herr].
Defined.

Section InitSuccess.
Variable localeCompare : string -> string -> Z.
Implicit Types (st : App) (env : backend) (m : MapState.t).

Lemma asked_when_all_selected (nbs : list Neighborhood.t) (visible : list Z) :
  Forall (fun n => Neighborhood.selected n = true) nbs -> nbs <> [] ->
  (forall k, k ∈ visible -> k ∈ map Neighborhood.id nbs) ->
  inViewIds nbs visible <> [].
Proof.
  intros Hall Hne Hsub. unfold inViewIds.
  rewrite (all_selected_candidates nbs Hall).
  destruct visible as [|k l].
  - destruct nbs; [congruence | discriminate].
  - intros Hnil.
    assert (Hk : k ∈ filter (fun id => includesZ (k :: l) id = true)
                   (map Neighborhood.id nbs)).
    { apply list_elem_of_filter. split.
      - unfold includesZ. apply bool_decide_eq_true. apply list_elem_of_here.
      - apply Hsub, list_elem_of_here. }
    rewrite Hnil in Hk. now apply elem_of_nil in Hk.
Qed.

Lemma placed_selected m (rows : list NeighborhoodRow.t) :
  Forall (fun n => Neighborhood.selected n = true) (imap (placeNeighborhood m) rows).
Proof.
  apply Forall_lookup. intros i n. rewrite list_lookup_imap.
  destruct (rows !! i); [intros [= <-]; reflexivity | discriminate].
Qed.

Lemma identity_all_selected (nbs nbs' : list Neighborhood.t) :
  map identity nbs' = map identity nbs ->
  Forall (fun n => Neighborhood.selected n = true) nbs ->
  Forall (fun n => Neighborhood.selected n = true) nbs'.
Proof.
  intros H Hall. revert nbs' H.
  induction Hall as [|n nbs Hn _ IH]; intros [|n' nbs'] H; try discriminate H;
    constructor.
  - simpl in H. injection H as _ _ _ _ Hsel _. congruence.
  - apply IH. simpl in H. now injection H.
Qed.

(** X20. When the codes and the neighborhoods load, [initializeCrimes]
    leaves the fetched codes, their groups, and one selected neighborhood
    per fetched entry; it asks for the codes first, then for the
    neighborhoods, then at most once for incidents; and with a mounted map,
    a base URL that is not empty and at least one neighborhood it does ask
    for incidents. *)
Theorem initializeCrimes_loads (env : backend) (m : MapState.t)
  (crime_url : string) (st : App) (data : list Code.t)
  (rows : list NeighborhoodRow.t) :
  let base := stripTrailingSlashes (Js.trim crime_url) in
  Js.trim crime_url <> "" ->
  codesService (rest env) base = Ok data ->
  neighborhoodsService env base = Ok rows ->
  let st' := (initializeCrimes localeCompare env m crime_url st).1 in
  let calls := (initializeCrimes localeCompare env m crime_url st).2 in
  codes st' = data /\
  incidentTypeGroups st' = buildGroups localeCompare data /\
  map Neighborhood.id (neighborhoods st') = map NeighborhoodRow.id rows /\
  Forall (fun n => Neighborhood.selected n = true) (neighborhoods st') /\
  (exists queries,
     calls = Rest (GetCodes base) :: GetNeighborhoods base :: queries /\
     (length queries <= 1)%nat /\ Forall isIncidentQuery queries) /\
  (forall b, MapState.leaflet m = Some b -> base <> "" -> rows <> [] ->
     exists query,
       calls = [Rest (GetCodes base); GetNeighborhoods base;
                Rest (GetIncidents base query)]).
Proof.
  intros base Hurl Hcodes Hrows st' calls.
  assert (Hrun := initializeCrimes_run localeCompare env m crime_url st Hurl).
  cbv zeta in Hrun. cbn [baseApiUrl set_baseApiUrl] in Hrun. fold base in Hrun.
  rewrite Hcodes, Hrows in Hrun. unfold st', calls. rewrite Hrun. cbn [fst snd].
  set (st2 := set_neighborhoods _ _).
  set (st3 := updateVisibleNeighborhoods m st2).
  destruct (updateVisible_fields m st2) as (Hb & Hc & Hg & Hn & _). fold st3 in Hb, Hc, Hg, Hn.
  destruct (fetchIncidents_sameSettings (rest env) st3) as (Hb' & Hc' & Hg' & Hn' & _).
  assert (Hnbs : neighborhoods st3 = imap (placeNeighborhood m) rows)
    by (rewrite Hn; reflexivity).
  assert (Hbase : baseApiUrl st3 = base) by (rewrite Hb; reflexivity).
  split; [rewrite Hc', Hc; reflexivity|]. split; [rewrite Hg', Hg; reflexivity|]. split.
  { rewrite (identity_ids _ _ Hn'), Hnbs. now apply map_imap_eq. }
  split.
  { apply (identity_all_selected _ _ Hn'). rewrite Hnbs. apply placed_selected. }
  split.
  { eexists. split; [reflexivity|]. split.
    - rewrite length_map. apply fetch_calls_length.
    - rewrite fetchIncidents_requests.
      destruct (baseApiUrl st3); [constructor|].
      destruct (inViewIds _ _); repeat constructor. }
  intros b Hmap Hne Hsome.
  assert (Hasked : inViewIds (neighborhoods st3) (visibleNeighborhoodIds st3) <> []).
  { apply asked_when_all_selected.
    - rewrite Hnbs. apply placed_selected.
    - rewrite Hnbs. destruct rows; [congruence | discriminate].
    - intros k. unfold st3, updateVisibleNeighborhoods. rewrite Hmap.
      destruct (neighborhoods st2) as [|n0 l] eqn:E.
      + rewrite E. unfold st2. cbn [visibleNeighborhoodIds set_neighborhoods
          set_incidentTypeGroups set_codes set_baseApiUrl set_isLoadingCrimes set_loadError].
        unfold st2 in E. cbn [neighborhoods set_neighborhoods] in E.
        destruct rows; [congruence | discriminate E].
      + cbn [visibleNeighborhoodIds neighborhoods set_visibleNeighborhoodIds].
        rewrite E. intros (n & -> & [_ Hin]%list_elem_of_filter)%list_elem_of_fmap.
        now apply list_elem_of_fmap_2. }
  eexists. rewrite fetchIncidents_request; [|now rewrite Hbase | exact Hasked].
  rewrite Hbase. reflexivity.
Qed.
End InitSuccess.

Lemma initializeCrimes_loads_witness :
  let run := initializeCrimes Sample.codeUnitCompare Demo.env (Demo.mounted Demo.east)
               "http://localhost:8000/" Demo.fresh in
  codes run.1 = Demo.codes /\
  map Neighborhood.id (neighborhoods run.1) = [1; 2] /\
  exists query,
    run.2 = [Rest (GetCodes Sample.base); GetNeighborhoods Sample.base;
             Rest (GetIncidents Sample.base query)].
Proof.
  intros run.
  destruct (initializeCrimes_loads Sample.codeUnitCompare Demo.env (Demo.mounted Demo.east)
              "http://localhost:8000/" Demo.fresh Demo.codes Demo.rows)
    as (Hcodes & _ & Hids & _ & _ & Hquery); [discriminate | reflexivity | reflexivity |].
  split; [exact Hcodes|]. split; [exact Hids|].
  apply (Hquery Demo.east); [reflexivity | discriminate | discriminate].
Defined.

(** ** Selection and deletion *)
Section SelectionFacts.
Implicit Types (env : backend) (m : MapState.t) (i : Incident.t) (ui : Ui) (st : App).
Implicit Types (inherited : string -> bool).

Lemma deleteIncident_skipped env confirmation i ui :
  baseApiUrl (app ui) = "" \/ confirmation = false ->
  deleteIncident env confirmation i ui = (ui, [], []).
Proof.
  unfold deleteIncident. intros [-> | ->]; [reflexivity|].
  now destruct (baseApiUrl (app ui)).
Qed.

Lemma deleteIncident_run env i ui :
  baseApiUrl (app ui) <> "" ->
  let base := baseApiUrl (app ui) in
  let case_number := Incident_case_number i in
  deleteIncident env true i ui =
  match removeIncidentService env base case_number with
  | Ok _ =>
      let matched := decide (selectedCaseNumber ui = Some case_number) in
      (mkUi (fetchIncidents (rest env) (app ui)).1
         (if matched then None else selectedCaseNumber ui)
         (if matched then None else selectedIncidentMarker ui)
         (geocodeCache ui),
       DeleteIncident base case_number :: map Rest (fetchIncidents (rest env) (app ui)).2,
       [])
  | NotOk text =>
      (ui, [DeleteIncident base case_number],
       [orElse (Some (orElse (Some text) "Failed to delete incident"))
          "Failed to delete incident."])
  | Failed message =>
      (ui, [DeleteIncident base case_number],
       [orElse (Some message) "Failed to delete incident."])
  end.
Proof.
  intros Hbase. cbv zeta. unfold deleteIncident.
  destruct (baseApiUrl (app ui)) as [|c base] eqn:E; [congruence|]. cbn [negb].
  destruct (removeIncidentService env _ _) as [u|text|message]; try reflexivity.
  destruct (decide _); cbn [app selectedCaseNumber selectedIncidentMarker geocodeCache];
    destruct (fetchIncidents _ _); reflexivity.
Qed.

Lemma selectIncident_unmounted inherited env m i ui :
  MapState.leaflet m = None ->
  selectIncident inherited env m i ui =
  (mkUi (app ui) (Some (Incident_case_number i)) (selectedIncidentMarker ui)
     (geocodeCache ui), [], Completed []).
Proof. intros H. unfold selectIncident. now rewrite H. Qed.

(** Where the marker is after a lookup that gave [coords]. *)
Lemma selectIncident_mounted inherited env m i ui b :
  MapState.leaflet m = Some b ->
  let found := geocodeBlock inherited (rest env) (geocodeCache ui) (Incident_block i) in
  let placed :=
    match found.1.1 with
    | Some coords => Leaflet.latLng (latOf coords) (lngOf coords)
    | None => None
    end in
  selectIncident inherited env m i ui =
  (mkUi (app ui) (Some (Incident_case_number i))
     (match placed with Some c => Some c | None => selectedIncidentMarker ui end)
     found.1.2,
   map Rest found.2,
   match found.1.1, placed with
   | None, _ => Completed ["Could not determine exact location for this incident."]
   | Some _, Some _ => Completed []
   | Some coords, None => InvalidLatLng (latOf coords) (lngOf coords)
   end).
Proof.
  intros H. cbv zeta. unfold selectIncident. rewrite H.
  destruct (geocodeBlock _ _ _ _) as [[[coords|] cache] reqs]; cbn [fst snd];
    [|reflexivity].
  destruct (Leaflet.latLng _ _); reflexivity.
Qed.

(** What Leaflet accepts is a pair of numbers, and it keeps them. *)
Lemma latLng_spec (lat lng : option number) (c : LatLng.t) :
  Leaflet.latLng lat lng = Some c <->
  lat = Some (LatLng.lat c) /\ lng = Some (LatLng.lng c) /\
  LatLng.lat c <> NaN /\ LatLng.lng c <> NaN.
Proof.
  unfold Leaflet.latLng. destruct lat as [x|], lng as [y|], c as [p q]; simpl;
    try (split; [discriminate | intros ([=] & [=] & _)]).
  destruct x, y; simpl; split;
    try discriminate; try (intros [= <- <-]; repeat split; discriminate);
    intros ([= <-] & [= <-] & Hx & Hy); congruence.
Qed.

Lemma latLng_coordinate (coords : resolved) (c : LatLng.t) :
  Leaflet.latLng (latOf coords) (lngOf coords) = Some c ->
  coords = Coordinate c /\ LatLng.lat c <> NaN /\ LatLng.lng c <> NaN.
Proof.
  intros (Hlat & Hlng & Hnum)%latLng_spec. split; [|exact Hnum].
  destruct coords as [[p q]|name]; [|discriminate Hlat].
  destruct c. simpl in *. congruence.
Qed.

Lemma fetch_consistent (net : services) st :
  Consistent st -> Consistent (fetchIncidents net st).1.
Proof.
  intros Hc. unfold fetchIncidents. destruct (baseApiUrl st); [exact Hc|].
  destruct (inViewIds _ _).
  { cbn [fst]. exact (update_consistent _). }
  destruct (incidentsService net _ _); cbn [fst];
    [exact (update_consistent _) | exact Hc | exact Hc].
Qed.
End SelectionFacts.

(** X21. [deleteIncident] changes nothing unless the user confirms and
    the backend accepts.  Without a base URL or without confirmation it does
    nothing at all: no request, no alert.  When the backend refuses or
    cannot be reached, one DELETE was issued, the state is as before, and
    one alert shows the text of the answer or of the failure, and a fixed
    text when that is empty. *)
Theorem deleteIncident_without_effect (env : backend) (confirmation : bool)
  (i : Incident.t) (ui : Ui) :
  let out := deleteIncident env confirmation i ui in
  let base := baseApiUrl (app ui) in
  let reply := removeIncidentService env base (Incident_case_number i) in
  (base = "" \/ confirmation = false -> out = (ui, [], [])) /\
  (base <> "" -> confirmation = true ->
   forall text, reply = NotOk text \/ reply = Failed text ->
     out.1.1 = ui /\
     out.1.2 = [DeleteIncident base (Incident_case_number i)] /\
     exists message, out.2 = [message] /\ message <> "" /\
                     (text <> "" -> message = text)).
Proof.
  intros out base reply. unfold out. split.
  - apply deleteIncident_skipped.
  - intros Hbase -> text Hreply. rewrite deleteIncident_run by assumption.
    fold base. fold reply. destruct Hreply as [-> | ->]; cbn [fst snd].
    + split; [reflexivity|]. split; [reflexivity|]. eexists. split; [reflexivity|].
      rewrite !orElse_some. destruct (decide (text = "")) as [->|Hne].
      * split; [discriminate | congruence].
      * rewrite decide_False by assumption. split; [assumption | reflexivity].
    + split; [reflexivity|]. split; [reflexivity|]. eexists. split; [reflexivity|].
      rewrite orElse_some. destruct (decide (text = "")) as [->|Hne].
      * split; [discriminate | congruence].
      * split; [assumption | reflexivity].
Qed.

Lemma deleteIncident_without_effect_witness :
  let ui := Demo.ui (Sample.app Sample.base [Sample.neighborhood 1 "A" true]
                       [Sample.incident 1] [] (Num.of_Z 1000) Sample.form) in
  (deleteIncident Demo.down true (Sample.incident 1) ui).1.1 = ui /\
  (deleteIncident Demo.down true (Sample.incident 1) ui).2 = ["Failed to fetch"].
Proof.
  intros ui.
  destruct (deleteIncident_without_effect Demo.down true (Sample.incident 1) ui)
    as [_ Hfail].
  destruct (Hfail ltac:(discriminate) eq_refl "Failed to fetch")
    as (Hui & _ & message & Hout & _ & Htext); [right; reflexivity|].
  split; [exact Hui|]. rewrite Hout, Htext; [reflexivity | discriminate].
Defined.

(** X22. When the user confirms and the backend accepts, [deleteIncident]
    clears the selected case and its marker if, and only if, the deleted
    incident is the selected one; it then fetches the incidents again, and
    it leaves the geocode cache, the entry of the deleted block included,
    as it was. *)
Theorem deleteIncident_accepted (env : backend) (i : Incident.t) (ui : Ui) (u : unit) :
  let base := baseApiUrl (app ui) in
  let case_number := Incident_case_number i in
  base <> "" ->
  removeIncidentService env base case_number = Ok u ->
  let out := deleteIncident env true i ui in
  let ui' := out.1.1 in
  (selectedCaseNumber ui = Some case_number ->
     selectedCaseNumber ui' = None /\ selectedIncidentMarker ui' = None) /\
  (selectedCaseNumber ui <> Some case_number ->
     selectedCaseNumber ui' = selectedCaseNumber ui /\
     selectedIncidentMarker ui' = selectedIncidentMarker ui) /\
  app ui' = (fetchIncidents (rest env) (app ui)).1 /\
  out.1.2 = DeleteIncident base case_number ::
            map Rest (fetchIncidents (rest env) (app ui)).2 /\
  out.2 = [] /\
  geocodeCache ui' = geocodeCache ui.
Proof.
  intros base case_number Hbase Hreply out ui'. unfold ui', out.
  rewrite deleteIncident_run by assumption. fold base. fold case_number.
  rewrite Hreply. cbn [fst snd selectedCaseNumber selectedIncidentMarker app geocodeCache].
  split; [|split; [|repeat split]].
  - intros Hsel. now rewrite !decide_True by assumption.
  - intros Hsel. now rewrite !decide_False by assumption.
Qed.

Lemma deleteIncident_accepted_witness :
  let ui := mkUi (Sample.app Sample.base [Sample.neighborhood 1 "A" true]
                    [Sample.incident 1] [] (Num.of_Z 1000) Sample.form)
              (Some "24000001") (Some Demo.center) ∅ in
  selectedCaseNumber (deleteIncident Demo.env true (Sample.incident 1) ui).1.1 = None /\
  selectedIncidentMarker (deleteIncident Demo.env true (Sample.incident 1) ui).1.1 = None.
Proof.
  intros ui.
  destruct (deleteIncident_accepted Demo.env (Sample.incident 1) ui tt)
    as (Hsel & _); [discriminate | reflexivity |].
  apply Hsel. reflexivity.
Defined.

(** X23. [selectIncident] always makes the incident the selected case and
    leaves the application state alone; the cache only grows, and at most
    one query is issued.  Without a map it does nothing more.  With a map
    it looks the block up, and ends in one of three ways.  A coordinate made
    of two numbers moves the marker there and raises no alert.  No result
    leaves the marker where it was, on the incident selected before, and
    raises one alert.  A result that Leaflet refuses, a coordinate with a
    NaN or a member the cache object inherits under the name of the block,
    also leaves the marker where it was, raises no alert, and the run ends
    in the error of Leaflet; a member is met without any query. *)
Theorem selectIncident_spec (inherited : string -> bool) (env : backend)
  (m : MapState.t) (i : Incident.t) (ui : Ui) :
  let out := selectIncident inherited env m i ui in
  let ui' := out.1.1 in
  let found :=
    (geocodeBlock inherited (rest env) (geocodeCache ui) (Incident_block i)).1.1 in
  selectedCaseNumber ui' = Some (Incident_case_number i) /\
  app ui' = app ui /\
  geocodeCache ui ⊆ geocodeCache ui' /\
  (length out.1.2 <= 1)%nat /\
  (MapState.leaflet m = None ->
     selectedIncidentMarker ui' = selectedIncidentMarker ui /\
     geocodeCache ui' = geocodeCache ui /\ out.1.2 = [] /\ out.2 = Completed []) /\
  (forall b c, MapState.leaflet m = Some b -> found = Some (Coordinate c) ->
     LatLng.lat c <> NaN -> LatLng.lng c <> NaN ->
     selectedIncidentMarker ui' = Some c /\ out.2 = Completed [] /\
     geocodeCache ui' !! Incident_block i = Some c) /\
  (forall b, MapState.leaflet m = Some b -> found = None ->
     selectedIncidentMarker ui' = selectedIncidentMarker ui /\
     exists alert, out.2 = Completed [alert]) /\
  (forall b c, MapState.leaflet m = Some b -> found = Some (Coordinate c) ->
     LatLng.lat c = NaN \/ LatLng.lng c = NaN ->
     selectedIncidentMarker ui' = selectedIncidentMarker ui /\
     out.2 = InvalidLatLng (Some (LatLng.lat c)) (Some (LatLng.lng c)) /\
     geocodeCache ui' !! Incident_block i = Some c) /\
  (forall b name, MapState.leaflet m = Some b -> found = Some (Member name) ->
     name = Incident_block i /\ inherited name = true /\
     selectedIncidentMarker ui' = selectedIncidentMarker ui /\
     out.2 = InvalidLatLng None None /\
     geocodeCache ui' = geocodeCache ui /\ out.1.2 = []).
Proof.
  intros out ui' found. unfold ui', out.
  destruct (MapState.leaflet m) as [b|] eqn:Hmap.
  - rewrite (selectIncident_mounted inherited env m i ui b Hmap).
    cbn [fst snd selectedCaseNumber app geocodeCache selectedIncidentMarker].
    fold found.
    split; [reflexivity|]. split; [reflexivity|]. split.
    { apply map_subseteq_spec. intros k c. apply geocodeBlock_kept. }
    split; [rewrite length_map; apply geocodeBlock_calls|].
    split; [discriminate|]. split; [|split; [|split]].
    + intros b' c _ Hfound Hlat Hlng. rewrite Hfound. cbn [latOf lngOf].
      assert (Hplaced : Leaflet.latLng (Some (LatLng.lat c)) (Some (LatLng.lng c)) = Some c)
        by now apply latLng_spec.
      rewrite Hplaced. split; [reflexivity|]. split; [reflexivity|].
      now apply geocodeBlock_coordinate in Hfound.
    + intros b' _ Hfound. rewrite Hfound. split; [reflexivity|]. now eexists.
    + intros b' c _ Hfound Hnan. rewrite Hfound. cbn [latOf lngOf].
      assert (Hrefused : Leaflet.latLng (Some (LatLng.lat c)) (Some (LatLng.lng c)) = None).
      { destruct (Leaflet.latLng _ _) as [c'|] eqn:E; [|reflexivity].
        apply latLng_spec in E as ([= Hlat] & [= Hlng] & Hx & Hy).
        destruct Hnan; congruence. }
      rewrite Hrefused. split; [reflexivity|]. split; [reflexivity|].
      now apply geocodeBlock_coordinate in Hfound.
    + intros b' name _ Hfound. rewrite Hfound. cbn [latOf lngOf Leaflet.latLng].
      assert (Hblock : Incident_block i <> "").
      { intros Hb. unfold found in Hfound. rewrite Hb in Hfound. discriminate Hfound. }
      unfold found in Hfound.
      destruct (geocodeBlock_cases inherited (rest env) (geocodeCache ui)
                  (Incident_block i) Hblock)
        as [(hit & Hlook & Hrun) | [(Hlook & Hinh & Hrun) | (Hlook & Hinh & Hrun)]];
        rewrite Hrun in Hfound |- *; cbn [fst snd] in Hfound |- *.
      * discriminate Hfound.
      * injection Hfound as <-. repeat split. exact Hinh.
      * destruct (geocodeService _ _) as [[|first others]| |]; discriminate Hfound.
  - rewrite (selectIncident_unmounted inherited env m i ui Hmap).
    cbn [fst snd selectedCaseNumber app geocodeCache selectedIncidentMarker].
    split; [reflexivity|]. split; [reflexivity|]. split; [reflexivity|].
    split; [simpl; lia|]. split; [repeat split|].
    split; [|split; [|split]]; discriminate.
Qed.

Lemma selectIncident_spec_witness :
  let ui := Demo.ui (Sample.app Sample.base [] [Sample.incident 1] []
                       (Num.of_Z 1000) Sample.form) in
  let named := Incident.mk (Row.mk "24000002" "2024-01-01" "12:00:00" 600 (Some "Theft")
                              87 1 "constructor") "Theft" "Conway" property in
  (selectIncident Sample.objectMembers Demo.env (Demo.mounted Demo.wide) named ui).2 =
    InvalidLatLng None None /\
  (selectIncident Sample.objectMembers Demo.env (Demo.mounted Demo.wide) named ui).1.2 = [].
Proof.
  intros ui named.
  destruct (selectIncident_spec Sample.objectMembers Demo.env (Demo.mounted Demo.wide)
              named ui) as (_ & _ & _ & _ & _ & _ & _ & _ & Hmember).
  destruct (Hmember Demo.wide "constructor") as (_ & _ & _ & Hend & _ & Hcalls);
    [reflexivity | reflexivity |].
  split; [exact Hend | exact Hcalls].
Defined.

(** X24. The cache and the marker of the selected incident never leave
    the bounding box: when they hold coordinates of the box only and the
    first hit of the geocoder has numbers as coordinates, they still do
    after [selectIncident], and after [deleteIncident] whatever the
    backend answers. *)
Theorem marker_stays_in_box (inherited : string -> bool) (env : backend)
  (m : MapState.t) (confirmation : bool) (i : Incident.t) (ui : Ui) :
  UiInBox ui ->
  (numericHit (rest env) (normalizeBlockAddress (Incident_block i)) ->
   UiInBox (selectIncident inherited env m i ui).1.1) /\
  UiInBox (deleteIncident env confirmation i ui).1.1.
Proof.
  intros [Hcache Hmarker]. split.
  - intros Hnum.
    assert (Hcache' : cacheInBox
              (geocodeBlock inherited (rest env) (geocodeCache ui) (Incident_block i)).1.2).
    { destruct (geocodeBlock_cache_cases inherited (rest env) (geocodeCache ui)
                  (Incident_block i))
        as [-> | (first & others & Hreply & ->)]; [exact Hcache|].
      apply cacheInBox_insert; [exact Hcache|].
      destruct (Hnum first others Hreply). now apply clampLatLng_in_box. }
    destruct (MapState.leaflet m) as [b|] eqn:Hmap.
    + rewrite (selectIncident_mounted inherited env m i ui b Hmap).
      split; cbn [fst snd geocodeCache selectedIncidentMarker]; [exact Hcache'|].
      intros c.
      destruct (geocodeBlock _ _ _ _).1.1 as [coords|] eqn:E; [|apply Hmarker].
      destruct (Leaflet.latLng _ _) as [c'|] eqn:Hplaced; [|apply Hmarker].
      intros [= <-]. apply latLng_coordinate in Hplaced as [-> _].
      apply geocodeBlock_coordinate in E as [_ Hlook].
      exact (Hcache' (Incident_block i) c' Hlook).
    + rewrite (selectIncident_unmounted inherited env m i ui Hmap). split; assumption.
  - destruct (decide (baseApiUrl (app ui) = "")) as [Hbase|Hbase].
    { rewrite deleteIncident_skipped by now left. split; assumption. }
    destruct confirmation.
    2: { rewrite deleteIncident_skipped by now right. split; assumption. }
    rewrite deleteIncident_run by assumption.
    destruct (removeIncidentService env _ _); cbn [fst snd]; [|split; assumption..].
    split; cbn [geocodeCache selectedIncidentMarker]; [assumption|].
    destruct (decide _); [discriminate | assumption].
Qed.

Lemma marker_stays_in_box_witness :
  let ui := Demo.ui (Sample.app Sample.base [] [Sample.incident 1] []
                       (Num.of_Z 1000) Sample.form) in
  UiInBox (selectIncident Sample.objectMembers Demo.env (Demo.mounted Demo.wide)
             (Sample.incident 1) ui).1.1.
Proof.
  intros ui.
  apply (marker_stays_in_box Sample.objectMembers Demo.env (Demo.mounted Demo.wide) true
           (Sample.incident 1) ui).
  - split.
    + intros k c Hk. unfold ui, Demo.ui in Hk. cbn [geocodeCache] in Hk.
      rewrite lookup_empty in Hk. discriminate Hk.
    + intros c Hc. discriminate Hc.
  - intros hit others [= <- _]. split; discriminate.
Defined.

Lemma selectIncident_selected (inherited : string -> bool) (env : backend)
  (m : MapState.t) (i : Incident.t) (ui : Ui) :
  selectedCaseNumber (selectIncident inherited env m i ui).1.1 =
    Some (Incident_case_number i) /\
  app (selectIncident inherited env m i ui).1.1 = app ui.
Proof.
  destruct (MapState.leaflet m) as [b|] eqn:Hmap.
  - rewrite (selectIncident_mounted inherited env m i ui b Hmap). split; reflexivity.
  - rewrite (selectIncident_unmounted inherited env m i ui Hmap). split; reflexivity.
Qed.

(** X25. Selecting an incident and then deleting it, confirmed and
    accepted, leaves no case selected and no marker; deleting an incident
    with another case number instead leaves the selection and the marker of
    the selected one. *)
Theorem select_then_delete (inherited : string -> bool) (env env' : backend)
  (m : MapState.t) (i j : Incident.t) (ui : Ui) (u : unit) :
  let base := baseApiUrl (app ui) in
  let ui1 := (selectIncident inherited env m i ui).1.1 in
  base <> "" ->
  (removeIncidentService env' base (Incident_case_number i) = Ok u ->
   let ui2 := (deleteIncident env' true i ui1).1.1 in
   selectedCaseNumber ui2 = None /\ selectedIncidentMarker ui2 = None) /\
  (Incident_case_number j <> Incident_case_number i ->
   removeIncidentService env' base (Incident_case_number j) = Ok u ->
   let ui2 := (deleteIncident env' true j ui1).1.1 in
   selectedCaseNumber ui2 = Some (Incident_case_number i) /\
   selectedIncidentMarker ui2 = selectedIncidentMarker ui1).
Proof.
  intros base ui1 Hbase.
  destruct (selectIncident_selected inherited env m i ui) as [Hsel Happ].
  fold ui1 in Hsel, Happ.
  assert (Hbase1 : baseApiUrl (app ui1) <> "") by now rewrite Happ.
  split.
  - intros Hreply. cbv zeta. rewrite deleteIncident_run by assumption.
    rewrite Happ. fold base. rewrite Hreply.
    cbn [fst snd selectedCaseNumber selectedIncidentMarker].
    now rewrite !decide_True by assumption.
  - intros Hother Hreply. cbv zeta. rewrite deleteIncident_run by assumption.
    rewrite Happ. fold base. rewrite Hreply.
    cbn [fst snd selectedCaseNumber selectedIncidentMarker].
    rewrite !decide_False by (rewrite Hsel; congruence). now split.
Qed.

Lemma select_then_delete_witness :
  let ui := Demo.ui (Sample.app Sample.base [] [Sample.incident 1] []
                       (Num.of_Z 1000) Sample.form) in
  let ui1 := (selectIncident Sample.objectMembers Demo.env (Demo.mounted Demo.wide)
                (Sample.incident 1) ui).1.1 in
  selectedIncidentMarker ui1 = Some (LatLng.mk (Fin (4495 # 100)) (Fin (-9310 # 100))) /\
  selectedIncidentMarker (deleteIncident Demo.env true (Sample.incident 1) ui1).1.1 = None.
Proof.
  intros ui ui1. split; [reflexivity|].
  destruct (select_then_delete Sample.objectMembers Demo.env Demo.env
              (Demo.mounted Demo.wide) (Sample.incident 1) (Sample.incident 1) ui tt)
    as [Hsame _]; [discriminate|].
  apply Hsame. reflexivity.
Defined.

(** X26. Once every neighborhood shows the number of the current
    incidents that bear its id, it keeps doing so: a query, whatever its
    outcome, a submission, a deletion, a selection and a change of the view
    all preserve it. *)
Theorem counts_stay_consistent (StringToNumber : string -> number)
  (inherited : string -> bool) (env : backend)
  (m : MapState.t) (confirmation : bool) (i : Incident.t) (ui : Ui) :
  Consistent (app ui) ->
  Consistent (fetchIncidents (rest env) (app ui)).1 /\
  Consistent (submitNewIncident StringToNumber (rest env) (app ui)).1 /\
  Consistent (updateVisibleNeighborhoods m (app ui)) /\
  Consistent (app (deleteIncident env confirmation i ui).1.1) /\
  Consistent (app (selectIncident inherited env m i ui).1.1).
Proof.
  intros Hc. split; [now apply fetch_consistent|]. split; [|split; [|split]].
  - destruct (decide (baseApiUrl (app ui) = "")) as [Hbase|Hbase].
    { rewrite submit_unconfigured by assumption. exact Hc. }
    destruct (classic_blank (newIncident (app ui))) as [Hblank|Hfilled].
    { rewrite submit_blank by assumption. exact Hc. }
    rewrite submit_filled by assumption.
    destruct (newIncidentService _ _ _); cbn [fst]; [|exact Hc..].
    apply fetch_consistent. exact Hc.
  - unfold Consistent. destruct (updateVisible_fields m (app ui)) as (_ & _ & _ & -> & -> & _).
    exact Hc.
  - destruct (decide (baseApiUrl (app ui) = "")) as [Hbase|Hbase].
    { now rewrite deleteIncident_skipped by now left. }
    destruct confirmation; [|now rewrite deleteIncident_skipped by now right].
    rewrite deleteIncident_run by assumption.
    destruct (removeIncidentService env _ _); cbn [fst app]; [|exact Hc..].
    now apply fetch_consistent.
  - destruct (selectIncident_selected inherited env m i ui) as [_ ->]. exact Hc.
Qed.

Lemma counts_stay_consistent_witness :
  let ui := Demo.ui (Sample.app Sample.base [Sample.neighborhood 1 "A" true] [] []
                       (Num.of_Z 1000) Sample.form) in
  Consistent (submitNewIncident Sample.toNumber (rest Demo.env) (app ui)).1.
Proof.
  intros ui.
  apply (counts_stay_consistent Sample.toNumber Sample.objectMembers Demo.env
           (Demo.mounted Demo.wide) true (Sample.incident 1) ui).
  repeat constructor.
Defined.

Lemma geocodeBlock_cache_grows_witness :
  let block := "98X UNIVERSITY AV W" in
  let cache' := (geocodeBlock Sample.objectMembers (rest Demo.env) ∅ block).1.2 in
  cache' !! block = Some (LatLng.mk (Fin (4495 # 100)) (Fin (-9310 # 100))) /\
  (geocodeBlock Sample.objectMembers (rest Demo.env) ∅ "toString").1.1 =
    Some (Member "toString").
Proof.
  intros block cache'. split.
  - apply (geocodeBlock_cache_grows Sample.objectMembers (rest Demo.env) ∅ block).
    + discriminate.
    + reflexivity.
  - apply (geocodeBlock_cache_grows Sample.objectMembers (rest Demo.env) ∅ "toString").
    + discriminate.
    + repeat split.
Defined.

Lemma submitNewIncident_frame_witness :
  let st := Sample.app Sample.base [Sample.neighborhood 1 "A" true] [] []
              (Num.of_Z 1000) Sample.form in
  let p := Payload.mk "24000001" "2024-01-01" "12:00" (Num.of_Z 600) "Theft"
             (Num.of_Z 87) (Num.of_Z 1) "98X UNIVERSITY AV W" in
  trimmedText (Payload.incident p) /\ newIncident (submitNewIncident Sample.toNumber
                                                    Sample.quiet st).1 = Sample.form.
Proof.
  intros st p.
  destruct (submitNewIncident_frame Sample.toNumber Sample.quiet st)
    as ((_ & _ & _ & _ & _ & _ & Hform) & Hput & _).
  split; [|exact Hform].
  apply (Hput Sample.base p). apply list_elem_of_here.
Defined.
